(** * DriftGuard: drift detection and correction control

    A shallow embedding of the statistical core of the DriftGuard extension
    (the main module, version 0.5.0): the numeric helpers ([mean],
    [kalman_filter], [snap_to_discrete], [cusum]), the score history
    ([store_scores]), the drift detector ([update_drift_state]), the
    correction controller (the body of [score_and_process_message]) and the
    session report ([generate_report] and the three score functions); and,
    around them, the helpers of the scoring pipeline ([extract_json],
    [shuffle_array], [chunk_array], the truncation of [score_response]), the
    calibration ([resolve_dimensions]), the scoring gate
    ([should_score_message]), the handler of a swiped message and the
    intensity of a correction ([generate_correction]).

    Number model.  A JavaScript Number is modelled as an exact rational
    ([Q]): every arithmetic step is carried out without rounding, and every
    modelled number is finite.  The guards [Number.isFinite] of the source
    are therefore modelled at the only place where exact arithmetic can leave
    the finite numbers, a division by zero.  [Math.sqrt] is not rational; a
    value [Math.sqrt(P) * 1.96] is kept symbolically ([HW_sqrt P]) and read
    in the real numbers by [half_width_value].

    Failures.  The requests to the analysis backend can fail.  A failed
    scoring request is a chunk without a reply ([score_chunk]); a failed
    [generate_correction] throws in the middle of the correction branch of
    [score_and_process_message], which is modelled by [step_result]: the
    writes made before the throw stay, the rest of the cycle is skipped. *)

From Stdlib Require Import QArith Qabs Qminmax Qround Qreals Reals Psatz Lia.
From Stdlib Require PrimFloat.
From stdpp Require Import gmap strings.

Local Open Scope Q_scope.

(** ** Comparisons on numbers *)

Definition Qleb (x y : Q) : bool := Qle_bool x y.
Definition Qltb (x y : Q) : bool := negb (Qle_bool y x).

(** ** Numeric helpers of the source *)

(** [arr.reduce((a, b) => a + b, 0)] *)
Definition sum (arr : list Q) : Q := fold_left Qplus arr 0.

(** [mean(arr)]: 0 on the empty array. *)
Definition mean (arr : list Q) : Q :=
  match arr with
  | [] => 0
  | _ => sum arr / inject_Z (Z.of_nat (length arr))
  end.

(** [compute_variance(arr)]: [null] below two elements. *)
Definition compute_variance (arr : list Q) : option Q :=
  match arr with
  | [] | [_] => None
  | _ =>
      let m := mean arr in
      Some (fold_left (fun s v => s + (v - m) * (v - m)) arr 0
            / inject_Z (Z.of_nat (length arr)))
  end.

(** *** Scalar Kalman filter *)

(** A confidence half-width: either a constant of the source or
    [Math.sqrt(P) * 1.96]. *)
Inductive half_width : Type :=
  | HW_const (c : Q)
  | HW_sqrt (P : Q).

Definition half_width_value (h : half_width) : R :=
  match h with
  | HW_const c => Q2R c
  | HW_sqrt P => (sqrt (Q2R P) * Q2R 1.96)%R
  end.

Record kalman_result : Type := {
  estimate : Q;
  uncertainty : half_width
}.

Definition KALMAN_R : Q := 0.04.
Definition KALMAN_Q : Q := 0.005.

(** One pass of the loop body.  [None] stands for a non-finite value: with
    exact arithmetic it can only come from the division by [P_pred + R].
    The new estimate and variance are kept in lowest terms ([Qred]), which
    does not change their value and keeps the fractions small. *)
Definition kalman_step (R_obs Q_proc : Q) (x P z : Q) : option (Q * Q) :=
  let P_pred := P + Q_proc in
  if Qeq_bool (P_pred + R_obs) 0 then None
  else
    let K := P_pred / (P_pred + R_obs) in
    Some (Qred (x + K * (z - x)), Qred ((1 - K) * P_pred)).

Fixpoint kalman_loop (R_obs Q_proc : Q) (x P : Q) (rest : list Q)
  : option (Q * Q) :=
  match rest with
  | [] => Some (x, P)
  | z :: rest' =>
      match kalman_step R_obs Q_proc x P z with
      | None => None
      | Some (x', P') => kalman_loop R_obs Q_proc x' P' rest'
      end
  end.

Definition kalman_filter_with (R_obs Q_proc : Q) (scores : list Q)
  : kalman_result :=
  match scores with
  | [] => {| estimate := 0; uncertainty := HW_const 1 |}
  | [z] => {| estimate := z; uncertainty := HW_sqrt R_obs |}
  | z :: rest =>
      match kalman_loop R_obs Q_proc z R_obs rest with
      | Some (x, P) => {| estimate := x; uncertainty := HW_sqrt P |}
      | None => {| estimate := mean scores; uncertainty := HW_const 0.5 |}
      end
  end.

(** [kalman_filter(scores)] with the default parameters, as every caller
    uses it. *)
Definition kalman_filter (scores : list Q) : kalman_result :=
  kalman_filter_with KALMAN_R KALMAN_Q scores.

(** *** Discrete rubric scale *)

Definition DISCRETE_SCALE : list Q := [0; 0.25; 0.5; 0.75; 1].

Definition snap_pick (value best v : Q) : Q :=
  if Qltb (Qabs (v - value)) (Qabs (best - value)) then v else best.

(** [DISCRETE_SCALE.reduce((best, v) => ...)] without an initial value: the
    first level starts as [best].  The source applies it to values clamped
    to [0, 1], where its binary64 comparisons agree with the exact ones;
    for arguments from about 2^52 on, the binary64 distances to the levels
    coincide and the source returns another level than the nearest. *)
Definition snap_to_discrete (value : Q) : Q :=
  match DISCRETE_SCALE with
  | [] => 0
  | v0 :: rest => fold_left (snap_pick value) rest v0
  end.

(** [Math.max(0, Math.min(1, parsed))] *)
Definition clamp01 (parsed : Q) : Q := Qmax 0 (Qmin 1 parsed).

(** *** CUSUM *)

(** [const EPSILON = 1e-6] *)
Definition EPSILON : Q := 0.000001.

Record cusum_result : Type := {
  cusum_S : Q;
  triggered : bool
}.

Definition cusum_acc (target allowance S x : Q) : Q :=
  Qmax 0 (S + (Qabs (x - target) - allowance)).

Definition cusum (scores : list Q) (target allowance decision_threshold : Q)
  : cusum_result :=
  match scores with
  | [] => {| cusum_S := 0; triggered := false |}
  | _ =>
      let S := fold_left (cusum_acc target allowance) scores 0 in
      {| cusum_S := S; triggered := Qleb (decision_threshold - EPSILON) S |}
  end.

(** ** Data model *)

Definition MIN_SCORES_FOR_CORRECTION : nat := 2.
Definition MIN_SCORES_FOR_VERDICT : nat := 2.
Definition FLOAT_EPSILON : Q := 0.001.
Definition MAX_SCORE_HISTORY : nat := 200.
Definition MA_CONSECUTIVE_REQUIRED : nat := 3.

(** A count or an index used as a number. *)
Definition Qnat (n : nat) : Q := inject_Z (Z.of_nat n).

(** An active dimension: the fields the detector and the controller read. *)
Record dimension : Type := {
  dim_id : string;
  dim_target : Q
}.

(** One entry of [state.score_history].  A dimension absent from [scores]
    was not observable in the reply. *)
Record score_entry : Type := {
  message_id : nat;
  timestamp : nat;
  scores : gmap string Q;
  content_hash : nat
}.

Record settings : Type := {
  drift_window : nat;
  drift_threshold : Q;
  drift_alert_threshold : Q;
  correction_enabled : bool;
  correction_max_dimensions : nat;
  correction_patience : nat;
  correction_max_attempts : nat;
  correction_cooldown : nat;
  recovery_margin : Q;
  recovery_patience : nat
}.

Definition DEFAULT_SETTINGS : settings := {|
  drift_window := 8;
  drift_threshold := 0.20;
  drift_alert_threshold := 0.35;
  correction_enabled := true;
  correction_max_dimensions := 3;
  correction_patience := 2;
  correction_max_attempts := 2;
  correction_cooldown := 2;
  recovery_margin := 0.05;
  recovery_patience := 2
|}.

(** [arr.slice(-n)]: the last [n] elements; [slice(-0)] is [slice(0)], the
    whole array. *)
Definition slice_last {A : Type} (n : nat) (l : list A) : list A :=
  match n with
  | O => l
  | _ => skipn (length l - n) l
  end.

(** [[...new Set(l)]]: the first occurrence of each element, in order. *)
Fixpoint uniq_from (seen l : list string) : list string :=
  match l with
  | [] => []
  | x :: l' =>
      if bool_decide (x ∈ seen) then uniq_from seen l'
      else x :: uniq_from (x :: seen) l'
  end.

Definition uniq (l : list string) : list string := uniq_from [] l.

(** [arr.includes(id)] *)
Definition includes (l : list string) (id : string) : bool :=
  bool_decide (id ∈ l).

(** A JavaScript object with string keys, in insertion order. *)
Fixpoint obj_set {A : Type} (k : string) (v : A) (o : list (string * A))
  : list (string * A) :=
  match o with
  | [] => [(k, v)]
  | (k', v') :: o' =>
      if bool_decide (k = k') then (k, v) :: o' else (k', v') :: obj_set k v o'
  end.

Fixpoint obj_get {A : Type} (k : string) (o : list (string * A)) : option A :=
  match o with
  | [] => None
  | (k', v') :: o' => if bool_decide (k = k') then Some v' else obj_get k o'
  end.

(** [Math.max(...l)] on a non-empty list (the callers never pass an empty
    one, where the source would give [-Infinity]). *)
Definition max_of (l : list Q) : Q :=
  match l with
  | [] => 0
  | x :: r => fold_left Qmax r x
  end.

(** [Math.round(x)]: the nearest integer, halves upwards. *)
Definition Math_round (x : Q) : Z := Qfloor (x + 0.5).

(** ** Scoring pipeline: what one reply contributes *)





(** ** Drift state *)

Inductive trend_kind : Type :=
  | T_no_data
  | T_insufficient_data
  | T_drifting
  | T_correcting
  | T_stable.

(** The drift state of one dimension.  [moving_avg] and [deviation] are
    [null] in the source when the dimension has no score in the window. *)
Record drift_entry : Type := {
  moving_avg : option Q;
  deviation : option Q;
  trend : trend_kind;
  correcting : bool;
  severe : bool;
  cusum_value : Q;
  drift_uncertainty : half_width
}.

(** The record behind [state.active_correction] when [enabled] is true;
    [{ enabled: false }] is [None]. *)
Record correction : Type := {
  dim_ids : list string;
  injection_text : string;
  since_message : nat;
  attempt : nat;
  scores_since_correction : nat;
  deviation_at_correction : Q
}.

Inductive verdict : Type :=
  | V_ceiling
  | V_natural_fit
  | V_maintainable
  | V_correctable
  | V_drifting
  | V_volatile
  | V_insufficient_data.

Record report_object : Type := {
  rep_messages_scored : nat;
  card_resilience : Z;
  session_quality : Z;
  model_compatibility : Z;
  dimension_verdicts : list (string * verdict);
  dimension_curves : list (string * list Q);
  corrections_count : nat;
  rep_ceiling_dimensions : list string;
  insights : string
}.

(** The session state of one chat ([create_empty_chat_state]), together with
    the host's prompt slot of key [driftguard_correction]
    ([correction_prompt], empty when cleared). *)
Record chat_state : Type := {
  dimensions : list dimension;
  score_history : list score_entry;
  drift_state : list (string * drift_entry);
  active_correction : option correction;
  ceiling_dimensions : list string;
  ceiling_model : option string;
  cooldown_remaining : nat;
  recovery_cycles : nat;
  messages_scored : nat;
  corrections_injected : nat;
  ever_corrected_dimensions : list string;
  ever_cusum_triggered : list string;
  ever_ma_triggered : list string;
  ma_consecutive_above : gmap string nat;
  cusum_reset_after : gmap string nat;
  last_scored_message_id : option nat;
  correction_prompt : string;
  report : option report_object
}.

Definition create_empty_chat_state : chat_state := {|
  dimensions := [];
  score_history := [];
  drift_state := [];
  active_correction := None;
  ceiling_dimensions := [];
  ceiling_model := None;
  cooldown_remaining := 0;
  recovery_cycles := 0;
  messages_scored := 0;
  corrections_injected := 0;
  ever_corrected_dimensions := [];
  ever_cusum_triggered := [];
  ever_ma_triggered := [];
  ma_consecutive_above := ∅;
  cusum_reset_after := ∅;
  last_scored_message_id := None;
  correction_prompt := "";
  report := None
|}.

(** Assignments to one field of the state. *)
Definition set_score_history (v : list score_entry) (st : chat_state)
  : chat_state :=
  Build_chat_state
    (dimensions st) v (drift_state st) (active_correction st)
    (ceiling_dimensions st) (ceiling_model st) (cooldown_remaining st)
    (recovery_cycles st) (messages_scored st) (corrections_injected st)
    (ever_corrected_dimensions st) (ever_cusum_triggered st)
    (ever_ma_triggered st) (ma_consecutive_above st) (cusum_reset_after st)
    (last_scored_message_id st) (correction_prompt st) (report st).

Definition set_drift_state (v : list (string * drift_entry)) (st : chat_state)
  : chat_state :=
  Build_chat_state
    (dimensions st) (score_history st) v (active_correction st)
    (ceiling_dimensions st) (ceiling_model st) (cooldown_remaining st)
    (recovery_cycles st) (messages_scored st) (corrections_injected st)
    (ever_corrected_dimensions st) (ever_cusum_triggered st)
    (ever_ma_triggered st) (ma_consecutive_above st) (cusum_reset_after st)
    (last_scored_message_id st) (correction_prompt st) (report st).

Definition set_active_correction (v : option correction) (st : chat_state)
  : chat_state :=
  Build_chat_state
    (dimensions st) (score_history st) (drift_state st) v
    (ceiling_dimensions st) (ceiling_model st) (cooldown_remaining st)
    (recovery_cycles st) (messages_scored st) (corrections_injected st)
    (ever_corrected_dimensions st) (ever_cusum_triggered st)
    (ever_ma_triggered st) (ma_consecutive_above st) (cusum_reset_after st)
    (last_scored_message_id st) (correction_prompt st) (report st).

Definition set_ceiling_dimensions (v : list string) (st : chat_state)
  : chat_state :=
  Build_chat_state
    (dimensions st) (score_history st) (drift_state st)
    (active_correction st) v (ceiling_model st) (cooldown_remaining st)
    (recovery_cycles st) (messages_scored st) (corrections_injected st)
    (ever_corrected_dimensions st) (ever_cusum_triggered st)
    (ever_ma_triggered st) (ma_consecutive_above st) (cusum_reset_after st)
    (last_scored_message_id st) (correction_prompt st) (report st).

Definition set_ceiling_model (v : option string) (st : chat_state)
  : chat_state :=
  Build_chat_state
    (dimensions st) (score_history st) (drift_state st)
    (active_correction st) (ceiling_dimensions st) v (cooldown_remaining st)
    (recovery_cycles st) (messages_scored st) (corrections_injected st)
    (ever_corrected_dimensions st) (ever_cusum_triggered st)
    (ever_ma_triggered st) (ma_consecutive_above st) (cusum_reset_after st)
    (last_scored_message_id st) (correction_prompt st) (report st).

Definition set_cooldown_remaining (v : nat) (st : chat_state)
  : chat_state :=
  Build_chat_state
    (dimensions st) (score_history st) (drift_state st)
    (active_correction st) (ceiling_dimensions st) (ceiling_model st) v
    (recovery_cycles st) (messages_scored st) (corrections_injected st)
    (ever_corrected_dimensions st) (ever_cusum_triggered st)
    (ever_ma_triggered st) (ma_consecutive_above st) (cusum_reset_after st)
    (last_scored_message_id st) (correction_prompt st) (report st).

Definition set_recovery_cycles (v : nat) (st : chat_state)
  : chat_state :=
  Build_chat_state
    (dimensions st) (score_history st) (drift_state st)
    (active_correction st) (ceiling_dimensions st) (ceiling_model st)
    (cooldown_remaining st) v (messages_scored st) (corrections_injected st)
    (ever_corrected_dimensions st) (ever_cusum_triggered st)
    (ever_ma_triggered st) (ma_consecutive_above st) (cusum_reset_after st)
    (last_scored_message_id st) (correction_prompt st) (report st).

Definition set_messages_scored (v : nat) (st : chat_state)
  : chat_state :=
  Build_chat_state
    (dimensions st) (score_history st) (drift_state st)
    (active_correction st) (ceiling_dimensions st) (ceiling_model st)
    (cooldown_remaining st) (recovery_cycles st) v (corrections_injected st)
    (ever_corrected_dimensions st) (ever_cusum_triggered st)
    (ever_ma_triggered st) (ma_consecutive_above st) (cusum_reset_after st)
    (last_scored_message_id st) (correction_prompt st) (report st).

Definition set_corrections_injected (v : nat) (st : chat_state)
  : chat_state :=
  Build_chat_state
    (dimensions st) (score_history st) (drift_state st)
    (active_correction st) (ceiling_dimensions st) (ceiling_model st)
    (cooldown_remaining st) (recovery_cycles st) (messages_scored st) v
    (ever_corrected_dimensions st) (ever_cusum_triggered st)
    (ever_ma_triggered st) (ma_consecutive_above st) (cusum_reset_after st)
    (last_scored_message_id st) (correction_prompt st) (report st).

Definition set_ever_corrected_dimensions (v : list string) (st : chat_state)
  : chat_state :=
  Build_chat_state
    (dimensions st) (score_history st) (drift_state st)
    (active_correction st) (ceiling_dimensions st) (ceiling_model st)
    (cooldown_remaining st) (recovery_cycles st) (messages_scored st)
    (corrections_injected st) v (ever_cusum_triggered st)
    (ever_ma_triggered st) (ma_consecutive_above st) (cusum_reset_after st)
    (last_scored_message_id st) (correction_prompt st) (report st).

Definition set_ever_cusum_triggered (v : list string) (st : chat_state)
  : chat_state :=
  Build_chat_state
    (dimensions st) (score_history st) (drift_state st)
    (active_correction st) (ceiling_dimensions st) (ceiling_model st)
    (cooldown_remaining st) (recovery_cycles st) (messages_scored st)
    (corrections_injected st) (ever_corrected_dimensions st) v
    (ever_ma_triggered st) (ma_consecutive_above st) (cusum_reset_after st)
    (last_scored_message_id st) (correction_prompt st) (report st).

Definition set_ever_ma_triggered (v : list string) (st : chat_state)
  : chat_state :=
  Build_chat_state
    (dimensions st) (score_history st) (drift_state st)
    (active_correction st) (ceiling_dimensions st) (ceiling_model st)
    (cooldown_remaining st) (recovery_cycles st) (messages_scored st)
    (corrections_injected st) (ever_corrected_dimensions st)
    (ever_cusum_triggered st) v (ma_consecutive_above st)
    (cusum_reset_after st) (last_scored_message_id st)
    (correction_prompt st) (report st).

Definition set_ma_consecutive_above (v : gmap string nat) (st : chat_state)
  : chat_state :=
  Build_chat_state
    (dimensions st) (score_history st) (drift_state st)
    (active_correction st) (ceiling_dimensions st) (ceiling_model st)
    (cooldown_remaining st) (recovery_cycles st) (messages_scored st)
    (corrections_injected st) (ever_corrected_dimensions st)
    (ever_cusum_triggered st) (ever_ma_triggered st) v
    (cusum_reset_after st) (last_scored_message_id st)
    (correction_prompt st) (report st).

Definition set_cusum_reset_after (v : gmap string nat) (st : chat_state)
  : chat_state :=
  Build_chat_state
    (dimensions st) (score_history st) (drift_state st)
    (active_correction st) (ceiling_dimensions st) (ceiling_model st)
    (cooldown_remaining st) (recovery_cycles st) (messages_scored st)
    (corrections_injected st) (ever_corrected_dimensions st)
    (ever_cusum_triggered st) (ever_ma_triggered st)
    (ma_consecutive_above st) v (last_scored_message_id st)
    (correction_prompt st) (report st).

Definition set_last_scored_message_id (v : option nat) (st : chat_state)
  : chat_state :=
  Build_chat_state
    (dimensions st) (score_history st) (drift_state st)
    (active_correction st) (ceiling_dimensions st) (ceiling_model st)
    (cooldown_remaining st) (recovery_cycles st) (messages_scored st)
    (corrections_injected st) (ever_corrected_dimensions st)
    (ever_cusum_triggered st) (ever_ma_triggered st)
    (ma_consecutive_above st) (cusum_reset_after st) v
    (correction_prompt st) (report st).

Definition set_correction_prompt (v : string) (st : chat_state)
  : chat_state :=
  Build_chat_state
    (dimensions st) (score_history st) (drift_state st)
    (active_correction st) (ceiling_dimensions st) (ceiling_model st)
    (cooldown_remaining st) (recovery_cycles st) (messages_scored st)
    (corrections_injected st) (ever_corrected_dimensions st)
    (ever_cusum_triggered st) (ever_ma_triggered st)
    (ma_consecutive_above st) (cusum_reset_after st)
    (last_scored_message_id st) v (report st).

Definition set_report (v : option report_object) (st : chat_state)
  : chat_state :=
  Build_chat_state
    (dimensions st) (score_history st) (drift_state st)
    (active_correction st) (ceiling_dimensions st) (ceiling_model st)
    (cooldown_remaining st) (recovery_cycles st) (messages_scored st)
    (corrections_injected st) (ever_corrected_dimensions st)
    (ever_cusum_triggered st) (ever_ma_triggered st)
    (ma_consecutive_above st) (cusum_reset_after st)
    (last_scored_message_id st) (correction_prompt st) v.

(** ** Score history *)

(** [store_scores]: the history part and [last_scored_message_id] (the
    per-message copy of the scores takes no part in detection). *)
Definition store_scores (message_index ts hash : nat)
  (clean_scores : gmap string Q) (st : chat_state) : chat_state :=
  let pushed :=
    score_history st ++
    [{| message_id := message_index; timestamp := ts;
        scores := clean_scores; content_hash := hash |}] in
  let capped :=
    if (MAX_SCORE_HISTORY <? length pushed)%nat
    then slice_last MAX_SCORE_HISTORY pushed
    else pushed in
  set_last_scored_message_id (Some message_index)
    (set_score_history capped st).

(** ** Drift detector *)

(** [history.map(entry => entry.scores[id]).filter(s => s !== undefined)] *)
Definition dim_scores (id : string) (history : list score_entry) : list Q :=
  omap (fun entry => scores entry !! id) history.

Definition cusum_allowance (s : settings) : Q :=
  Qmax (drift_threshold s * 0.5) 0.125.

Definition base_decision_threshold (s : settings) : Q :=
  cusum_allowance s * Qnat (drift_window s) * 0.8.

Definition severe_allowance (s : settings) : Q :=
  Qmax (drift_alert_threshold s * 0.5) 0.125.

Definition base_severe_decision (s : settings) : Q :=
  severe_allowance s * Qnat (drift_window s) * 0.5.

(** [compute_post_correction_averages], for one dimension id: [None] is the
    [null] of a dimension without a score after the correction. *)
Definition post_correction_average (id : string)
  (history : list score_entry) (since : nat) : option Q :=
  let post_scores :=
    dim_scores id
      (List.filter (fun entry => (since <? message_id entry)%nat) history) in
  match post_scores with
  | [] => None
  | _ => Some (mean post_scores)
  end.

Section Detector.

(** [sqrt_log2 n] stands for [Math.sqrt(Math.log2(n))], which is irrational
    in general: the detector is parametrised by a rational stand-in for it.
    It is only consulted with two or more active dimensions. *)
Variable sqrt_log2 : nat -> Q.

Definition bonferroni_factor (num_dimensions : nat) : Q :=
  if (1 <? num_dimensions)%nat then sqrt_log2 (num_dimensions + 1) else 1.

Definition decision_threshold (s : settings) (num_dimensions : nat) : Q :=
  base_decision_threshold s * bonferroni_factor num_dimensions.

Definition severe_decision (s : settings) (num_dimensions : nat) : Q :=
  base_severe_decision s * bonferroni_factor num_dimensions.

Definition trend_of (recent_scores : list Q) (target : Q) : trend_kind :=
  let mid := Nat.div2 (S (length recent_scores)) in
  let first_half_dev := Qabs (mean (firstn mid recent_scores) - target) in
  let second_half_dev := Qabs (mean (skipn mid recent_scores) - target) in
  if Qltb (first_half_dev + 0.03) second_half_dev then T_drifting
  else if Qltb second_half_dev (first_half_dev - 0.03) then T_correcting
  else T_stable.

(** The body of the loop of [update_drift_state] for one dimension.  The
    branch of a non-finite moving average is absent: the estimate of the
    model is always a number. *)
Definition drift_of_dimension (s : settings) (num_dimensions : nat)
  (history : list score_entry) (reset_after : gmap string nat)
  (dim : dimension) : drift_entry :=
  let recent_scores :=
    dim_scores (dim_id dim) (slice_last (drift_window s) history) in
  let windowed := slice_last (drift_window s * 2) history in
  let cusum_history :=
    match reset_after !! dim_id dim with
    | Some reset_after_id =>
        List.filter (fun entry => (reset_after_id <? message_id entry)%nat)
          windowed
    | None => windowed
    end in
  let cusum_scores := dim_scores (dim_id dim) cusum_history in
  match recent_scores with
  | [] =>
      {| moving_avg := None; deviation := None; trend := T_no_data;
         correcting := false; severe := false; cusum_value := 0;
         drift_uncertainty := HW_const 1 |}
  | _ =>
      let kalman := kalman_filter recent_scores in
      let dev := Qabs (estimate kalman - dim_target dim) in
      if (length recent_scores <? MIN_SCORES_FOR_CORRECTION)%nat then
        {| moving_avg := Some (estimate kalman); deviation := Some dev;
           trend := T_insufficient_data; correcting := false;
           severe := false; cusum_value := 0;
           drift_uncertainty := uncertainty kalman |}
      else
        let cusum_result :=
          cusum cusum_scores (dim_target dim) (cusum_allowance s)
            (decision_threshold s num_dimensions) in
        let severe_result :=
          cusum cusum_scores (dim_target dim) (severe_allowance s)
            (severe_decision s num_dimensions) in
        {| moving_avg := Some (estimate kalman); deviation := Some dev;
           trend := trend_of recent_scores (dim_target dim);
           correcting := triggered cusum_result;
           severe := triggered severe_result;
           cusum_value := cusum_S cusum_result;
           drift_uncertainty := uncertainty kalman |}
  end.

Definition update_drift_state (s : settings) (dims : list dimension)
  (history : list score_entry) (reset_after : gmap string nat)
  : list (string * drift_entry) :=
  fold_left
    (fun drift dim =>
       obj_set (dim_id dim)
         (drift_of_dimension s (length dims) history reset_after dim) drift)
    dims [].

End Detector.

(** ** Correction controller *)

(** What one scoring cycle receives from the host and from the analysis
    backend. *)
Record cycle_input : Type := {
  message_index : nat;
  now : nat;
  message_hash : nat;
  current_model : string;
  (** the message exists, is a reply of the character, is neither the
      greeting nor out of character, and is due for scoring (or forced) *)
  scorable : bool;
  (** the result of [score_response], without [_reasoning] *)
  reply_scores : gmap string Q;
  (** what [generate_correction] does if it is called: the text it
      returns, or [None] when it throws (the analysis request fails) *)
  generated_text : option string
}.

(** How the correction branch of a cycle ends.  [generate_correction] is
    awaited in the middle of the branch; when it throws, the rest of the
    [try] block is skipped and the [catch] block saves the state as it is:
    the state object is shared, so whatever was written before the throw
    stays.  The other calls to the host are taken to return. *)
Inductive step_result : Type :=
  | Completed (st : chat_state)
  | Thrown (st : chat_state).

Definition state_of (r : step_result) : chat_state :=
  match r with
  | Completed st | Thrown st => st
  end.

(** [const text = await generate_correction(...)] followed by the
    statements [rest] that use the text. *)
Definition generate_then (inp : cycle_input) (rest : string -> chat_state)
  (st : chat_state) : step_result :=
  match generated_text inp with
  | Some text => Completed (rest text)
  | None => Thrown st
  end.

(** An element of the local array [drifting]. *)
Record drifting_item : Type := {
  dd_id : string;
  dd_entry : drift_entry;
  ma_triggered : bool
}.

(** [d.deviation || 0] *)
Definition deviation_or_0 (d : drift_entry) : Q := default 0 (deviation d).

Definition clear_ceiling_on_model_change (model : string) (st : chat_state)
  : chat_state :=
  match ceiling_dimensions st, ceiling_model st with
  | _ :: _, Some old_model =>
      if bool_decide (old_model = "") then st
      else if bool_decide (model ≠ old_model)
              && bool_decide (model ≠ "unknown")
      then set_ceiling_model None (set_ceiling_dimensions [] st)
      else st
  | _, _ => st
  end.

(** The CUSUM-triggered dimensions that are not ceilinged. *)
Definition cusum_drifting (drift : list (string * drift_entry))
  (ceiling : list string) : list drifting_item :=
  map (fun e => {| dd_id := fst e; dd_entry := snd e; ma_triggered := false |})
    (List.filter (fun e => correcting (snd e) && negb (includes ceiling (fst e)))
       drift).

(** The test that lets the moving-average counter of a dimension grow. *)
Definition ma_above (threshold : Q) (d : drift_entry) : bool :=
  match deviation d with
  | Some dev =>
      Qltb threshold dev
      && match trend d with
         | T_no_data | T_insufficient_data => false
         | _ => true
         end
  | None => false
  end.

Definition ma_fallback_step (threshold : Q) (ceiling cusum_ids : list string)
  (acc : gmap string nat * list drifting_item) (e : string * drift_entry)
  : gmap string nat * list drifting_item :=
  let dim_id := fst e in
  let d := snd e in
  if includes ceiling dim_id || includes cusum_ids dim_id
  then (<[dim_id := 0%nat]> (fst acc), snd acc)
  else
    let count :=
      if ma_above threshold d then S (default 0%nat (fst acc !! dim_id))
      else 0%nat in
    let ma := <[dim_id := count]> (fst acc) in
    if (MA_CONSECUTIVE_REQUIRED <=? count)%nat
    then (ma, snd acc ++
              [{| dd_id := dim_id; dd_entry := d; ma_triggered := true |}])
    else (ma, snd acc).

(** The counters [ma_consecutive_above] and the array [drifting] after the
    CUSUM filter and the fallback loop. *)
Definition detect_drifting (s : settings) (drift : list (string * drift_entry))
  (st : chat_state) : gmap string nat * list drifting_item :=
  let ceiling := ceiling_dimensions st in
  let by_cusum := cusum_drifting drift ceiling in
  fold_left
    (ma_fallback_step (drift_threshold s) ceiling (map dd_id by_cusum))
    drift (ma_consecutive_above st, by_cusum).

Definition track_ever_triggered (dr : list drifting_item) (st : chat_state)
  : chat_state :=
  match dr with
  | [] => st
  | _ =>
      let cusum_triggered_ids :=
        map dd_id (List.filter (fun d => negb (ma_triggered d)) dr) in
      let ma_triggered_ids := map dd_id (List.filter ma_triggered dr) in
      set_ever_ma_triggered (uniq (ever_ma_triggered st ++ ma_triggered_ids))
        (set_ever_cusum_triggered
           (uniq (ever_cusum_triggered st ++ cusum_triggered_ids)) st)
  end.

(** What follows the generation of a first correction for [targets]: the
    text is injected and a fresh record becomes the active correction. *)
Definition opened (targets : list drifting_item) (inp : cycle_input)
  (st : chat_state) (text : string) : chat_state :=
  let fresh := {|
    dim_ids := map dd_id targets;
    injection_text := text;
    since_message := message_index inp;
    attempt := 1;
    scores_since_correction := 0;
    deviation_at_correction :=
      max_of (map (fun d => deviation_or_0 (dd_entry d)) targets)
  |} in
  set_ever_corrected_dimensions
    (uniq (ever_corrected_dimensions st ++ map dd_id targets))
    (set_corrections_injected (S (corrections_injected st))
       (set_active_correction (Some fresh)
          (set_correction_prompt text st))).

(** A first correction for [targets]. *)
Definition open_correction (targets : list drifting_item) (inp : cycle_input)
  (st : chat_state) : step_result :=
  generate_then inp (opened targets inp st) st.

(** [post_avgs[dim_id] ?? drift[dim_id]?.moving_avg ?? null] *)
Definition effective_average (id : string) (history : list score_entry)
  (since : nat) (drift : list (string * drift_entry)) : option Q :=
  match post_correction_average id history since with
  | Some a => Some a
  | None =>
      match obj_get id drift with
      | Some d => moving_avg d
      | None => None
      end
  end.

(** The deviation of a corrected dimension from its target, [null] without
    an average or without the dimension. *)
Definition corrected_deviation (dims : list dimension) (id : string)
  (effective_avg : option Q) : option Q :=
  match effective_avg, List.find (fun d => bool_decide (dim_id d = id)) dims with
  | Some avg, Some dim => Some (Qabs (avg - dim_target dim))
  | _, _ => None
  end.

Definition post_deviation (st : chat_state)
  (drift : list (string * drift_entry)) (c : correction) (id : string)
  : option Q :=
  corrected_deviation (dimensions st) id
    (effective_average id (score_history st) (since_message c) drift).

(** The deviations of [corrected_still_drifting]. *)
Definition corrected_still_drifting (recovery_threshold : Q) (st : chat_state)
  (drift : list (string * drift_entry)) (c : correction)
  : list (string * option Q) :=
  List.filter
    (fun d => match snd d with
              | None => true
              | Some dev => Qltb recovery_threshold dev
              end)
    (map (fun id => (id, post_deviation st drift c id)) (dim_ids c)).

(** The CUSUM reset marker and the cleared fallback counter of each
    recovered dimension. *)
Definition mark_recovered (ids : list string) (st : chat_state) : chat_state :=
  fold_left
    (fun st id =>
       set_ma_consecutive_above (<[id := 0%nat]> (ma_consecutive_above st))
         (set_cusum_reset_after
            match last_scored_message_id st with
            | Some m => <[id := m]> (cusum_reset_after st)
            | None => delete id (cusum_reset_after st)
            end st))
    ids st.

Definition with_patience_reset (c : correction) (current_worst_dev : Q)
  : correction :=
  {| dim_ids := dim_ids c; injection_text := injection_text c;
     since_message := since_message c; attempt := attempt c;
     scores_since_correction := 0;
     deviation_at_correction := current_worst_dev |}.

(** Give the correction more time: the patience counter restarts. *)
Definition reset_patience (c : correction) (current_worst_dev : Q)
  (st : chat_state) : chat_state :=
  set_active_correction (Some (with_patience_reset c current_worst_dev)) st.

(** What follows the generation of an escalated correction: the new text
    replaces the old one for the same dimensions (attempt + 1). *)
Definition escalated (c : correction) (current_worst_dev : Q)
  (st : chat_state) (text : string) : chat_state :=
  set_corrections_injected (S (corrections_injected st))
    (set_active_correction
       (Some {| dim_ids := dim_ids c; injection_text := text;
                since_message := since_message c; attempt := S (attempt c);
                scores_since_correction := 0;
                deviation_at_correction := current_worst_dev |})
       (set_correction_prompt text st)).

(** Regenerate the correction for the same dimensions. *)
Definition escalate (c : correction) (current_worst_dev : Q)
  (inp : cycle_input) (st : chat_state) : step_result :=
  generate_then inp (escalated c current_worst_dev st) st.

Definition without (ids : list string) (dr : list drifting_item)
  : list drifting_item :=
  List.filter (fun d => negb (includes ids (dd_id d))) dr.

(** The ceiling branch: the corrected dimensions join
    [ceiling_dimensions]; the other drifting dimensions, if any, get a
    correction of their own at once.  When its generation throws, the
    dimensions are ceilinged already and the old correction is still the
    active one. *)
Definition reach_ceiling (c : correction) (dr : list drifting_item)
  (inp : cycle_input) (st : chat_state) : step_result :=
  let corrected_ids := dim_ids c in
  let st :=
    set_ceiling_model (Some (current_model inp))
      (set_ceiling_dimensions (uniq (ceiling_dimensions st ++ corrected_ids))
         st) in
  match without corrected_ids dr with
  | [] => Completed (set_active_correction None (set_correction_prompt "" st))
  | remaining => open_correction remaining inp st
  end.

(** [correction.scores_since_correction++] when one of the corrected
    dimensions was scored in this cycle. *)
Definition count_scored (inp : cycle_input) (c0 : correction) : correction :=
  if existsb (fun id => bool_decide (is_Some (reply_scores inp !! id)))
       (dim_ids c0)
  then {| dim_ids := dim_ids c0; injection_text := injection_text c0;
          since_message := since_message c0; attempt := attempt c0;
          scores_since_correction := S (scores_since_correction c0);
          deviation_at_correction := deviation_at_correction c0 |}
  else c0.

Definition current_worst_dev (still : list (string * option Q)) : Q :=
  max_of (map (fun d => default 0 (snd d)) still).

Definition worsened (c : correction) (worst : Q) : bool :=
  Qltb (deviation_at_correction c + 0.05) worst.

Definition improved (c : correction) (worst : Q) : bool :=
  Qltb worst (deviation_at_correction c - 0.02).

(** The trends of the corrected dimensions that have a drift state. *)
Definition corrected_trends (drift : list (string * drift_entry))
  (c : correction) : list trend_kind :=
  omap (fun id => trend <$> obj_get id drift) (dim_ids c).

Definition all_recovering (drift : list (string * drift_entry))
  (c : correction) : bool :=
  match corrected_trends drift c with
  | [] => false
  | trends =>
      forallb (fun t => match t with T_correcting => true | _ => false end)
        trends
  end.

Definition any_worsening (drift : list (string * drift_entry))
  (c : correction) : bool :=
  existsb (fun t => match t with T_drifting => true | _ => false end)
    (corrected_trends drift c).

Definition attempts_left (s : settings) (c : correction) : bool :=
  (attempt c <? correction_max_attempts s)%nat.

(** The corrected dimensions are within the recovery threshold: markers are
    set, the injection is cleared, and either the other drifting dimensions
    get a correction or the cooldown starts.  When the generation of that
    correction throws, the injection is cleared already and the old record
    is still the active correction. *)
Definition retire_correction (s : settings) (inp : cycle_input)
  (dr : list drifting_item) (c : correction) (st : chat_state) : step_result :=
  let st := set_correction_prompt "" (mark_recovered (dim_ids c) st) in
  match without (dim_ids c) dr with
  | [] =>
      Completed
        (set_cooldown_remaining (correction_cooldown s)
           (set_active_correction None st))
  | still_drifting => open_correction still_drifting inp st
  end.

(** The branch of an existing correction while some dimension drifts. *)
Definition evaluate_correction (s : settings) (inp : cycle_input)
  (drift : list (string * drift_entry)) (dr : list drifting_item)
  (c0 : correction) (st : chat_state) : step_result :=
  let c := count_scored inp c0 in
  let st := set_active_correction (Some c) st in
  if (scores_since_correction c <? correction_patience s)%nat then Completed st
  else
    let recovery_threshold := drift_threshold s - recovery_margin s in
    match corrected_still_drifting recovery_threshold st drift c with
    | [] => retire_correction s inp dr c st
    | still =>
        let worst := current_worst_dev still in
        if all_recovering drift c then Completed (reset_patience c worst st)
        else if worsened c worst && attempts_left s c
        then escalate c worst inp st
        else if improved c worst then Completed (reset_patience c worst st)
        else if negb (any_worsening drift c)
        then Completed (reset_patience c worst st)
        else if attempts_left s c then escalate c worst inp st
        else reach_ceiling c dr inp st
    end.

(** The tolerance test of the recovery branch. *)
Definition all_within_tolerance (s : settings) (st : chat_state)
  (drift : list (string * drift_entry)) (c : correction) : bool :=
  forallb
    (fun id =>
       match post_deviation st drift c id with
       | Some dev =>
           Qleb dev (drift_threshold s - recovery_margin s + FLOAT_EPSILON)
       | None => false
       end)
    (dim_ids c).

(** The branch of an active correction while no dimension drifts. *)
Definition confirm_recovery (s : settings)
  (drift : list (string * drift_entry)) (c : correction) (st : chat_state)
  : chat_state :=
  if all_within_tolerance s st drift c then
    let cycles := S (recovery_cycles st) in
    if (recovery_patience s <=? cycles)%nat then
      set_recovery_cycles 0
        (set_cooldown_remaining (correction_cooldown s)
           (set_active_correction None
              (set_correction_prompt ""
                 (mark_recovered (dim_ids c) (set_recovery_cycles cycles st)))))
    else set_recovery_cycles cycles st
  else set_recovery_cycles 0 st.

(** A ceilinged dimension whose deviation is back within the threshold. *)
Definition naturally_recovered (s : settings)
  (drift : list (string * drift_entry)) (id : string) : bool :=
  match obj_get id drift with
  | Some d =>
      match deviation d with
      | Some dev => Qleb dev (drift_threshold s + FLOAT_EPSILON)
      | None => false
      end
  | None => false
  end.

Definition release_recovered_ceiling (s : settings)
  (drift : list (string * drift_entry)) (st : chat_state) : chat_state :=
  set_ceiling_dimensions
    (List.filter (fun id => negb (naturally_recovered s drift id))
       (ceiling_dimensions st))
    st.

(** The end of the cycle after the correction branch: the release of the
    recovered ceiling dimensions, which a throw skips. *)
Definition finish_cycle (s : settings) (drift : list (string * drift_entry))
  (r : step_result) : chat_state :=
  match r with
  | Completed st => release_recovered_ceiling s drift st
  | Thrown st => st
  end.

(** What the controller does once the array [drifting] is known: the
    cooldown, the correction branches, and the release of the ceilinged
    dimensions that recovered. *)
Definition decide_correction (s : settings) (inp : cycle_input)
  (drift : list (string * drift_entry)) (dr : list drifting_item)
  (st : chat_state) : chat_state :=
  match dr with
  | _ :: _ =>
      if (0 <? cooldown_remaining st)%nat
      then set_cooldown_remaining (Nat.pred (cooldown_remaining st)) st
      else
        finish_cycle s drift
          match active_correction st with
          | None => open_correction dr inp st
          | Some c => evaluate_correction s inp drift dr c st
          end
  | [] =>
      release_recovered_ceiling s drift
        match active_correction st with
        | Some c => confirm_recovery s drift c st
        | None => st
        end
  end.

(** The part of [score_and_process_message] behind the test of
    [correction_enabled]. *)
Definition controller (s : settings) (inp : cycle_input)
  (drift : list (string * drift_entry)) (st0 : chat_state) : chat_state :=
  let detected := detect_drifting s drift st0 in
  decide_correction s inp drift (snd detected)
    (track_ever_triggered (snd detected)
       (set_ma_consecutive_above (fst detected) st0)).

Section Cycle.

Variable sqrt_log2 : nat -> Q.

(** The state after the scores are stored and the drift state recomputed. *)
Definition scored_state (s : settings) (inp : cycle_input) (st : chat_state)
  : chat_state :=
  let st :=
    store_scores (message_index inp) (now inp) (message_hash inp)
      (reply_scores inp) st in
  let st := set_messages_scored (S (messages_scored st)) st in
  set_drift_state
    (update_drift_state sqrt_log2 s (dimensions st) (score_history st)
       (cusum_reset_after st))
    st.

(** One call of [score_and_process_message] (the scoring request itself is
    the input [reply_scores]). *)
Definition score_and_process_message (s : settings) (inp : cycle_input)
  (st : chat_state) : chat_state :=
  match dimensions st with
  | [] => st
  | _ =>
      let st := clear_ceiling_on_model_change (current_model inp) st in
      if negb (scorable inp) then st
      else
        match map_to_list (reply_scores inp) with
        | [] => st
        | _ =>
            let st := scored_state s inp st in
            if negb (correction_enabled s) then st
            else controller s inp (drift_state st) st
        end
  end.

(** A run of consecutive cycles. *)
Definition run (s : settings) (inputs : list cycle_input) (st : chat_state)
  : chat_state :=
  fold_left (fun st inp => score_and_process_message s inp st) inputs st.

End Cycle.

(** ** Session report *)

Definition has_score (id : string) (entry : score_entry) : bool :=
  bool_decide (is_Some (scores entry !! id)).

(** [Object.values(drift_state).map(d => d.deviation ?? 0)] *)
Definition dev_values (drift : list (string * drift_entry)) : list Q :=
  map (fun e => default 0 (deviation (snd e))) drift.

Definition compute_card_resilience (s : settings)
  (history : list score_entry) (dims : list dimension)
  (corrections : nat) : Z :=
  match history with
  | [] => 0%Z
  | _ =>
      let threshold := drift_threshold s in
      let initial_deviations :=
        omap (fun dim =>
                match dim_scores (dim_id dim) (firstn 3 history) with
                | [] => None
                | early_scores =>
                    Some (mean (map (fun sc => Qabs (sc - dim_target dim))
                                  early_scores))
                end) dims in
      let initial :=
        match initial_deviations with
        | [] => 0.5
        | _ => Qmax 0 (1 - mean initial_deviations)
        end in
      let RESILIENCE_WINDOW := Nat.min (length history) 20 in
      let windowed_history := firstn RESILIENCE_WINDOW history in
      let scored_dims :=
        List.filter (fun d => existsb (has_score (dim_id d)) windowed_history)
          dims in
      let drift_resistance :=
        match scored_dims with
        | [] => [0.5]
        | _ =>
            map (fun d =>
                   match dim_scores (dim_id d) windowed_history with
                   | [] => 0.5
                   | observed =>
                       Qnat (length
                               (List.filter
                                  (fun sc => Qleb (Qabs (sc - dim_target d))
                                               threshold) observed))
                       / Qnat (length observed)
                   end) scored_dims
        end in
      let correction_penalty := if (0 <? corrections)%nat then 0.85 else 1 in
      let all_mean_devs :=
        map (fun d =>
               match dim_scores (dim_id d) windowed_history with
               | [] => 0
               | observed => Qabs (mean observed - dim_target d)
               end) scored_dims in
      let overall_mean_dev :=
        match all_mean_devs with
        | [] => 0
        | _ => mean all_mean_devs
        end in
      let deviation_factor := Qmax 0.5 (1 - overall_mean_dev * 1.5) in
      Math_round (initial * 40 + mean drift_resistance * deviation_factor * 50
                  + correction_penalty * 10)
  end.

Definition compute_session_quality (history : list score_entry)
  (dims : list dimension) (drift : list (string * drift_entry)) : Z :=
  match history with
  | [] => 0%Z
  | _ =>
      let all_deviations :=
        flat_map (fun entry =>
                    omap (fun dim =>
                            (fun sc => Qabs (sc - dim_target dim))
                              <$> scores entry !! dim_id dim) dims)
          history in
      let overall_accuracy :=
        match all_deviations with
        | [] => 0.5
        | _ => Qmax 0 (1 - mean all_deviations)
        end in
      let consistency :=
        match compute_variance all_deviations with
        | Some variance => Qmax 0 (1 - variance * 2)
        | None => 0.5
        end in
      let worst_dev :=
        match dev_values drift with
        | [] => 0
        | devs => max_of devs
        end in
      let floor_factor := Qmax 0.5 (1 - worst_dev) in
      let dims_with_data :=
        length (List.filter (fun d => existsb (has_score (dim_id d)) history)
                  dims) in
      let coverage :=
        match dims with
        | [] => 1
        | _ => Qnat dims_with_data / Qnat (length dims)
        end in
      let coverage_factor := Qmax 0.6 coverage in
      let raw := overall_accuracy * 40 + consistency * 30 + floor_factor * 30 in
      Math_round (raw * coverage_factor)
  end.

Definition compute_model_compatibility (s : settings) (dims : list dimension)
  (ceiling : list string) (corrections : nat) (history : list score_entry)
  (drift : list (string * drift_entry)) : Z :=
  match history with
  | [] => 0%Z
  | _ =>
      let threshold := drift_threshold s in
      let ceiling_ratio :=
        match dims with
        | [] => 1
        | _ => 1 - Qnat (length ceiling) / Qnat (length dims)
        end in
      let half_length := Qnat (length history) * 0.5 in
      let load0 :=
        Qmax 0 (1 - Qnat corrections
                    / (if Qeq_bool half_length 0 then 1 else half_length)) in
      let dims_above_threshold :=
        length (List.filter (fun d => Qltb threshold d) (dev_values drift)) in
      let correction_load :=
        if (corrections =? 0)%nat && (5 <=? length history)%nat
           && (0 <? dims_above_threshold)%nat && (0 <? length dims)%nat
        then Qmax 0 (load0 - Qnat dims_above_threshold / Qnat (length dims) * 0.5)
        else load0 in
      let end_health :=
        match dev_values drift with
        | [] => 0.5
        | devs => Qmax 0 (1 - mean devs)
        end in
      Math_round (ceiling_ratio * 35 + correction_load * 25 + end_health * 40)
  end.

Definition compute_dimension_verdict (s : settings) (dim : dimension)
  (st : chat_state) : verdict :=
  let threshold := drift_threshold s in
  if includes (ceiling_dimensions st) (dim_id dim) then V_ceiling
  else
    let actual_scores := dim_scores (dim_id dim) (score_history st) in
    if (length actual_scores <? MIN_SCORES_FOR_VERDICT)%nat
    then V_insufficient_data
    else
      let ever_drifted :=
        includes (ever_cusum_triggered st) (dim_id dim)
        || includes (ever_ma_triggered st) (dim_id dim) in
      if negb ever_drifted then
        if (5 <=? length actual_scores)%nat
           && Qltb threshold (Qabs (mean actual_scores - dim_target dim))
        then V_volatile
        else V_natural_fit
      else
        let was_corrected :=
          includes (ever_corrected_dimensions st) (dim_id dim) in
        let back_within :=
          match obj_get (dim_id dim) (drift_state st) with
          | Some d =>
              match deviation d with
              | Some dev => Qleb dev threshold
              | None => false
              end
          | None => false
          end in
        if back_within
        then (if was_corrected then V_correctable else V_maintainable)
        else (if was_corrected then V_drifting else V_volatile).

(** [generate_report]: [None] is the [null] returned, after a warning, when
    nothing was scored.  [insights_text] is the answer of the analysis
    backend (or the failure note that replaces it).  The fields read from
    the host context ([generated_at], [card_name], [model_id],
    [messages_total]) and the cross-session report index kept in the
    settings are left out. *)
Definition generate_report (s : settings) (insights_text : string)
  (st : chat_state) : chat_state * option report_object :=
  match score_history st with
  | [] => (st, None)
  | _ =>
      let r := {|
        rep_messages_scored := messages_scored st;
        card_resilience :=
          compute_card_resilience s (score_history st) (dimensions st)
            (corrections_injected st);
        session_quality :=
          compute_session_quality (score_history st) (dimensions st)
            (drift_state st);
        model_compatibility :=
          compute_model_compatibility s (dimensions st)
            (ceiling_dimensions st) (corrections_injected st)
            (score_history st) (drift_state st);
        dimension_verdicts :=
          map (fun dim => (dim_id dim, compute_dimension_verdict s dim st))
            (dimensions st);
        dimension_curves :=
          map (fun dim => (dim_id dim, dim_scores (dim_id dim) (score_history st)))
            (dimensions st);
        corrections_count := corrections_injected st;
        rep_ceiling_dimensions := ceiling_dimensions st;
        insights := insights_text
      |} in
      (set_report (Some r) st, Some r)
  end.

(** The variance after one more observation, as the loop of [kalman_filter]
    computes it: it does not depend on the observations. *)
Definition variance_step (R_obs Q_proc P : Q) : Q :=
  Qred ((1 - (P + Q_proc) / (P + Q_proc + R_obs)) * (P + Q_proc)).

(** ** Worked inputs *)

(** The entry [store_scores] appends. *)
Definition new_entry (message_index ts hash : nat) (sc : gmap string Q)
  : score_entry :=
  {| message_id := message_index; timestamp := ts; scores := sc;
     content_hash := hash |}.

(** An entry that scores the dimension [warmth] alone. *)
Definition warmth_entry (i : nat) (v : Q) : score_entry :=
  new_entry i 0 0 {["warmth" := v]}.

(** A history of [n] entries without scores, numbered from 0. *)
Definition history_of (n : nat) : list score_entry :=
  map (fun i => new_entry i 0 0 (∅ : gmap string Q)) (seq 0 n).

(** ** Observing one cycle *)

Section CycleView.

Variable sqrt_log2 : nat -> Q.

(** The cycle gets as far as the controller: dimensions are calibrated, the
    message is scorable, the reply holds a score and corrections are
    enabled. *)
Definition reaches_controller (s : settings) (inp : cycle_input)
  (st : chat_state) : bool :=
  match dimensions st, map_to_list (reply_scores inp) with
  | _ :: _, _ :: _ => scorable inp && correction_enabled s
  | _, _ => false
  end.

(** The state the controller starts from. *)
Definition controller_state (s : settings) (inp : cycle_input)
  (st : chat_state) : chat_state :=
  scored_state sqrt_log2 s inp
    (clear_ceiling_on_model_change (current_model inp) st).

(** The ids of the local array [drifting] of the cycle. *)
Definition cycle_drifting (s : settings) (inp : cycle_input)
  (st : chat_state) : list string :=
  let st1 := controller_state s inp st in
  map dd_id (snd (detect_drifting s (drift_state st1) st1)).

End CycleView.

(** ** A session with the single dimension [warmth] *)

(** With one active dimension the correction factor is the constant 1 and
    the stand-in for the square root is never consulted. *)
Definition unit_factor : nat -> Q := fun _ => 1.

Definition warmth_state (target : Q) : chat_state :=
  Build_chat_state [{| dim_id := "warmth"; dim_target := target |}]
    [] [] None [] None 0 0 0 0 [] [] [] ∅ ∅ None "" None.

(** The cycle of message [i] in which [warmth] is scored [v]. *)
Definition warmth_input (i : nat) (v : Q) : cycle_input :=
  {| message_index := i; now := 0; message_hash := 0;
     current_model := "model-a"; scorable := true;
     reply_scores := {["warmth" := v]}; generated_text := Some "note" |}.

(** Messages 1, 2, ... scored with the given values. *)
Definition warmth_inputs (values : list Q) : list cycle_input :=
  imap (fun i v => warmth_input (S i) v) values.

Definition warmth_run (target : Q) (values : list Q) : chat_state :=
  run unit_factor DEFAULT_SETTINGS (warmth_inputs values) (warmth_state target).

(** ** Confirming cycles *)

Section Confirming.

Variable sqrt_log2 : nat -> Q.

(** A confirming cycle: the controller runs, no dimension drifts, and every
    dimension of the active correction is within the recovery tolerance. *)
Definition confirming (s : settings) (inp : cycle_input) (st : chat_state)
  : bool :=
  let st1 := controller_state sqrt_log2 s inp st in
  reaches_controller s inp st
  && match cycle_drifting sqrt_log2 s inp st with
     | [] => true
     | _ => false
     end
  && match active_correction st with
     | Some c => all_within_tolerance s st1 (drift_state st1) c
     | None => false
     end.

(** Every cycle of the run is a confirming one. *)
Fixpoint confirming_run (s : settings) (inputs : list cycle_input)
  (st : chat_state) : bool :=
  match inputs with
  | [] => true
  | inp :: rest =>
      confirming s inp st
      && confirming_run s rest (score_and_process_message sqrt_log2 s inp st)
  end.

End Confirming.

(** The fields of the state that decide whether and what is corrected. *)
Definition control_fields (st : chat_state) :=
  (active_correction st, ceiling_dimensions st, ceiling_model st,
   cooldown_remaining st, recovery_cycles st, corrections_injected st,
   correction_prompt st, last_scored_message_id st, dimensions st,
   score_history st, drift_state st).

(** The active correction of a state that has one. *)
Definition warmth_correction (st : chat_state) : correction :=
  default (Build_correction [] "" 0 0 0 0) (active_correction st).

(** ** Counting runs of the fallback loop *)

(** One run of the fallback loop counts for the dimension [id]: it has the
    drift state [d], is not ceilinged, CUSUM has not fired for it, and its
    deviation is above the threshold with enough scores for a trend. *)
Definition fallback_counts (s : settings) (id : string)
  (drift : list (string * drift_entry)) (st : chat_state) (d : drift_entry)
  : Prop :=
  NoDup (map fst drift) /\ (id, d) ∈ drift
  /\ (id ∉ ceiling_dimensions st) /\ correcting d = false
  /\ ma_above (drift_threshold s) d = true.

(** The drift state of [warmth], for the worked session. *)
Definition warmth_drift (st : chat_state) : drift_entry :=
  default (Build_drift_entry None None T_no_data false false 0 (HW_const 1))
    (obj_get "warmth" (drift_state st)).

(** ** The ceiling *)


(** The test that clears the ceiling at the start of a cycle. *)
Definition model_changed (inp : cycle_input) (st : chat_state) : Prop :=
  exists old_model,
    ceiling_model st = Some old_model /\ old_model <> ""
    /\ current_model inp <> old_model /\ current_model inp <> "unknown".




(** ** A session with the dimensions [warmth] and [trust] *)




(** ** The two numeric recursions in binary64

    The model above computes in exact rationals.  The accumulator of [cusum]
    and the variance recursion of [kalman_filter] are replayed here on
    binary64 numbers, operation by operation as the source writes them, to
    compare the rounded results with the exact ones. *)

Module Binary64.

Import PrimFloat.
Local Open Scope float_scope.
#[local] Set Warnings "-inexact-float".

(** [Math.max(a, b)] *)
Definition Math_max (a b : float) : float :=
  if is_nan a then a else if is_nan b then b else if a <? b then b else a.

(** [S = Math.max(0, S + (Math.abs(x - target) - allowance))] *)
Definition cusum_acc (target allowance S x : float) : float :=
  Math_max 0 (S + (abs (x - target) - allowance)).

Definition cusum (scores : list float)
  (target allowance decision_threshold : float) : float * bool :=
  match scores with
  | [] => (0, false)
  | _ =>
      let S := fold_left (cusum_acc target allowance) scores 0 in
      (S, decision_threshold - 0.000001 <=? S)
  end.

(** [Math.max(threshold * 0.5, 0.125)] *)
Definition allowance (threshold : float) : float :=
  Math_max (threshold * 0.5) 0.125.

(** [allowance * drift_window * 0.8], times the factor 1 of a single
    dimension. *)
Definition decision_threshold (threshold drift_window : float) : float :=
  allowance threshold * drift_window * 0.8 * 1.

(** The variance after one more observation of [kalman_filter], with the
    default [R = 0.04] and [Q = 0.005]. *)
Definition variance_step (P : float) : float :=
  let P_pred := P + 0.005 in
  let K := P_pred / (P_pred + 0.04) in
  (1 - K) * P_pred.

(** The uncertainty [kalman_filter] returns for a stream of [n + 1]
    observations: [Math.sqrt(P) * 1.96]. *)
Definition uncertainty_after (n : nat) : float :=
  sqrt (Nat.iter n variance_step 0.04) * 1.96.

(** Equality up to the rounding of a few operations. *)
Definition near (x y : float) : bool := abs (x - y) <? 0x1p-50.

End Binary64.

(** * Further parts of the extension *)

(** ** Scores on the rubric scale *)

(** A number that is one of the five levels of the scale, as every stored
    score is.  Sums of such numbers are multiples of 0.25, which binary64
    represents without rounding (for any array a JavaScript engine can
    hold), so that the source adds them exactly. *)
Definition rubric_level (x : Q) : Prop := Exists (Qeq x) DISCRETE_SCALE.

(** ** What one entry of the drift state says *)

(** The scores of a dimension in the Kalman window. *)
Definition recent_scores_of (s : settings) (history : list score_entry)
  (dim : dimension) : list Q :=
  dim_scores (dim_id dim) (slice_last (drift_window s) history).

(** ** The controller over whole sessions *)

(** The attempt counter of a correction is within its bounds and the
    correction names at least one dimension. *)
Definition bounded_correction (s : settings) (c : correction) : Prop :=
  (1 <= attempt c <= Nat.max 1 (correction_max_attempts s))%nat
  /\ dim_ids c <> [].

(** The attempt counter of the active correction is within its bounds and
    the correction names at least one dimension. *)
Definition correction_bounded (s : settings) (st : chat_state) : Prop :=
  forall c, active_correction st = Some c -> bounded_correction s c.

(** The cycle stores scores: dimensions are calibrated, the message is
    scorable and the reply holds a score. *)
Definition cycle_scores (inp : cycle_input) (st : chat_state) : bool :=
  match dimensions st, map_to_list (reply_scores inp) with
  | _ :: _, _ :: _ => scorable inp
  | _, _ => false
  end.

(** The ways in which the evaluation of an active correction (the
    branch of [score_and_process_message] for a correction that is
    evaluated) can end: nothing yet, the correction retired, the patience
    window started again, an escalation while attempts are left, the
    ceiling once they are used up. *)
Inductive evaluation_outcome (s : settings) (inp : cycle_input)
  (dr : list drifting_item) (c : correction) (st1 : chat_state)
  : step_result -> Prop :=
  | Eval_wait : evaluation_outcome s inp dr c st1 (Completed st1)
  | Eval_retire :
      evaluation_outcome s inp dr c st1 (retire_correction s inp dr c st1)
  | Eval_reset (w : Q) :
      evaluation_outcome s inp dr c st1 (Completed (reset_patience c w st1))
  | Eval_escalate (w : Q) :
      attempts_left s c = true ->
      evaluation_outcome s inp dr c st1 (escalate c w inp st1)
  | Eval_ceiling :
      attempts_left s c = false ->
      evaluation_outcome s inp dr c st1 (reach_ceiling c dr inp st1).

(** The states in which the correction logic of one cycle can leave the
    session, by the guards of its branches: a cooldown step, a first
    correction, an evaluation, a recovery check, or nothing; the release
    of recovered ceiling dimensions closes every branch but the first,
    unless the generation of a correction throws. *)
Inductive decision_outcome (s : settings) (inp : cycle_input)
  (drift : list (string * drift_entry)) (dr : list drifting_item)
  (st : chat_state) : chat_state -> Prop :=
  | Dec_cooldown :
      dr <> [] -> (0 < cooldown_remaining st)%nat ->
      decision_outcome s inp drift dr st
        (set_cooldown_remaining (Nat.pred (cooldown_remaining st)) st)
  | Dec_open :
      dr <> [] -> cooldown_remaining st = 0%nat ->
      active_correction st = None ->
      decision_outcome s inp drift dr st
        (finish_cycle s drift (open_correction dr inp st))
  | Dec_evaluate (c : correction) :
      dr <> [] -> cooldown_remaining st = 0%nat ->
      active_correction st = Some c ->
      decision_outcome s inp drift dr st
        (finish_cycle s drift (evaluate_correction s inp drift dr c st))
  | Dec_confirm (c : correction) :
      dr = [] -> active_correction st = Some c ->
      decision_outcome s inp drift dr st
        (release_recovered_ceiling s drift (confirm_recovery s drift c st))
  | Dec_idle :
      dr = [] -> active_correction st = None ->
      decision_outcome s inp drift dr st
        (release_recovered_ceiling s drift st).

(** The default settings with auto-correction switched off. *)
Definition scoring_only : settings := {|
  drift_window := 8;
  drift_threshold := 0.20;
  drift_alert_threshold := 0.35;
  correction_enabled := false;
  correction_max_dimensions := 3;
  correction_patience := 2;
  correction_max_attempts := 2;
  correction_cooldown := 2;
  recovery_margin := 0.05;
  recovery_patience := 2
|}.

(** ** What a cycle stores *)

(** The fields the controller never writes. *)
Definition scoring_fields (st : chat_state) :=
  (dimensions st, score_history st, drift_state st, messages_scored st,
   last_scored_message_id st, report st).

(** ** The ids the controller handles *)

(** The ceiling list holds no id twice, and it and the active correction
    name calibrated dimensions only. *)
Definition ids_well_formed (st : chat_state) : Prop :=
  NoDup (ceiling_dimensions st)
  /\ (forall id, id ∈ ceiling_dimensions st ->
        id ∈ map dim_id (dimensions st))
  /\ (forall c id, active_correction st = Some c -> id ∈ dim_ids c ->
        id ∈ map dim_id (dimensions st)).

(** ** The report of a session *)

(** The state a report can be generated from: the ids are well formed and
    no deviation of the drift state is negative. *)
Definition report_ready (st : chat_state) : Prop :=
  ids_well_formed st
  /\ Forall (fun d => 0 <= d) (dev_values (drift_state st)).

(** ** Chunks *)

(** The loop of [chunk_array(arr, size)],
    [for (let i = 0; i < arr.length; i += size) chunks.push(arr.slice(i, i + size))],
    with the part of the array from [i] on as its state.  For [size = 0] the
    index never advances and the source never leaves the loop on a
    non-empty array: the fuel runs out ([None]) however large it is. *)
Fixpoint chunk_array_from {A : Type} (fuel : nat) (rest : list A)
  (size : nat) : option (list (list A)) :=
  match rest with
  | [] => Some []
  | _ =>
      match fuel with
      | O => None
      | S fuel' =>
          match chunk_array_from fuel' (drop size rest) size with
          | Some chunks => Some (take size rest :: chunks)
          | None => None
          end
      end
  end.

(** [chunk_array(arr, size)]: one pass per element is enough fuel for every
    [size >= 1]. *)
Definition chunk_array {A : Type} (arr : list A) (size : nat)
  : option (list (list A)) :=
  chunk_array_from (length arr) arr size.

(** The constant [CHUNK_SIZE] of [score_response]. *)
Definition CHUNK_SIZE : nat := 4.

(** ** The text sent for scoring *)

Section ScoringText.

(** A JavaScript string is a sequence of UTF-16 code units; [unit_of] gives
    the code unit of an ASCII character. *)
Context {code_unit : Type}.

Variable unit_of : Ascii.ascii -> code_unit.

Definition js_string (text : string) : list code_unit :=
  map unit_of (String.list_ascii_of_string text).

Definition NEWLINE : code_unit := unit_of (Ascii.ascii_of_nat 10).

(** [text.substring(0, head) + marker + text.substring(text.length - tail)]
    when [text.length > max_length], the text itself otherwise. *)
Definition keep_ends (max_length head tail : nat) (marker : list code_unit)
  (text : list code_unit) : list code_unit :=
  if (max_length <? length text)%nat
  then take head text ++ marker ++ drop (length text - tail) text
  else text.

(** [scoring_text] of [score_response]: the reply as it is sent for
    scoring ([MAX_RESPONSE_LENGTH = 1500], [HEAD = 800], [TAIL = 700]). *)
Definition scoring_text (response_text : list code_unit) : list code_unit :=
  keep_ends 1500 800 700
    (NEWLINE :: js_string "[...truncated...]" ++ [NEWLINE]) response_text.

(** [truncated] of [score_response]: one earlier message as it is quoted
    in the scoring prompt. *)
Definition truncated (message_text : list code_unit) : list code_unit :=
  keep_ends 500 300 200 (NEWLINE :: js_string "[...]" ++ [NEWLINE])
    message_text.

End ScoringText.

(** ** Calibration *)

(** The ids of [DIMENSION_CATALOG], in its order, each with its
    [ai_default] (labels, descriptions and rubrics are texts for the
    prompts and are left out). *)
Definition DIMENSION_CATALOG : list (string * Q) :=
  [("warmth", 0.70); ("stability", 0.65); ("expressiveness", 0.75);
   ("assertiveness", 0.40); ("sociability", 0.80); ("trust", 0.70);
   ("morality", 0.85); ("verbosity", 0.80); ("cooperativeness", 0.75);
   ("humor", 0.50); ("romanticism", 0.60)].

(** [DIMENSION_CATALOG.map(d => d.id)] *)
Definition DIMENSION_IDS : list string := map fst DIMENSION_CATALOG.

(** The value of [cal.target] in a calibration entry. *)
Inductive raw_target : Type :=
  | Target_missing              (** [null] or [undefined] *)
  | Target_number (t : Q)       (** a finite number *)
  | Target_other.               (** anything else: a string, NaN, ... *)

(** The value of [raw_calibration[dim.id]]; an absent key is [undefined].
    A context that is a string is given by its code units. *)
Inductive calibration_entry (code_unit : Type) : Type :=
  | Cal_null
  | Cal_not_object
  | Cal_object (target : raw_target) (context : option (list code_unit)).

Arguments Cal_null {code_unit}.

Arguments Cal_not_object {code_unit}.

Arguments Cal_object {code_unit} target context.

(** One pass of the loop of [resolve_dimensions]: the active dimension a
    catalog entry gives, with its context, if it gives one. *)
Definition resolve_dimension {code_unit : Type}
  (raw_calibration : gmap string (calibration_entry code_unit))
  (id : string) : option (dimension * list code_unit) :=
  match raw_calibration !! id with
  | None | Some Cal_null | Some Cal_not_object => None
  | Some (Cal_object Target_missing _) => None
  | Some (Cal_object raw context) =>
      let target :=
        match raw with
        | Target_number t => clamp01 t
        | _ => 0.5
        end in
      Some ({| dim_id := id; dim_target := target |},
            match context with
            | Some text => take 500 text
            | None => []
            end)
  end.

Definition resolve_dimensions {code_unit : Type}
  (raw_calibration : gmap string (calibration_entry code_unit))
  : list (dimension * list code_unit) :=
  omap (resolve_dimension raw_calibration) DIMENSION_IDS.

(** ** Which message is due for scoring *)

(** A message of the chat: the two flags the scoring gate reads. *)
Record chat_message : Type := {
  is_user : bool;
  is_system : bool
}.

(** [!chat[i].is_user && !chat[i].is_system] *)
Definition is_ai_message (m : chat_message) : bool :=
  negb (is_user m) && negb (is_system m).

(** The loop of [count_ai_messages_since_last_score], from the index
    [i - 1] downwards: it stops at the first index at or before the last
    scored message. *)
Fixpoint count_ai_from (chat : list chat_message)
  (last_scored_id : option nat) (i : nat) : nat :=
  match i with
  | O => 0
  | S i' =>
      if match last_scored_id with
         | Some last => (i' <=? last)%nat
         | None => false
         end
      then 0
      else
        (match chat !! i' with
         | Some m => if is_ai_message m then 1 else 0
         | None => 0
         end
         + count_ai_from chat last_scored_id i')%nat
  end.

Definition count_ai_messages_since_last_score (chat : list chat_message)
  (last_scored_id : option nat) : nat :=
  count_ai_from chat last_scored_id (length chat).

(** [should_score_message], with the settings [score_frequency] and
    [score_on_first]. *)
Definition should_score_message (score_frequency : nat)
  (score_on_first : bool) (chat : list chat_message) (st : chat_state)
  : bool :=
  if (messages_scored st =? 0)%nat && score_on_first then true
  else
    (score_frequency
     <=? count_ai_messages_since_last_score chat
           (last_scored_message_id st))%nat.

(** The messages after the last scored one (all of them when none was
    scored). *)
Definition messages_since (chat : list chat_message)
  (last_scored_id : option nat) : list chat_message :=
  match last_scored_id with
  | Some last => drop (S last) chat
  | None => chat
  end.

(** ** A swiped message *)

(** The handler of [MESSAGE_SWIPED] for the message [swiped_id]: the
    state, and whether the message is flagged for a new scoring
    ([PENDING_SWIPE_RESCORES]).  [CURRENT_DIMENSIONS] is the module's copy
    of [state.dimensions]. *)
Definition on_message_swiped (sqrt_log2 : nat -> Q) (s : settings)
  (swiped_id : nat) (st : chat_state) : chat_state * bool :=
  match score_history st with
  | [] => (st, false)
  | _ =>
      let kept :=
        List.filter (fun e => negb (message_id e =? swiped_id)%nat)
          (score_history st) in
      let was_scored := (length kept <? length (score_history st))%nat in
      let st := set_score_history kept st in
      if was_scored then
        (match dimensions st with
         | [] => st
         | _ =>
             set_drift_state
               (update_drift_state sqrt_log2 s (dimensions st)
                  (score_history st) (cusum_reset_after st)) st
         end, true)
      else (st, false)
  end.

(** ** Shuffling *)

(** [[a[i], a[j]] = [a[j], a[i]]] for two indices of the array. *)
Definition swap {A : Type} (i j : nat) (a : list A) : list A :=
  match a !! i, a !! j with
  | Some x, Some y => <[j := x]> (<[i := y]> a)
  | _, _ => a
  end.

(** The loop of [shuffle_array], from the index [i] down to 1; [draw i] is
    the index [Math.floor(Math.random() * (i + 1))] drawn for [i]. *)
Fixpoint shuffle_from {A : Type} (draw : nat -> nat) (i : nat) (a : list A)
  : list A :=
  match i with
  | O => a
  | S i' => shuffle_from draw i' (swap i (draw i) a)
  end.

(** [shuffle_array(arr)]: a shuffled copy. *)
Definition shuffle_array {A : Type} (draw : nat -> nat) (arr : list A)
  : list A :=
  shuffle_from draw (length arr - 1) arr.

(** ** The intensity of a correction *)

(** An element of [drifting_dims] as [generate_correction] reads it: its
    deviation ([None] is [null]) and its trend ([None] when the element has
    none, as an escalation target built from a post-correction average). *)
Record correction_target : Type := {
  ct_deviation : option Q;
  ct_trend : option trend_kind
}.

Inductive intensity : Type := SUBTLE | MODERATE | STRONG.

(** The number a deviation counts as in [b.deviation - a.deviation] and in
    [d.deviation || 0]: [null] counts as 0. *)
Definition deviation_number (d : correction_target) : Q :=
  default 0 (ct_deviation d).

(** [[...drifting_dims].sort((a, b) => b.deviation - a.deviation)]: by
    falling deviation, equal deviations in their original order. *)
Fixpoint insert_by_deviation (x : correction_target)
  (sorted : list correction_target) : list correction_target :=
  match sorted with
  | [] => [x]
  | y :: rest =>
      if Qltb (deviation_number x) (deviation_number y)
      then y :: insert_by_deviation x rest
      else x :: y :: rest
  end.

Definition sort_by_deviation (l : list correction_target)
  : list correction_target :=
  fold_right insert_by_deviation [] l.

Definition is_correcting (d : correction_target) : bool :=
  match ct_trend d with
  | Some T_correcting => true
  | _ => false
  end.

(** The intensity [generate_correction] asks for; [escalation] tells
    whether an [escalation_context] was passed. *)
Definition correction_intensity (s : settings)
  (drifting_dims : list correction_target) (escalation : bool) : intensity :=
  let max := correction_max_dimensions s in
  let threshold := drift_threshold s in
  let worst := take max (sort_by_deviation drifting_dims) in
  let worst_deviation :=
    match worst with
    | [] => 0
    | _ => max_of (map deviation_number worst)
    end in
  let deviation_ratio :=
    if Qltb 0 threshold then worst_deviation / threshold else 1 in
  let by_ratio :=
    if Qltb deviation_ratio 1.3 then SUBTLE
    else if Qltb deviation_ratio 1.8 then MODERATE
    else STRONG in
  let raised :=
    match escalation, by_ratio with
    | true, SUBTLE => MODERATE
    | _, i => i
    end in
  let correcting_count := length (List.filter is_correcting worst) in
  if Qltb (Qnat (length worst) / 2) (Qnat correcting_count) && negb escalation
  then match raised with
       | STRONG => MODERATE
       | MODERATE => SUBTLE
       | SUBTLE => SUBTLE
       end
  else raised.

(** ** Finding JSON in a reply *)

(** A code unit of the reply as the brace matcher of [extract_json] tells
    it apart: the six characters it tests for, and any other code unit. *)
Inductive json_char (code_unit : Type) : Type :=
  | Open_brace | Close_brace | Open_bracket | Close_bracket
  | Backslash | Quote
  | Other (u : code_unit).

Arguments Open_brace {code_unit}.

Arguments Close_brace {code_unit}.

Arguments Open_bracket {code_unit}.

Arguments Close_bracket {code_unit}.

Arguments Backslash {code_unit}.

Arguments Quote {code_unit}.

Arguments Other {code_unit} u.

(** The two passes of the matcher: [{ }] first, [[ ]] second. *)
Inductive bracket_pass : Type := Braces | Brackets.

Section ExtractJson.

Context {code_unit : Type}.

#[local] Abbreviation text := (list (json_char code_unit)).

Definition is_opener (pass : bracket_pass) (ch : json_char code_unit)
  : bool :=
  match pass, ch with
  | Braces, Open_brace | Brackets, Open_bracket => true
  | _, _ => false
  end.

Definition is_closer (pass : bracket_pass) (ch : json_char code_unit)
  : bool :=
  match pass, ch with
  | Braces, Close_brace | Brackets, Close_bracket => true
  | _, _ => false
  end.

(** The inner loop of [extract_json] from some index on: the code units up
    to and including the closer that brings [depth] back to 0, or [None]
    when the text ends first. *)
Fixpoint scan_balanced (pass : bracket_pass) (rest : text) (depth : Z)
  (in_string escape_next : bool) : option text :=
  match rest with
  | [] => None
  | ch :: rest' =>
      if escape_next
      then cons ch <$> scan_balanced pass rest' depth in_string false
      else
        match ch with
        | Backslash =>
            cons ch <$> scan_balanced pass rest' depth in_string true
        | Quote =>
            cons ch <$> scan_balanced pass rest' depth (negb in_string) false
        | _ =>
            if in_string
            then cons ch <$> scan_balanced pass rest' depth in_string false
            else if is_opener pass ch
            then cons ch <$> scan_balanced pass rest' (depth + 1) false false
            else if is_closer pass ch
            then
              if (depth - 1 =? 0)%Z then Some [ch]
              else cons ch <$> scan_balanced pass rest' (depth - 1) false false
            else cons ch <$> scan_balanced pass rest' depth false false
        end
  end.

(** [text.indexOf(opener)], as the text from the first opener on. *)
Fixpoint from_first_opener (pass : bracket_pass) (t : text) : option text :=
  match t with
  | [] => None
  | ch :: t' => if is_opener pass ch then Some t else from_first_opener pass t'
  end.

(** The candidate of one pass: [text.substring(start, i + 1)]. *)
Definition candidate (pass : bracket_pass) (t : text) : option text :=
  match from_first_opener pass t with
  | Some rest => scan_balanced pass rest 0 false false
  | None => None
  end.

(** [extract_json] on a string, already trimmed.  [parse] is [JSON.parse]
    ([None] when it throws) and [code_block] gives the trimmed content of
    the first fenced block the regular expression finds. *)
Definition extract_json {J : Type} (parse : text -> option J)
  (code_block : text -> option text) (t : text) : option J :=
  match parse t with
  | Some v => Some v
  | None =>
      match code_block t ≫= parse with
      | Some v => Some v
      | None =>
          match candidate Braces t ≫= parse with
          | Some v => Some v
          | None => candidate Brackets t ≫= parse
          end
      end
  end.

(** *** What a balanced block is *)

(** A code unit that is neither a quote nor a backslash. *)
Definition plain (ch : json_char code_unit) : bool :=
  match ch with
  | Backslash | Quote => false
  | _ => true
  end.

(** The inside of a string literal: plain code units and escaped pairs. *)
Inductive string_body : text -> Prop :=
  | Body_nil : string_body []
  | Body_plain ch t : plain ch = true -> string_body t -> string_body (ch :: t)
  | Body_escape ch t : string_body t -> string_body (Backslash :: ch :: t).

(** Text between an opener and its closer: code units that are neither
    bracket of the pass nor quote nor backslash, escaped pairs, string
    literals, and nested blocks. *)
Inductive block_body (pass : bracket_pass) : text -> Prop :=
  | Inner_nil : block_body pass []
  | Inner_plain ch t :
      plain ch = true -> is_opener pass ch = false ->
      is_closer pass ch = false ->
      block_body pass t -> block_body pass (ch :: t)
  | Inner_escape ch t :
      block_body pass t -> block_body pass (Backslash :: ch :: t)
  | Inner_string s t :
      string_body s -> block_body pass t ->
      block_body pass (Quote :: s ++ Quote :: t)
  | Inner_block o b c t :
      is_opener pass o = true -> block_body pass b ->
      is_closer pass c = true -> block_body pass t ->
      block_body pass (o :: b ++ c :: t).

(** A balanced block: an opener, a body, the matching closer. *)
Inductive balanced_block (pass : bracket_pass) : text -> Prop :=
  | Block o b c :
      is_opener pass o = true -> block_body pass b ->
      is_closer pass c = true ->
      balanced_block pass (o :: b ++ [c]).

End ExtractJson.

(** * Properties *)

(** ** Comparisons *)

Lemma Qleb_true (x y : Q) : Qleb x y = true <-> x <= y.
Proof. apply Qle_bool_iff. Qed.

Lemma Qleb_false (x y : Q) : Qleb x y = false <-> y < x.
Proof.
  unfold Qleb. split; intros H.
  - apply Qnot_le_lt. intros Hle. apply Qle_bool_iff in Hle. congruence.
  - destruct (Qle_bool x y) eqn:E; [|reflexivity].
    apply Qle_bool_iff in E. apply Qlt_not_le in H. contradiction.
Qed.

Lemma Qltb_true (x y : Q) : Qltb x y = true <-> x < y.
Proof.
  unfold Qltb. rewrite negb_true_iff. apply (Qleb_false y x).
Qed.

Lemma Qltb_false (x y : Q) : Qltb x y = false <-> y <= x.
Proof.
  unfold Qltb. rewrite negb_false_iff. apply (Qleb_true y x).
Qed.

Lemma Qabs_cases (e : Q) :
  (0 <= e /\ Qabs e == e) \/ (e < 0 /\ Qabs e == - e).
Proof.
  destruct (Qlt_le_dec e 0) as [Hneg|Hpos].
  - right. split; [exact Hneg|]. apply Qabs_neg. apply Qlt_le_weak, Hneg.
  - left. split; [exact Hpos|]. apply Qabs_pos, Hpos.
Qed.

(** Replace every absolute value of the goal and of the hypotheses by a
    fresh number together with its defining case split. *)
Ltac qabs_elim :=
  repeat match goal with
  | |- context [Qabs ?e] =>
      let a := fresh "a" in let H := fresh "Ha" in
      pose proof (Qabs_cases e) as H;
      set (a := Qabs e) in *; clearbody a
  | _ : context [Qabs ?e] |- _ =>
      let a := fresh "a" in let H := fresh "Ha" in
      pose proof (Qabs_cases e) as H;
      set (a := Qabs e) in *; clearbody a
  end.

Ltac qabs_lra :=
  qabs_elim;
  repeat match goal with
  | H : (_ /\ _) \/ (_ /\ _) |- _ => destruct H as [[? ?]|[? ?]]
  end;
  lra.

(** ** The Kalman filter on a constant stream *)

Lemma variance_step_closed (R_obs Q_proc P : Q) :
  0 < R_obs -> 0 <= Q_proc -> 0 <= P ->
  variance_step R_obs Q_proc P == (P + Q_proc) * R_obs / (P + Q_proc + R_obs).
Proof.
  intros HR HQ HP. unfold variance_step. rewrite Qred_correct. field. lra.
Qed.

Lemma variance_step_nonneg (R_obs Q_proc P : Q) :
  0 < R_obs -> 0 <= Q_proc -> 0 <= P -> 0 <= variance_step R_obs Q_proc P.
Proof.
  intros HR HQ HP. rewrite variance_step_closed by assumption.
  apply Qle_shift_div_l; [lra|]. nra.
Qed.

Lemma variance_step_mono (R_obs Q_proc P P' : Q) :
  0 < R_obs -> 0 <= Q_proc -> 0 <= P -> P <= P' ->
  variance_step R_obs Q_proc P <= variance_step R_obs Q_proc P'.
Proof.
  intros HR HQ HP HPP.
  rewrite !variance_step_closed by lra.
  apply Qle_shift_div_l; [lra|].
  set (a := P + Q_proc). set (b := P' + Q_proc).
  assert (Ha : 0 <= a) by (unfold a; lra).
  assert (Hab : a <= b) by (unfold a, b; lra).
  assert (E : a * R_obs / (a + R_obs) * (b + R_obs)
              == a * R_obs * (b + R_obs) / (a + R_obs)) by (field; lra).
  rewrite E. apply Qle_shift_div_r; [lra|]. nra.
Qed.

Lemma variance_step_below (R_obs Q_proc : Q) :
  0 < R_obs -> 0 <= Q_proc -> variance_step R_obs Q_proc R_obs <= R_obs.
Proof.
  intros HR HQ. rewrite variance_step_closed by lra.
  apply Qle_shift_div_r; [lra|]. nra.
Qed.

Lemma Qeq_bool_false_pos (q : Q) : 0 < q -> Qeq_bool q 0 = false.
Proof.
  intros H. destruct (Qeq_bool q 0) eqn:E; [|reflexivity].
  apply Qeq_bool_iff in E. lra.
Qed.

Lemma iter_variance_nonneg (R_obs Q_proc P : Q) (n : nat) :
  0 < R_obs -> 0 <= Q_proc -> 0 <= P ->
  0 <= Nat.iter n (variance_step R_obs Q_proc) P.
Proof.
  intros HR HQ HP. induction n as [|n IH]; simpl; [exact HP|].
  apply variance_step_nonneg; assumption.
Qed.

Lemma kalman_loop_constant (R_obs Q_proc v : Q) :
  0 < R_obs -> 0 <= Q_proc ->
  forall (rest : list Q) (x P : Q),
    0 <= P -> x == v -> Forall (fun z => z == v) rest ->
    exists x',
      kalman_loop R_obs Q_proc x P rest
      = Some (x', Nat.iter (length rest) (variance_step R_obs Q_proc) P)
      /\ x' == v.
Proof.
  intros HR HQ rest.
  induction rest as [|z rest IH]; intros x P HP Hx Hall.
  - exists x. split; [reflexivity|exact Hx].
  - inversion Hall as [|? ? Hz Hrest]; subst.
    cbn [kalman_loop]. unfold kalman_step.
    rewrite Qeq_bool_false_pos by lra.
    destruct (IH (Qred (x + (P + Q_proc) / (P + Q_proc + R_obs) * (z - x)))
                 (variance_step R_obs Q_proc P)) as (x' & Hloop & Hx').
    + apply variance_step_nonneg; assumption.
    + rewrite Qred_correct.
      assert (E : z - x == 0) by lra. rewrite E. lra.
    + exact Hrest.
    + exists x'. split; [|exact Hx'].
      unfold variance_step in Hloop. rewrite Hloop.
      cbn [length]. rewrite Nat.iter_succ_r. reflexivity.
Qed.

Lemma Forall_repeat_eq (v : Q) (n : nat) : Forall (fun z => z == v) (repeat v n).
Proof. induction n; simpl; constructor; [reflexivity|assumption]. Qed.

Lemma kalman_filter_constant (R_obs Q_proc v : Q) (n : nat) :
  0 < R_obs -> 0 <= Q_proc ->
  exists x,
    kalman_filter_with R_obs Q_proc (repeat v (S n))
    = {| estimate := x;
         uncertainty := HW_sqrt (Nat.iter n (variance_step R_obs Q_proc) R_obs) |}
    /\ x == v.
Proof.
  intros HR HQ. destruct n as [|n].
  - exists v. split; reflexivity.
  - destruct (kalman_loop_constant R_obs Q_proc v HR HQ (repeat v (S n)) v R_obs)
      as (x & Hloop & Hx).
    + lra.
    + reflexivity.
    + apply Forall_repeat_eq.
    + exists x. split; [|exact Hx].
      unfold kalman_filter_with.
      change (repeat v (S (S n))) with (v :: repeat v (S n)).
      change (repeat v (S n)) with (v :: repeat v n) at 1.
      cbv iota. change (v :: repeat v n) with (repeat v (S n)).
      rewrite Hloop. rewrite repeat_length. reflexivity.
Qed.

Lemma iter_variance_decreasing (R_obs Q_proc : Q) (n : nat) :
  0 < R_obs -> 0 <= Q_proc ->
  Nat.iter (S n) (variance_step R_obs Q_proc) R_obs
  <= Nat.iter n (variance_step R_obs Q_proc) R_obs.
Proof.
  intros HR HQ. induction n as [|n IH].
  - simpl. apply variance_step_below; assumption.
  - change (Nat.iter (S (S n)) (variance_step R_obs Q_proc) R_obs)
      with (variance_step R_obs Q_proc
              (Nat.iter (S n) (variance_step R_obs Q_proc) R_obs)).
    change (Nat.iter (S n) (variance_step R_obs Q_proc) R_obs)
      with (variance_step R_obs Q_proc
              (Nat.iter n (variance_step R_obs Q_proc) R_obs)) at 2.
    apply variance_step_mono; try assumption.
    apply iter_variance_nonneg; lra.
Qed.

Lemma half_width_sqrt_mono (P P' : Q) :
  P' <= P ->
  (half_width_value (HW_sqrt P') <= half_width_value (HW_sqrt P))%R.
Proof.
  intros H. unfold half_width_value.
  apply Rmult_le_compat_r.
  - replace 0%R with (Q2R 0) by (unfold Q2R; simpl; lra).
    apply Qle_Rle. lra.
  - apply sqrt_le_1_alt. apply Qle_Rle. exact H.
Qed.

(** C5: on a non-empty stream whose observations all equal [v], the
    estimate of [kalman_filter] is [v] whatever the length, and the
    uncertainty for [n + 2] samples is at most the uncertainty for [n + 1]
    samples. *)
Theorem kalman_constant_stream (v : Q) (n : nat) :
  estimate (kalman_filter (repeat v (S n))) == v
  /\ (half_width_value (uncertainty (kalman_filter (repeat v (S (S n)))))
      <= half_width_value (uncertainty (kalman_filter (repeat v (S n)))))%R.
Proof.
  assert (HR : 0 < KALMAN_R) by (unfold KALMAN_R; lra).
  assert (HQ : 0 <= KALMAN_Q) by (unfold KALMAN_Q; lra).
  unfold kalman_filter.
  destruct (kalman_filter_constant KALMAN_R KALMAN_Q v n HR HQ) as (x & E & Hx).
  destruct (kalman_filter_constant KALMAN_R KALMAN_Q v (S n) HR HQ) as (x2 & E2 & _).
  rewrite E2, E. cbn [estimate uncertainty]. split; [exact Hx|].
  apply half_width_sqrt_mono. apply iter_variance_decreasing; assumption.
Qed.

(** ** The discrete scale *)

Lemma snap_pick_spec (value best v : Q) :
  best < v ->
  (2 * value <= best + v /\ snap_pick value best v = best)
  \/ (best + v < 2 * value /\ snap_pick value best v = v).
Proof.
  intros Hlt. unfold snap_pick.
  destruct (Qltb (Qabs (v - value)) (Qabs (best - value))) eqn:E;
    [apply Qltb_true in E; right | apply Qltb_false in E; left];
    (split; [|reflexivity]); qabs_lra.
Qed.

Lemma snap_to_discrete_cases (value : Q) :
  (value <= 0.125 /\ snap_to_discrete value = 0)
  \/ (0.125 < value <= 0.375 /\ snap_to_discrete value = 0.25)
  \/ (0.375 < value <= 0.625 /\ snap_to_discrete value = 0.5)
  \/ (0.625 < value <= 0.875 /\ snap_to_discrete value = 0.75)
  \/ (0.875 < value /\ snap_to_discrete value = 1).
Proof.
  unfold snap_to_discrete, DISCRETE_SCALE. cbn [fold_left].
  destruct (snap_pick_spec value 0 0.25 ltac:(lra)) as [[H1 E1]|[H1 E1]];
      rewrite E1.
  - destruct (snap_pick_spec value 0 0.5 ltac:(lra)) as [[H2 E2]|[H2 E2]];
      rewrite E2.
    + destruct (snap_pick_spec value 0 0.75 ltac:(lra)) as [[H3 E3]|[H3 E3]];
      rewrite E3.
      * destruct (snap_pick_spec value 0 1 ltac:(lra)) as [[H4 E4]|[H4 E4]];
      rewrite E4.
        -- left. split; [lra|reflexivity].
        -- exfalso. lra.
      * exfalso. lra.
    + exfalso. lra.
  - destruct (snap_pick_spec value 0.25 0.5 ltac:(lra)) as [[H2 E2]|[H2 E2]];
      rewrite E2.
    + destruct (snap_pick_spec value 0.25 0.75 ltac:(lra)) as [[H3 E3]|[H3 E3]];
      rewrite E3.
      * destruct (snap_pick_spec value 0.25 1 ltac:(lra)) as [[H4 E4]|[H4 E4]];
      rewrite E4.
        -- right; left. split; [lra|reflexivity].
        -- exfalso. lra.
      * exfalso. lra.
    + destruct (snap_pick_spec value 0.5 0.75 ltac:(lra)) as [[H3 E3]|[H3 E3]];
      rewrite E3.
      * destruct (snap_pick_spec value 0.5 1 ltac:(lra)) as [[H4 E4]|[H4 E4]];
      rewrite E4.
        -- right; right; left. split; [lra|reflexivity].
        -- exfalso. lra.
      * destruct (snap_pick_spec value 0.75 1 ltac:(lra)) as [[H4 E4]|[H4 E4]];
      rewrite E4.
        -- right; right; right; left. split; [lra|reflexivity].
        -- right; right; right; right. split; [lra|reflexivity].
Qed.




Lemma clamp01_range (parsed : Q) : 0 <= clamp01 parsed <= 1.
Proof.
  unfold clamp01. split.
  - apply Q.le_max_l.
  - apply Q.max_lub; [lra|apply Q.le_min_l].
Qed.






(** ** CUSUM *)

Lemma cusum_acc_within (target allowance x : Q) :
  Qabs (x - target) <= allowance -> cusum_acc target allowance 0 x = 0.
Proof.
  intros H. unfold cusum_acc, Qmax, GenericMinMax.gmax.
  destruct (0 ?= 0 + (Qabs (x - target) - allowance)) eqn:E; try reflexivity.
  apply Qlt_alt in E. lra.
Qed.

Lemma cusum_fold_within (target allowance : Q) (scores : list Q) :
  Forall (fun x => Qabs (x - target) <= allowance) scores ->
  fold_left (cusum_acc target allowance) scores 0 = 0.
Proof.
  induction scores as [|x scores IH]; intros Hall; [reflexivity|].
  inversion Hall as [|? ? Hx Hrest]; subst.
  cbn [fold_left]. rewrite cusum_acc_within by exact Hx. apply IH, Hrest.
Qed.

(** C7, amended: when every score of the stream is within the allowance of
    the target, the accumulator returned by [cusum] is 0 whatever the length
    of the stream; the trigger does not fire when the decision threshold is
    above the comparison tolerance [EPSILON], as it is in the detector with
    a window of at least one score, and it fires on every non-empty stream
    when the decision threshold is at most [EPSILON]. *)
Theorem cusum_zero_within_allowance
  (scores : list Q) (target allowance decision_threshold : Q) :
  Forall (fun x => Qabs (x - target) <= allowance) scores ->
  cusum_S (cusum scores target allowance decision_threshold) = 0
  /\ (EPSILON < decision_threshold ->
      triggered (cusum scores target allowance decision_threshold) = false)
  /\ (scores <> [] -> decision_threshold <= EPSILON ->
      triggered (cusum scores target allowance decision_threshold) = true).
Proof.
  intros Hall. destruct scores as [|x scores].
  - split; [reflexivity|]. split; [reflexivity|]. intros H. contradiction.
  - unfold cusum. rewrite cusum_fold_within by exact Hall.
    cbn [cusum_S triggered]. split; [reflexivity|]. split.
    + intros Hdt. apply Qleb_false. lra.
    + intros _ Hdt. apply Qleb_true. lra.
Qed.

Lemma cusum_zero_within_allowance_witness :
  Forall (fun x => Qabs (x - 0.5) <= 0.125) [0.5; 0.5; 0.5]
  /\ EPSILON < 0.8
  /\ cusum_S (cusum [0.5; 0.5; 0.5] 0.5 0.125 0.8) = 0
  /\ triggered (cusum [0.5; 0.5; 0.5] 0.5 0.125 0.8) = false
  /\ triggered (cusum [0.5; 0.5; 0.5] 0.5 0.125 EPSILON) = true.
Proof.
  assert (Hall : Forall (fun x => Qabs (x - 0.5) <= 0.125) [0.5; 0.5; 0.5])
    by (repeat constructor; vm_compute; discriminate).
  assert (Hdt : EPSILON < 0.8) by reflexivity.
  assert (Hne : [0.5; 0.5; 0.5] <> ([] : list Q)) by discriminate.
  split; [exact Hall|]. split; [exact Hdt|].
  split; [|split].
  - exact (proj1 (cusum_zero_within_allowance _ 0.5 0.125 0.8 Hall)).
  - exact (proj1 (proj2 (cusum_zero_within_allowance _ 0.5 0.125 0.8 Hall))
             Hdt).
  - exact (proj2 (proj2 (cusum_zero_within_allowance _ 0.5 0.125 EPSILON
                           Hall)) Hne (Qle_refl EPSILON)).
Defined.

(** C7 fails as stated: with a decision threshold of 0 the trigger fires on
    a stream whose only score is the target itself, the accumulator being
    0; the detector has this threshold when [drift_window] is 0, and then
    flags a dimension whose scores are all on target. *)
Lemma cusum_triggers_within_allowance :
  let zero_window := {|
    drift_window := 0;
    drift_threshold := 0.20;
    drift_alert_threshold := 0.35;
    correction_enabled := true;
    correction_max_dimensions := 3;
    correction_patience := 2;
    correction_max_attempts := 2;
    correction_cooldown := 2;
    recovery_margin := 0.05;
    recovery_patience := 2
  |} in
  Qabs (0.5 - 0.5) <= 0.125
  /\ cusum [0.5] 0.5 0.125 0 = {| cusum_S := 0; triggered := true |}
  /\ decision_threshold unit_factor zero_window 1 == 0
  /\ ((fun d => (cusum_value d, correcting d)) <$>
        obj_get "warmth"
          (update_drift_state unit_factor zero_window
             [{| dim_id := "warmth"; dim_target := 0.5 |}]
             [warmth_entry 1 0.5; warmth_entry 2 0.5] ∅))
     = Some (0, true).
Proof. vm_compute. repeat split; try reflexivity; discriminate. Qed.

(** The decision threshold of the detector is positive as soon as the window
    is not empty and the correction factor is at least 1. *)
Lemma decision_threshold_positive (sqrt_log2 : nat -> Q) (s : settings)
  (num_dimensions : nat) :
  (1 <= drift_window s)%nat ->
  1 <= bonferroni_factor sqrt_log2 num_dimensions ->
  EPSILON < decision_threshold sqrt_log2 s num_dimensions.
Proof.
  intros Hw Hf. unfold decision_threshold, base_decision_threshold.
  assert (Ha : 0.125 <= cusum_allowance s) by apply Q.le_max_r.
  assert (Hn : 1 <= Qnat (drift_window s)).
  { unfold Qnat. change 1 with (inject_Z 1). rewrite <- Zle_Qle. lia. }
  unfold EPSILON.
  set (a := cusum_allowance s) in *. set (w := Qnat (drift_window s)) in *.
  set (f := bonferroni_factor sqrt_log2 num_dimensions) in *.
  assert (0.125 <= a * w) by nra.
  assert (Hp : 0.1 <= a * w * 0.8) by lra.
  set (p := a * w * 0.8) in *.
  assert (p * 1 <= p * f) by (apply Qmult_le_l; lra).
  clearbody p f a w. lra.
Qed.

(** In the detector the trigger of a dimension that stays within the
    allowance is off: its decision threshold is above the tolerance. *)
Lemma cusum_quiet_in_detector (sqrt_log2 : nat -> Q) (s : settings)
  (num_dimensions : nat) (scores : list Q) (target : Q) :
  (1 <= drift_window s)%nat ->
  1 <= bonferroni_factor sqrt_log2 num_dimensions ->
  Forall (fun x => Qabs (x - target) <= cusum_allowance s) scores ->
  cusum scores target (cusum_allowance s)
    (decision_threshold sqrt_log2 s num_dimensions)
  = {| cusum_S := 0; triggered := false |}.
Proof.
  intros Hw Hf Hall.
  pose proof (decision_threshold_positive sqrt_log2 s num_dimensions Hw Hf)
    as Hdt.
  destruct scores as [|x scores]; [reflexivity|].
  unfold cusum. rewrite cusum_fold_within by exact Hall.
  f_equal. apply Qleb_false. lra.
Qed.

(** ** The worked example of the detector *)

(** C1: with the default threshold 0.20 and window 8 and one active
    dimension, the allowance is 0.125 and the decision threshold 0.8 (the
    correction factor being 1); for the scores [0.75; 0.75] against the
    target 0.20 the accumulator is 0.425 after the first score and 0.85
    after the second, and the trigger fires on the second score only. *)
Theorem cusum_default_example (sqrt_log2 : nat -> Q) :
  cusum_allowance DEFAULT_SETTINGS == 0.125
  /\ bonferroni_factor sqrt_log2 1 = 1
  /\ decision_threshold sqrt_log2 DEFAULT_SETTINGS 1 == 0.8
  /\ cusum_S (cusum [0.75] 0.20 (cusum_allowance DEFAULT_SETTINGS)
                (decision_threshold sqrt_log2 DEFAULT_SETTINGS 1)) == 0.425
  /\ triggered (cusum [0.75] 0.20 (cusum_allowance DEFAULT_SETTINGS)
                  (decision_threshold sqrt_log2 DEFAULT_SETTINGS 1)) = false
  /\ cusum_S (cusum [0.75; 0.75] 0.20 (cusum_allowance DEFAULT_SETTINGS)
                (decision_threshold sqrt_log2 DEFAULT_SETTINGS 1)) == 0.85
  /\ triggered (cusum [0.75; 0.75] 0.20 (cusum_allowance DEFAULT_SETTINGS)
                  (decision_threshold sqrt_log2 DEFAULT_SETTINGS 1)) = true
  /\ (correcting <$>
        obj_get "warmth"
          (update_drift_state sqrt_log2 DEFAULT_SETTINGS
             [{| dim_id := "warmth"; dim_target := 0.20 |}]
             [warmth_entry 1 0.75] ∅)) = Some false
  /\ (correcting <$>
        obj_get "warmth"
          (update_drift_state sqrt_log2 DEFAULT_SETTINGS
             [{| dim_id := "warmth"; dim_target := 0.20 |}]
             [warmth_entry 1 0.75; warmth_entry 2 0.75] ∅)) = Some true.
Proof.
  repeat split; vm_compute; reflexivity.
Qed.

(** ** The detector and the filter in binary64 *)

Module Binary64Facts.

Import PrimFloat Binary64.
Local Open Scope float_scope.
#[local] Set Warnings "-inexact-float".

(** The worked example with rounding: the same allowance and decision
    threshold, the accumulator within rounding of 0.425 and 0.85, and the
    same two answers of the trigger. *)
Lemma cusum_worked_example :
  allowance 0.20 = 0.125
  /\ decision_threshold 0.20 8 = 0.8
  /\ near (fst (cusum [0.75] 0.20 (allowance 0.20) (decision_threshold 0.20 8)))
       0.425 = true
  /\ snd (cusum [0.75] 0.20 (allowance 0.20) (decision_threshold 0.20 8))
     = false
  /\ near (fst (cusum [0.75; 0.75] 0.20 (allowance 0.20)
                  (decision_threshold 0.20 8))) 0.85 = true
  /\ snd (cusum [0.75; 0.75] 0.20 (allowance 0.20) (decision_threshold 0.20 8))
     = true.
Proof. vm_compute. repeat split; reflexivity. Qed.

(** The rounded variance recursion reaches a fixed point. *)
Lemma variance_stationary :
  variance_step (Nat.iter 64 variance_step 0.04)
  = Nat.iter 64 variance_step 0.04.
Proof. vm_compute. reflexivity. Qed.

Lemma variance_from_64 (n : nat) :
  Nat.iter (64 + n) variance_step 0.04 = Nat.iter 64 variance_step 0.04.
Proof.
  induction n as [|n IH]; [rewrite Nat.add_0_r; reflexivity|].
  rewrite Nat.add_succ_r, Nat.iter_succ, IH.
  exact variance_stationary.
Qed.

Lemma uncertainty_first_steps :
  forallb (fun n => uncertainty_after (S n) <=? uncertainty_after n)
    (seq 0 65) = true.
Proof. vm_compute. reflexivity. Qed.

(** With rounding too, one more observation never raises the uncertainty. *)
Lemma uncertainty_non_increasing (n : nat) :
  (uncertainty_after (S n) <=? uncertainty_after n) = true.
Proof.
  destruct (Nat.lt_ge_cases n 65) as [Hlt|Hge].
  - pose proof uncertainty_first_steps as H.
    rewrite forallb_forall in H. apply H. apply in_seq. lia.
  - assert (Hk : exists k, n = (64 + k)%nat) by (exists (n - 64)%nat; lia).
    destruct Hk as [k ->]. unfold uncertainty_after.
    rewrite <- Nat.add_succ_r, !variance_from_64. vm_compute. reflexivity.
Qed.

End Binary64Facts.

(** ** Score history *)

Lemma store_scores_history (message_index ts hash : nat)
  (sc : gmap string Q) (st : chat_state) :
  score_history (store_scores message_index ts hash sc st)
  = let pushed := score_history st ++ [new_entry message_index ts hash sc] in
    if (MAX_SCORE_HISTORY <? length pushed)%nat
    then slice_last MAX_SCORE_HISTORY pushed else pushed.
Proof. reflexivity. Qed.

Lemma slice_last_length {A : Type} (n : nat) (l : list A) :
  (0 < n)%nat -> (n <= length l)%nat -> length (slice_last n l) = n.
Proof.
  intros Hn Hl. unfold slice_last. destruct n as [|n]; [lia|].
  rewrite length_skipn. lia.
Qed.

Lemma slice_last_app_last {A : Type} (n : nat) (l : list A) (x : A) :
  (0 < n)%nat -> last (slice_last n (l ++ [x])) = Some x.
Proof.
  intros Hn. unfold slice_last. destruct n as [|n]; [lia|].
  rewrite length_app. cbn [length].
  destruct (decide (length l + 1 - S n <= length l)%nat) as [Hle|Hgt]; [|lia].
  rewrite skipn_app.
  replace (length l + 1 - S n - length l)%nat with 0%nat by lia.
  cbn [skipn]. apply last_snoc.
Qed.

(** C8: after [store_scores] the history has at most 200 entries and ends
    with the new entry; when it had 200 entries before, the oldest one is
    dropped, so that position 0 now holds what was at position 1. *)
Theorem store_scores_capped (message_index ts hash : nat)
  (sc : gmap string Q) (st : chat_state) :
  let st' := store_scores message_index ts hash sc st in
  (length (score_history st') <= 200)%nat
  /\ last (score_history st') = Some (new_entry message_index ts hash sc)
  /\ (length (score_history st) = 200%nat ->
      score_history st'
      = tail (score_history st) ++ [new_entry message_index ts hash sc]
      /\ length (score_history st') = 200%nat
      /\ score_history st' !! 0%nat = score_history st !! 1%nat).
Proof.
  cbv zeta. rewrite store_scores_history. cbv zeta.
  set (e := new_entry message_index ts hash sc).
  set (h := score_history st).
  assert (Hlen : length (h ++ [e]) = S (length h))
    by (rewrite length_app; simpl; lia).
  unfold MAX_SCORE_HISTORY.
  split; [|split].
  - destruct (200 <? length (h ++ [e]))%nat eqn:E.
    + apply Nat.ltb_lt in E. rewrite slice_last_length; lia.
    + apply Nat.ltb_ge in E. exact E.
  - destruct (200 <? length (h ++ [e]))%nat.
    + apply slice_last_app_last. lia.
    + apply last_snoc.
  - intros H200.
    assert (E : (200 <? length (h ++ [e]))%nat = true)
      by (apply Nat.ltb_lt; lia).
    rewrite E. unfold slice_last. rewrite Hlen, H200.
    replace (201 - 200)%nat with 1%nat by lia.
    destruct h as [|x h']; [discriminate|].
    cbn [app skipn tail]. split; [reflexivity|]. split.
    + rewrite drop_0, length_app. simpl in *. lia.
    + destruct h' as [|y h'']; [discriminate|]. reflexivity.
Qed.

Lemma store_scores_capped_witness :
  length (score_history (set_score_history (history_of 200) create_empty_chat_state)) = 200%nat
  /\ score_history
       (store_scores 200 0 0 ∅
          (set_score_history (history_of 200) create_empty_chat_state))
     !! 0%nat
     = Some (new_entry 1 0 0 ∅).
Proof.
  assert (H : length (score_history
                (set_score_history (history_of 200) create_empty_chat_state))
              = 200%nat) by (vm_compute; reflexivity).
  split; [exact H|].
  rewrite (proj2 (proj2 (proj2 (proj2 (store_scores_capped 200 0 0 ∅
             (set_score_history (history_of 200) create_empty_chat_state))) H))).
  vm_compute. reflexivity.
Defined.

(** ** Report on an empty history *)

(** C10 fails as stated: on an empty history [generate_report] returns no
    report at all, hence no score of 0. *)
Lemma generate_report_empty_history_counterexample :
  snd (generate_report DEFAULT_SETTINGS "insights" create_empty_chat_state)
  = None
  /\ ~ (exists r,
         snd (generate_report DEFAULT_SETTINGS "insights"
                create_empty_chat_state) = Some r
         /\ card_resilience r = 0%Z /\ session_quality r = 0%Z
         /\ model_compatibility r = 0%Z).
Proof.
  split; [reflexivity|].
  intros (r & Hr & _). discriminate Hr.
Qed.

(** C10, amended: on an empty history each of the three score functions
    returns 0, and [generate_report] returns no report and leaves the state
    as it is. *)
Theorem empty_history_scores (s : settings) (dims : list dimension)
  (ceiling : list string) (corrections : nat)
  (drift : list (string * drift_entry)) (insights_text : string)
  (st : chat_state) :
  compute_card_resilience s [] dims corrections = 0%Z
  /\ compute_session_quality [] dims drift = 0%Z
  /\ compute_model_compatibility s dims ceiling corrections [] drift = 0%Z
  /\ (score_history st = [] ->
      generate_report s insights_text st = (st, None)).
Proof.
  repeat split. intros H. unfold generate_report. rewrite H. reflexivity.
Qed.

Lemma empty_history_scores_witness :
  score_history create_empty_chat_state = []
  /\ generate_report DEFAULT_SETTINGS "insights" create_empty_chat_state
     = (create_empty_chat_state, None).
Proof.
  split; [reflexivity|].
  exact (proj2 (proj2 (proj2 (empty_history_scores DEFAULT_SETTINGS [] [] 0 []
                                "insights" create_empty_chat_state)))
           eq_refl).
Defined.

(** ** The controller, cycle by cycle *)

(** ** What the steps of the controller leave alone *)

Lemma mark_recovered_control (ids : list string) (st : chat_state) :
  control_fields (mark_recovered ids st) = control_fields st.
Proof.
  unfold mark_recovered. revert st.
  induction ids as [|id ids IH]; intros st; [reflexivity|].
  cbn [fold_left]. rewrite IH. reflexivity.
Qed.

Lemma track_ever_triggered_control (dr : list drifting_item) (st : chat_state) :
  control_fields (track_ever_triggered dr st) = control_fields st.
Proof. destruct dr; reflexivity. Qed.

Lemma track_ever_triggered_ma (dr : list drifting_item) (st : chat_state) :
  ma_consecutive_above (track_ever_triggered dr st) = ma_consecutive_above st
  /\ cusum_reset_after (track_ever_triggered dr st) = cusum_reset_after st.
Proof. destruct dr; split; reflexivity. Qed.

Lemma clear_ceiling_keeps (model : string) (st : chat_state) :
  let st' := clear_ceiling_on_model_change model st in
  active_correction st' = active_correction st
  /\ cooldown_remaining st' = cooldown_remaining st
  /\ recovery_cycles st' = recovery_cycles st
  /\ corrections_injected st' = corrections_injected st
  /\ correction_prompt st' = correction_prompt st
  /\ dimensions st' = dimensions st
  /\ ma_consecutive_above st' = ma_consecutive_above st.
Proof.
  unfold clear_ceiling_on_model_change.
  destruct (ceiling_dimensions st), (ceiling_model st);
    repeat (case_match; cbn); repeat split; reflexivity.
Qed.

(** ** How the correction branch of a cycle ends *)

Ltac branch_end :=
  unfold open_correction, escalate, generate_then;
  destruct (generated_text _); cbn [state_of].

Lemma generate_then_cases (inp : cycle_input) (rest : string -> chat_state)
  (st : chat_state) :
  (generated_text inp = None /\ generate_then inp rest st = Thrown st)
  \/ (exists text, generated_text inp = Some text
                   /\ generate_then inp rest st = Completed (rest text)).
Proof.
  unfold generate_then.
  destruct (generated_text inp) as [text|]; [right; eauto|left; auto].
Qed.

(** The end of the cycle changes the ceiling list at most, and only by
    releasing dimensions that recovered. *)
Lemma finish_cycle_frame (s : settings) (drift : list (string * drift_entry))
  (r : step_result) :
  exists ceiling,
    finish_cycle s drift r = set_ceiling_dimensions ceiling (state_of r)
    /\ (forall id, id ∈ ceiling -> id ∈ ceiling_dimensions (state_of r))
    /\ (forall id, id ∈ ceiling_dimensions (state_of r) ->
          id ∈ ceiling \/ naturally_recovered s drift id = true).
Proof.
  destruct r as [st|st]; cbn [finish_cycle state_of].
  - eexists. split; [reflexivity|]. split.
    + intros id H. apply list_elem_of_In, filter_In in H as [H _].
      apply list_elem_of_In, H.
    + intros id H. destruct (naturally_recovered s drift id) eqn:E;
        [right; reflexivity|left].
      apply list_elem_of_In, filter_In. split; [apply list_elem_of_In, H|].
      rewrite E. reflexivity.
  - exists (ceiling_dimensions st). split; [destruct st; reflexivity|].
    split; auto.
Qed.

Lemma mark_recovered_frame (ids : list string) :
  forall st : chat_state,
    exists ma cr,
      mark_recovered ids st
      = set_ma_consecutive_above ma (set_cusum_reset_after cr st).
Proof.
  unfold mark_recovered.
  induction ids as [|id ids IH]; intros st; cbn [fold_left].
  - exists (ma_consecutive_above st), (cusum_reset_after st).
    destruct st; reflexivity.
  - match goal with
    | |- context [fold_left _ ids ?x] => destruct (IH x) as (ma & cr & ->)
    end.
    exists ma, cr. reflexivity.
Qed.

Lemma evaluate_correction_outcome (s : settings) (inp : cycle_input)
  (drift : list (string * drift_entry)) (dr : list drifting_item)
  (c0 : correction) (st : chat_state) :
  evaluation_outcome s inp dr (count_scored inp c0)
    (set_active_correction (Some (count_scored inp c0)) st)
    (evaluate_correction s inp drift dr c0 st).
Proof.
  unfold evaluate_correction.
  set (c := count_scored inp c0). clearbody c.
  set (st1 := set_active_correction (Some c) st). clearbody st1.
  destruct (scores_since_correction c <? correction_patience s)%nat;
    [constructor|].
  destruct (corrected_still_drifting _ st1 drift c) as [|e still];
    [constructor|].
  set (w := current_worst_dev (e :: still)). clearbody w.
  destruct (all_recovering drift c); [constructor|].
  destruct (worsened c w); cbn [andb].
  - destruct (attempts_left s c) eqn:Ea; [constructor; exact Ea|].
    destruct (improved c w); [constructor|].
    destruct (negb (any_worsening drift c)); [constructor|].
    constructor; exact Ea.
  - destruct (improved c w); [constructor|].
    destruct (negb (any_worsening drift c)); [constructor|].
    destruct (attempts_left s c) eqn:Ea; constructor; exact Ea.
Qed.

Lemma decide_correction_outcome (s : settings) (inp : cycle_input)
  (drift : list (string * drift_entry)) (dr : list drifting_item)
  (st : chat_state) :
  decision_outcome s inp drift dr st (decide_correction s inp drift dr st).
Proof.
  unfold decide_correction. destruct dr as [|d dr].
  - destruct (active_correction st) as [c|] eqn:Ea;
      [eapply Dec_confirm|apply Dec_idle]; eauto.
  - destruct (Nat.ltb_spec 0 (cooldown_remaining st)) as [Hc|Hc].
    + apply Dec_cooldown; [discriminate|exact Hc].
    + destruct (active_correction st) as [c|] eqn:Ea;
        [eapply Dec_evaluate|apply Dec_open]; eauto; try discriminate; lia.
Qed.

Lemma confirm_recovery_cases (s : settings)
  (drift : list (string * drift_entry)) (c : correction) (st : chat_state) :
  (exists n, confirm_recovery s drift c st = set_recovery_cycles n st)
  \/ (exists ma cr,
        confirm_recovery s drift c st
        = set_recovery_cycles 0
            (set_cooldown_remaining (correction_cooldown s)
               (set_active_correction None
                  (set_correction_prompt ""
                     (set_ma_consecutive_above ma
                        (set_cusum_reset_after cr st)))))).
Proof.
  unfold confirm_recovery.
  destruct (all_within_tolerance s st drift c); [|left; eauto].
  destruct (recovery_patience s <=? S (recovery_cycles st))%nat;
    [|left; eauto].
  right.
  destruct (mark_recovered_frame (dim_ids c)
              (set_recovery_cycles (S (recovery_cycles st)) st))
    as (ma & cr & ->).
  exists ma, cr. reflexivity.
Qed.

Section ControllerFacts.

Variable sqrt_log2 : nat -> Q.

Lemma controller_state_keeps (s : settings) (inp : cycle_input) (st : chat_state) :
  let st1 := controller_state sqrt_log2 s inp st in
  active_correction st1 = active_correction st
  /\ cooldown_remaining st1 = cooldown_remaining st
  /\ recovery_cycles st1 = recovery_cycles st
  /\ corrections_injected st1 = corrections_injected st
  /\ correction_prompt st1 = correction_prompt st
  /\ dimensions st1 = dimensions st
  /\ ma_consecutive_above st1 = ma_consecutive_above st
  /\ last_scored_message_id st1 = Some (message_index inp).
Proof.
  destruct (clear_ceiling_keeps (current_model inp) st)
    as (H1 & H2 & H3 & H4 & H5 & H6 & H7).
  cbv zeta. unfold controller_state, scored_state, store_scores. cbn.
  repeat split; assumption.
Qed.

Lemma cycle_drifting_unfold (s : settings) (inp : cycle_input)
  (st : chat_state) :
  cycle_drifting sqrt_log2 s inp st
  = map dd_id
      (snd (detect_drifting s
              (drift_state (controller_state sqrt_log2 s inp st))
              (controller_state sqrt_log2 s inp st))).
Proof. unfold cycle_drifting. reflexivity. Qed.

(** The cycle seen from the controller. *)
Lemma cycle_through_controller (s : settings) (inp : cycle_input)
  (st : chat_state) :
  reaches_controller s inp st = true ->
  score_and_process_message sqrt_log2 s inp st
  = controller s inp (drift_state (controller_state sqrt_log2 s inp st))
      (controller_state sqrt_log2 s inp st).
Proof.
  unfold reaches_controller, score_and_process_message, controller_state.
  destruct (dimensions st) as [|d ds]; [discriminate|].
  destruct (map_to_list (reply_scores inp)) as [|e es]; [discriminate|].
  intros H. apply andb_true_iff in H as [H1 H2]. rewrite H1, H2. reflexivity.
Qed.

(** A cycle that does not reach the controller leaves the correction, the
    cooldown and the recovery counter as they are. *)
Lemma cycle_outside_controller (s : settings) (inp : cycle_input)
  (st : chat_state) :
  reaches_controller s inp st = false ->
  let st' := score_and_process_message sqrt_log2 s inp st in
  active_correction st' = active_correction st
  /\ cooldown_remaining st' = cooldown_remaining st
  /\ recovery_cycles st' = recovery_cycles st
  /\ corrections_injected st' = corrections_injected st
  /\ correction_prompt st' = correction_prompt st.
Proof.
  unfold reaches_controller, score_and_process_message.
  destruct (clear_ceiling_keeps (current_model inp) st)
    as (H1 & H2 & H3 & H4 & H5 & _).
  destruct (dimensions st) as [|d ds]; [intros _; repeat split; reflexivity|].
  destruct (scorable inp); cbn [negb];
    [|intros _; cbv zeta; repeat split; assumption].
  destruct (map_to_list (reply_scores inp)) as [|e es];
    [intros _; cbv zeta; repeat split; assumption|].
  cbn [andb]. intros ->. cbn [negb]. cbv zeta.
  unfold scored_state, store_scores. cbn. repeat split; assumption.
Qed.

(** The state the controller works on once the counters are stored. *)
Lemma tracked_control (s : settings) (drift : list (string * drift_entry))
  (st : chat_state) :
  control_fields
    (track_ever_triggered (snd (detect_drifting s drift st))
       (set_ma_consecutive_above (fst (detect_drifting s drift st)) st))
  = control_fields st.
Proof. rewrite track_ever_triggered_control. reflexivity. Qed.

Lemma confirm_recovery_keeps (s : settings)
  (drift : list (string * drift_entry)) (c : correction) (st : chat_state) :
  active_correction st = Some c ->
  let st' := confirm_recovery s drift c st in
  corrections_injected st' = corrections_injected st
  /\ (active_correction st' = active_correction st
      \/ active_correction st' = None)
  /\ (correction_prompt st' = correction_prompt st
      \/ correction_prompt st' = "")
  /\ ceiling_dimensions st' = ceiling_dimensions st.
Proof.
  intros Hc. cbv zeta. unfold confirm_recovery.
  destruct (all_within_tolerance s st drift c);
    [destruct (recovery_patience s <=? S (recovery_cycles st))%nat|];
    cbn; try (repeat split; auto; fail).
  pose proof (mark_recovered_control (dim_ids c)
                (set_recovery_cycles (S (recovery_cycles st)) st)) as H.
  unfold control_fields in H. cbn in H.
  injection H as _ H2 _ _ _ H6 _ _ _ _ _.
  repeat split; auto.
Qed.

Lemma release_recovered_keeps (s : settings)
  (drift : list (string * drift_entry)) (st : chat_state) :
  let st' := release_recovered_ceiling s drift st in
  active_correction st' = active_correction st
  /\ cooldown_remaining st' = cooldown_remaining st
  /\ recovery_cycles st' = recovery_cycles st
  /\ corrections_injected st' = corrections_injected st
  /\ correction_prompt st' = correction_prompt st
  /\ cusum_reset_after st' = cusum_reset_after st.
Proof. repeat split; reflexivity. Qed.

Lemma controller_cooldown (s : settings) (inp : cycle_input)
  (drift : list (string * drift_entry)) (st : chat_state) :
  (0 < cooldown_remaining st)%nat ->
  let dr := snd (detect_drifting s drift st) in
  let st' := controller s inp drift st in
  corrections_injected st' = corrections_injected st
  /\ (active_correction st' = active_correction st
      \/ active_correction st' = None)
  /\ (correction_prompt st' = correction_prompt st
      \/ correction_prompt st' = "")
  /\ (dr <> [] -> cooldown_remaining st' = Nat.pred (cooldown_remaining st))
  /\ (dr = [] -> active_correction st = None ->
      cooldown_remaining st' = cooldown_remaining st).
Proof.
  intros Hcool. cbv zeta. unfold controller, decide_correction.
  pose proof (tracked_control s drift st) as Hctl.
  set (st2 := track_ever_triggered _ _) in *.
  unfold control_fields in Hctl.
  injection Hctl as Hact _ _ Hcd _ Hinj Hpr _ _ _ _.
  clearbody st2.
  destruct (snd (detect_drifting s drift st)) as [|d dr].
  - match goal with
    | |- context [release_recovered_ceiling s drift ?x] =>
        destruct (release_recovered_keeps s drift x) as (R1 & R2 & _ & R4 & R5 & _)
    end.
    cbv zeta in *. rewrite R1, R2, R4, R5. clear R1 R2 R4 R5.
    destruct (active_correction st2) as [c|] eqn:Ec.
    + destruct (confirm_recovery_keeps s drift c st2 Ec) as (K1 & K2 & K3 & _).
      cbv zeta in *. rewrite K1, Hinj, <- Hact, <- Hpr, <- Ec.
      repeat split; auto; congruence.
    + rewrite Hinj, <- Hact, Ec, Hpr, Hcd. repeat split; auto; congruence.
  - rewrite Hcd. destruct (Nat.ltb_spec 0 (cooldown_remaining st)) as [_|]; [|lia].
    cbn. rewrite Hinj, Hact, Hpr. repeat split; auto; congruence.
Qed.

(** C3, amended: while the cooldown runs no correction is
    generated or injected; the cooldown is decremented by one in a cycle in
    which a dimension is drifting, and is left as it is in a cycle without a
    drifting dimension. *)
Theorem cooldown_suppresses_corrections (s : settings) (inp : cycle_input)
  (st : chat_state) :
  (0 < cooldown_remaining st)%nat ->
  let st' := score_and_process_message sqrt_log2 s inp st in
  corrections_injected st' = corrections_injected st
  /\ (active_correction st' = active_correction st
      \/ active_correction st' = None)
  /\ (correction_prompt st' = correction_prompt st
      \/ correction_prompt st' = "")
  /\ (reaches_controller s inp st = true ->
      cycle_drifting sqrt_log2 s inp st <> [] ->
      cooldown_remaining st' = Nat.pred (cooldown_remaining st))
  /\ (reaches_controller s inp st = true ->
      cycle_drifting sqrt_log2 s inp st = [] ->
      active_correction st = None ->
      cooldown_remaining st' = cooldown_remaining st).
Proof.
  intros Hcool. cbv zeta.
  destruct (reaches_controller s inp st) eqn:Hreach.
  - rewrite (cycle_through_controller s inp st Hreach).
    destruct (controller_state_keeps s inp st)
      as (H1 & H2 & H3 & H4 & H5 & _).
    cbv zeta in *. rewrite cycle_drifting_unfold.
    set (st1 := controller_state sqrt_log2 s inp st) in *. clearbody st1.
    assert (Hcool1 : (0 < cooldown_remaining st1)%nat) by lia.
    destruct (controller_cooldown s inp (drift_state st1) st1 Hcool1)
      as (K1 & K2 & K3 & K4 & K5).
    rewrite K1, H4, <- H1, <- H5, <- H2.
    repeat split; auto.
    + intros _ Hdr. apply K4. intros E. apply Hdr.
      rewrite E. reflexivity.
    + intros _ Hdr Hnone. apply K5; [|congruence].
      destruct (snd (detect_drifting s (drift_state st1) st1));
        [reflexivity|discriminate].
  - destruct (cycle_outside_controller s inp st Hreach)
      as (H1 & H2 & H3 & H4 & H5).
    cbv zeta in *. rewrite H1, H4, H5.
    repeat split; auto; discriminate.
Qed.

Lemma mark_recovered_markers (m : nat) (ids : list string) :
  forall st : chat_state,
    last_scored_message_id st = Some m ->
    forall id : string,
      id ∈ ids \/ cusum_reset_after st !! id = Some m ->
      cusum_reset_after (mark_recovered ids st) !! id = Some m.
Proof.
  unfold mark_recovered.
  induction ids as [|id0 ids IH]; intros st Hlast id Hid.
  - destruct Hid as [Hin|H]; [inversion Hin|exact H].
  - cbn [fold_left]. apply IH; [exact Hlast|].
    cbn. rewrite Hlast.
    destruct (decide (id = id0)) as [->|Hne].
    + right. apply lookup_insert_eq.
    + destruct Hid as [Hin|H].
      * left. apply elem_of_cons in Hin as [?|?]; [contradiction|assumption].
      * right. rewrite lookup_insert_ne by congruence. exact H.
Qed.

(** The recovery branch, on the state the controller starts from. *)
Lemma confirm_recovery_spec (s : settings)
  (drift : list (string * drift_entry)) (c : correction) (st : chat_state)
  (m : nat) :
  last_scored_message_id st = Some m ->
  let st' := confirm_recovery s drift c st in
  (all_within_tolerance s st drift c = true ->
   (recovery_patience s <= S (recovery_cycles st))%nat ->
   correction_prompt st' = "" /\ active_correction st' = None
   /\ (forall id, id ∈ dim_ids c -> cusum_reset_after st' !! id = Some m)
   /\ cooldown_remaining st' = correction_cooldown s
   /\ recovery_cycles st' = 0%nat)
  /\ (all_within_tolerance s st drift c = true ->
      (S (recovery_cycles st) < recovery_patience s)%nat ->
      recovery_cycles st' = S (recovery_cycles st)
      /\ active_correction st' = active_correction st)
  /\ (all_within_tolerance s st drift c = false ->
      recovery_cycles st' = 0%nat
      /\ active_correction st' = active_correction st).
Proof.
  intros Hlast. cbv zeta. unfold confirm_recovery.
  destruct (all_within_tolerance s st drift c).
  - destruct (Nat.leb_spec (recovery_patience s) (S (recovery_cycles st)))
      as [Hle|Hlt].
    + split; [|split; [intros _ ?; lia|discriminate]].
      intros _ _. cbn. repeat split.
      intros id Hid. apply mark_recovered_markers; [exact Hlast|left; exact Hid].
    + split; [intros _ ?; lia|]. split; [|discriminate].
      intros _ _. split; reflexivity.
  - split; [discriminate|]. split; [discriminate|].
    intros _. split; reflexivity.
Qed.

(** The controller when no dimension drifts and a correction is active. *)
Lemma controller_without_drift (s : settings) (inp : cycle_input)
  (drift : list (string * drift_entry)) (st : chat_state) (c : correction) :
  snd (detect_drifting s drift st) = [] ->
  active_correction st = Some c ->
  controller s inp drift st
  = release_recovered_ceiling s drift
      (confirm_recovery s drift c
         (set_ma_consecutive_above (fst (detect_drifting s drift st)) st)).
Proof.
  intros Hdr Hact. unfold controller, decide_correction. rewrite Hdr.
  cbn [track_ever_triggered].
  change (active_correction (set_ma_consecutive_above _ st))
    with (active_correction st).
  rewrite Hact. reflexivity.
Qed.

Lemma confirm_recovery_after_counters (s : settings)
  (drift : list (string * drift_entry)) (c : correction) (st : chat_state)
  (ma : gmap string nat) (m : nat) :
  last_scored_message_id st = Some m ->
  active_correction st = Some c ->
  let within := all_within_tolerance s st drift c in
  let st' :=
    release_recovered_ceiling s drift
      (confirm_recovery s drift c (set_ma_consecutive_above ma st)) in
  (within = true ->
   (recovery_patience s <= S (recovery_cycles st))%nat ->
   correction_prompt st' = "" /\ active_correction st' = None
   /\ (forall id, id ∈ dim_ids c -> cusum_reset_after st' !! id = Some m)
   /\ cooldown_remaining st' = correction_cooldown s
   /\ recovery_cycles st' = 0%nat)
  /\ (within = true ->
      (S (recovery_cycles st) < recovery_patience s)%nat ->
      recovery_cycles st' = S (recovery_cycles st)
      /\ active_correction st' = Some c)
  /\ (within = false ->
      recovery_cycles st' = 0%nat /\ active_correction st' = Some c).
Proof.
  intros Hlast Hact. cbv zeta.
  destruct (release_recovered_keeps s drift
              (confirm_recovery s drift c (set_ma_consecutive_above ma st)))
    as (R1 & R2 & R3 & _ & R5 & R6).
  cbv zeta in *. rewrite R1, R2, R3, R5, R6. rewrite <- Hact.
  exact (confirm_recovery_spec s drift c (set_ma_consecutive_above ma st) m
           Hlast).
Qed.

(** One cycle in which no dimension drifts while a correction is active. *)
Lemma recovery_cycle (s : settings) (inp : cycle_input) (st : chat_state)
  (c : correction) :
  reaches_controller s inp st = true ->
  active_correction st = Some c ->
  cycle_drifting sqrt_log2 s inp st = [] ->
  let st1 := controller_state sqrt_log2 s inp st in
  let within := all_within_tolerance s st1 (drift_state st1) c in
  let st' := score_and_process_message sqrt_log2 s inp st in
  (within = true ->
   (recovery_patience s <= S (recovery_cycles st))%nat ->
   correction_prompt st' = "" /\ active_correction st' = None
   /\ (forall id, id ∈ dim_ids c ->
       cusum_reset_after st' !! id = Some (message_index inp))
   /\ cooldown_remaining st' = correction_cooldown s
   /\ recovery_cycles st' = 0%nat)
  /\ (within = true ->
      (S (recovery_cycles st) < recovery_patience s)%nat ->
      recovery_cycles st' = S (recovery_cycles st)
      /\ active_correction st' = Some c)
  /\ (within = false ->
      recovery_cycles st' = 0%nat /\ active_correction st' = Some c).
Proof.
  intros Hreach Hact Hdr.
  pose proof (controller_state_keeps s inp st) as Hk.
  pose proof (cycle_through_controller s inp st Hreach) as Hcycle.
  rewrite cycle_drifting_unfold in Hdr.
  revert Hk Hcycle Hdr.
  generalize (controller_state sqrt_log2 s inp st). intros st1 Hk Hcycle Hdr.
  generalize dependent (score_and_process_message sqrt_log2 s inp st).
  intros st' ->.
  destruct Hk as (H1 & _ & H3 & _ & _ & _ & _ & H8).
  rewrite Hact in H1. apply map_eq_nil in Hdr.
  rewrite (controller_without_drift s inp (drift_state st1) st1 c Hdr H1).
  rewrite <- H3.
  exact (confirm_recovery_after_counters s (drift_state st1) c st1 _
           (message_index inp) H8 H1).
Qed.

Lemma confirming_true (s : settings) (inp : cycle_input) (st : chat_state)
  (c : correction) :
  active_correction st = Some c ->
  confirming sqrt_log2 s inp st = true ->
  reaches_controller s inp st = true
  /\ cycle_drifting sqrt_log2 s inp st = []
  /\ all_within_tolerance s (controller_state sqrt_log2 s inp st)
       (drift_state (controller_state sqrt_log2 s inp st)) c = true.
Proof.
  intros Hact. unfold confirming. rewrite Hact.
  destruct (reaches_controller s inp st); [|discriminate].
  destruct (cycle_drifting sqrt_log2 s inp st); [|discriminate].
  cbn [andb]. intros ->. repeat split.
Qed.

Lemma run_cons (s : settings) (inp : cycle_input) (rest : list cycle_input)
  (st : chat_state) :
  run sqrt_log2 s (inp :: rest) st
  = run sqrt_log2 s rest (score_and_process_message sqrt_log2 s inp st).
Proof. reflexivity. Qed.

Lemma recovery_after_confirming_run (s : settings) (last : cycle_input)
  (c : correction) (inputs : list cycle_input) :
  forall st : chat_state,
    confirming_run sqrt_log2 s (inputs ++ [last]) st = true ->
    active_correction st = Some c ->
    (recovery_cycles st + length inputs + 1 = recovery_patience s)%nat ->
    let st' := run sqrt_log2 s (inputs ++ [last]) st in
    correction_prompt st' = "" /\ active_correction st' = None
    /\ (forall id, id ∈ dim_ids c ->
        cusum_reset_after st' !! id = Some (message_index last))
    /\ cooldown_remaining st' = correction_cooldown s
    /\ recovery_cycles st' = 0%nat.
Proof.
  induction inputs as [|inp inputs IH]; intros st Hrun Hact Hcount.
  - cbn [app confirming_run] in Hrun. cbn [app length] in *.
    apply andb_true_iff in Hrun as [Hconf _].
    destruct (confirming_true s last st c Hact Hconf) as (Hreach & Hdr & Hin).
    rewrite run_cons. cbn [run fold_left].
    destruct (recovery_cycle s last st c Hreach Hact Hdr) as (Hdone & _ & _).
    apply Hdone; [exact Hin|lia].
  - cbn [app confirming_run] in Hrun. cbn [length] in Hcount.
    apply andb_true_iff in Hrun as [Hconf Hrest].
    destruct (confirming_true s inp st c Hact Hconf) as (Hreach & Hdr & Hin).
    destruct (recovery_cycle s inp st c Hreach Hact Hdr) as (_ & Hmore & _).
    destruct (Hmore Hin ltac:(lia)) as [Hcycles Hact'].
    cbn [app]. rewrite run_cons.
    apply IH; [exact Hrest|exact Hact'|lia].
Qed.

(** A cycle in which a dimension drifts does not touch the recovery
    counter. *)
Lemma recovery_cycles_kept (s : settings) (inp : cycle_input)
  (st : chat_state) :
  cycle_drifting sqrt_log2 s inp st <> [] ->
  recovery_cycles (score_and_process_message sqrt_log2 s inp st)
  = recovery_cycles st.
Proof.
  intros Hdr.
  destruct (reaches_controller s inp st) eqn:Hreach;
    [|apply (cycle_outside_controller s inp st Hreach)].
  rewrite (cycle_through_controller s inp st Hreach).
  rewrite cycle_drifting_unfold in Hdr.
  destruct (controller_state_keeps s inp st) as (_ & _ & <- & _).
  revert Hdr. generalize (controller_state sqrt_log2 s inp st).
  intros st1 Hdr. unfold controller.
  pose proof (tracked_control s (drift_state st1) st1) as Hctl.
  set (st2 := track_ever_triggered _ _) in *. clearbody st2.
  unfold control_fields in Hctl. injection Hctl as _ _ _ _ <- _ _ _ _ _ _.
  destruct (snd (detect_drifting s (drift_state st1) st1)) as [|d dr];
    [contradiction Hdr; reflexivity|].
  unfold decide_correction.
  destruct (0 <? cooldown_remaining st2)%nat; [reflexivity|].
  match goal with
  | |- context [finish_cycle s ?dft ?r] =>
      destruct (finish_cycle_frame s dft r) as (ceiling & -> & _)
  end.
  change (recovery_cycles (set_ceiling_dimensions ceiling ?x))
    with (recovery_cycles x).
  destruct (active_correction st2) as [c0|]; [|branch_end; reflexivity].
  pose proof (evaluate_correction_outcome s inp (drift_state st1) (d :: dr)
                c0 st2) as Hout.
  set (c := count_scored inp c0) in *. clearbody c.
  set (st3 := set_active_correction (Some c) st2) in *.
  change (recovery_cycles st2) with (recovery_cycles st3). clearbody st3.
  destruct Hout as [| |w|w Ha|Ha]; try reflexivity.
  - unfold retire_correction.
    pose proof (mark_recovered_control (dim_ids c) st3) as H.
    unfold control_fields in H. injection H as _ _ _ _ H _ _ _ _ _ _.
    destruct (without (dim_ids c) (d :: dr)); [|branch_end]; exact H.
  - branch_end; reflexivity.
  - unfold reach_ceiling.
    destruct (without (dim_ids c) (d :: dr)); [|branch_end]; reflexivity.
Qed.

(** C4, amended: once every corrected dimension is within the
    recovery tolerance in [recovery_patience] consecutive confirming cycles
    (cycles without a drifting dimension), counted from a recovery counter
    of 0, the injection is cleared, the correction disabled, each corrected
    dimension gets a CUSUM reset marker at the last scored message and the
    cooldown is set; a cycle without a drifting dimension in which some
    corrected dimension is out of tolerance puts the counter back to 0; and
    a cycle with a drifting dimension leaves the counter as it is. *)
Theorem recovery_confirmed (s : settings) :
  (forall (inputs : list cycle_input) (last : cycle_input) (c : correction)
          (st : chat_state),
     confirming_run sqrt_log2 s (inputs ++ [last]) st = true ->
     active_correction st = Some c ->
     (recovery_cycles st + length inputs + 1 = recovery_patience s)%nat ->
     let st' := run sqrt_log2 s (inputs ++ [last]) st in
     correction_prompt st' = "" /\ active_correction st' = None
     /\ (forall id, id ∈ dim_ids c ->
         cusum_reset_after st' !! id = Some (message_index last))
     /\ cooldown_remaining st' = correction_cooldown s
     /\ recovery_cycles st' = 0%nat)
  /\ (forall (inp : cycle_input) (c : correction) (st : chat_state),
       reaches_controller s inp st = true ->
       active_correction st = Some c ->
       cycle_drifting sqrt_log2 s inp st = [] ->
       all_within_tolerance s (controller_state sqrt_log2 s inp st)
         (drift_state (controller_state sqrt_log2 s inp st)) c = false ->
       recovery_cycles (score_and_process_message sqrt_log2 s inp st) = 0%nat)
  /\ (forall (inp : cycle_input) (st : chat_state),
       cycle_drifting sqrt_log2 s inp st <> [] ->
       recovery_cycles (score_and_process_message sqrt_log2 s inp st)
       = recovery_cycles st).
Proof.
  split; [|split].
  - intros inputs last c st. apply recovery_after_confirming_run.
  - intros inp c st Hreach Hact Hdr Hout.
    destruct (recovery_cycle s inp st c Hreach Hact Hdr) as (_ & _ & Hreset).
    apply Hreset, Hout.
  - intros inp st. apply recovery_cycles_kept.
Qed.

End ControllerFacts.

(** ** The controller on a session with one dimension *)

(** C3 fails as stated: after a recovery the cooldown is 2; the next cycle
    is processed, finds no drifting dimension, and leaves the cooldown at
    2. *)
Lemma cooldown_kept_without_drift :
  let st12 := warmth_run 0 [0.25; 0.25; 0.25; 0.25; 0; 1; 0; 0; 0; 0; 0; 0] in
  let st13 :=
    score_and_process_message unit_factor DEFAULT_SETTINGS (warmth_input 13 0)
      st12 in
  cooldown_remaining st12 = 2%nat
  /\ reaches_controller DEFAULT_SETTINGS (warmth_input 13 0) st12 = true
  /\ messages_scored st13 = 13%nat
  /\ cycle_drifting unit_factor DEFAULT_SETTINGS (warmth_input 13 0) st12 = []
  /\ cooldown_remaining st13 = 2%nat.
Proof. vm_compute. repeat split; reflexivity. Qed.

(** C4 fails as stated: with one confirming cycle counted, a cycle in which
    the corrected dimension is far out of tolerance and drifting leaves the
    recovery counter at 1. *)
Lemma recovery_cycles_kept_while_drifting :
  let st5 := warmth_run 0 [0.25; 0.25; 0.25; 0.25; 0] in
  let inp := warmth_input 6 1 in
  let st6 := score_and_process_message unit_factor DEFAULT_SETTINGS inp st5 in
  recovery_cycles st5 = 1%nat
  /\ (dim_ids <$> active_correction st5) = Some ["warmth"]
  /\ reaches_controller DEFAULT_SETTINGS inp st5 = true
  /\ (all_within_tolerance DEFAULT_SETTINGS st6 (drift_state st6)
        <$> active_correction st5) = Some false
  /\ cycle_drifting unit_factor DEFAULT_SETTINGS inp st5 = ["warmth"]
  /\ recovery_cycles st6 = 1%nat.
Proof. vm_compute. repeat split; reflexivity. Qed.


(** The release of a ceilinged dimension carries the tolerance
    [FLOAT_EPSILON]: with the target 0.2995 the dimension leaves
    [ceiling_dimensions] at the deviation 0.2005, above the threshold 0.20,
    the model being the same. *)
Lemma ceiling_released_within_tolerance :
  let scores :=
    [0.5; 0.5; 0.5; 0.5; 0.75; 0.75; 1; 1; 1;
     0.5; 0.5; 0.5; 0.5; 0.5; 0.5; 0.5] in
  let st16 := warmth_run 0.2995 scores in
  let inp17 := warmth_input 17 0.5 in
  let st17 := score_and_process_message unit_factor DEFAULT_SETTINGS inp17 st16 in
  ceiling_dimensions st16 = ["warmth"]
  /\ ceiling_dimensions st17 = []
  /\ ceiling_model st16 = Some (current_model inp17)
  /\ ((fun d => Qred <$> deviation d) <$> obj_get "warmth" (drift_state st17))
     = Some (Some (401 # 2000))
  /\ Qltb (drift_threshold DEFAULT_SETTINGS) (401 # 2000) = true.
Proof. vm_compute. repeat split; reflexivity. Qed.

(** C9 fails as stated: in cycles 1 to 3 the deviation of the dimension is
    0.25, above the threshold 0.20, the dimension is not ceilinged and CUSUM
    has not fired, yet the third cycle does not classify it as drifting:
    the first cycle had a single score (trend [insufficient_data]) and did
    not count. *)
Lemma no_fallback_after_three_cycles :
  let st1 := warmth_run 0.5 [0.75] in
  let st2 := warmth_run 0.5 [0.75; 0.75] in
  let st3 := warmth_run 0.5 [0.75; 0.75; 0.75] in
  let facts st :=
    ((fun d => (Qred <$> deviation d, correcting d))
       <$> obj_get "warmth" (drift_state st),
     ceiling_dimensions st) in
  Qltb (drift_threshold DEFAULT_SETTINGS) 0.25 = true
  /\ facts st1 = (Some (Some (1 # 4), false), [])
  /\ facts st2 = (Some (Some (1 # 4), false), [])
  /\ facts st3 = (Some (Some (1 # 4), false), [])
  /\ cycle_drifting unit_factor DEFAULT_SETTINGS (warmth_input 3 0.75) st2 = []
  /\ active_correction st3 = None
  /\ ma_consecutive_above st3 !! "warmth" = Some 2%nat.
Proof. vm_compute. repeat split; reflexivity. Qed.

Lemma cooldown_suppresses_corrections_witness :
  let st12 := warmth_run 0 [0.25; 0.25; 0.25; 0.25; 0; 1; 0; 0; 0; 0; 0; 0] in
  let inp := warmth_input 13 1 in
  let st13 := score_and_process_message unit_factor DEFAULT_SETTINGS inp st12 in
  (0 < cooldown_remaining st12)%nat
  /\ reaches_controller DEFAULT_SETTINGS inp st12 = true
  /\ cycle_drifting unit_factor DEFAULT_SETTINGS inp st12 <> []
  /\ corrections_injected st13 = corrections_injected st12
  /\ cooldown_remaining st13 = Nat.pred (cooldown_remaining st12).
Proof.
  intros st12 inp st13.
  assert (H1 : (0 < cooldown_remaining st12)%nat) by (vm_compute; lia).
  assert (H2 : reaches_controller DEFAULT_SETTINGS inp st12 = true)
    by (vm_compute; reflexivity).
  assert (H3 : cycle_drifting unit_factor DEFAULT_SETTINGS inp st12 <> [])
    by (vm_compute; discriminate).
  destruct (cooldown_suppresses_corrections unit_factor DEFAULT_SETTINGS inp
              st12 H1) as (K1 & _ & _ & K4 & _).
  split; [exact H1|]. split; [exact H2|]. split; [exact H3|].
  split; [exact K1|]. exact (K4 H2 H3).
Defined.

Lemma recovery_confirmed_witness :
  let st10 := warmth_run 0 [0.25; 0.25; 0.25; 0.25; 0; 1; 0; 0; 0; 0] in
  let inputs := [warmth_input 11 0] in
  let last := warmth_input 12 0 in
  let st12 := run unit_factor DEFAULT_SETTINGS (inputs ++ [last]) st10 in
  confirming_run unit_factor DEFAULT_SETTINGS (inputs ++ [last]) st10 = true
  /\ active_correction st10 = Some (warmth_correction st10)
  /\ (recovery_cycles st10 + length inputs + 1
      = recovery_patience DEFAULT_SETTINGS)%nat
  /\ active_correction st12 = None
  /\ cooldown_remaining st12 = 2%nat
  /\ cusum_reset_after st12 !! "warmth" = Some 12%nat
  /\ (let st5 := warmth_run 0 [0.25; 0.25; 0.25; 0.25; 0] in
      cycle_drifting unit_factor DEFAULT_SETTINGS (warmth_input 6 1) st5 <> []
      /\ recovery_cycles st5 = 1%nat
      /\ recovery_cycles
           (score_and_process_message unit_factor DEFAULT_SETTINGS
              (warmth_input 6 1) st5)
         = 1%nat).
Proof.
  intros st10 inputs last st12.
  assert (H4 : cycle_drifting unit_factor DEFAULT_SETTINGS (warmth_input 6 1)
                 (warmth_run 0 [0.25; 0.25; 0.25; 0.25; 0]) <> [])
    by (vm_compute; discriminate).
  assert (H5 : recovery_cycles (warmth_run 0 [0.25; 0.25; 0.25; 0.25; 0])
               = 1%nat) by (vm_compute; reflexivity).
  assert (H1 : confirming_run unit_factor DEFAULT_SETTINGS (inputs ++ [last])
                 st10 = true) by (vm_compute; reflexivity).
  assert (H2 : active_correction st10 = Some (warmth_correction st10))
    by (vm_compute; reflexivity).
  assert (H3 : (recovery_cycles st10 + length inputs + 1
                = recovery_patience DEFAULT_SETTINGS)%nat)
    by (vm_compute; reflexivity).
  destruct (proj1 (recovery_confirmed unit_factor DEFAULT_SETTINGS)
              inputs last _ _ H1 H2 H3)
    as (_ & K2 & K3 & K4 & _).
  split; [exact H1|]. split; [exact H2|]. split; [exact H3|].
  split; [exact K2|]. split; [exact K4|].
  split; [apply K3; vm_compute; left|].
  intros st5. split; [exact H4|]. split; [exact H5|].
  rewrite (proj2 (proj2 (recovery_confirmed unit_factor DEFAULT_SETTINGS))
             (warmth_input 6 1) st5 H4).
  exact H5.
Defined.

(** ** The moving-average fallback *)

Lemma includes_true (l : list string) (id : string) :
  includes l id = true <-> id ∈ l.
Proof. unfold includes. apply bool_decide_eq_true. Qed.

Lemma includes_false (l : list string) (id : string) :
  includes l id = false <-> id ∉ l.
Proof. unfold includes. apply bool_decide_eq_false. Qed.

Lemma ma_above_true (threshold : Q) (d : drift_entry) :
  ma_above threshold d = true <->
  exists dev, deviation d = Some dev /\ threshold < dev
              /\ trend d <> T_no_data /\ trend d <> T_insufficient_data.
Proof.
  unfold ma_above. split.
  - destruct (deviation d) as [dev|]; [|discriminate].
    intros H. apply andb_true_iff in H as [H1 H2]. apply Qltb_true in H1.
    exists dev. destruct (trend d); try discriminate; repeat split; auto;
      discriminate.
  - intros (dev & -> & Hlt & Hn & Hi). apply andb_true_iff. split.
    + apply Qltb_true, Hlt.
    + destruct (trend d); try reflexivity; contradiction.
Qed.

(** An entry of another dimension touches neither the counter nor the
    classification of [id]. *)
Lemma ma_fallback_step_other (threshold : Q) (ceiling cusum_ids : list string)
  (acc : gmap string nat * list drifting_item) (e : string * drift_entry)
  (id : string) :
  fst e <> id ->
  fst (ma_fallback_step threshold ceiling cusum_ids acc e) !! id = fst acc !! id
  /\ (id ∈ map dd_id (snd (ma_fallback_step threshold ceiling cusum_ids acc e))
      <-> id ∈ map dd_id (snd acc)).
Proof.
  intros Hne. unfold ma_fallback_step.
  destruct (includes ceiling (fst e) || includes cusum_ids (fst e)).
  - cbn [fst snd]. rewrite lookup_insert_ne by exact Hne. tauto.
  - destruct (MA_CONSECUTIVE_REQUIRED <=? _)%nat; cbn [fst snd];
      rewrite lookup_insert_ne by exact Hne; split; try reflexivity.
    rewrite map_app, elem_of_app. cbn [map dd_id].
    rewrite list_elem_of_singleton. split; [intros [H|H]|]; auto.
    congruence.
Qed.

Lemma ma_fallback_fold_other (threshold : Q) (ceiling cusum_ids : list string)
  (id : string) (l : list (string * drift_entry)) :
  forall acc : gmap string nat * list drifting_item,
    id ∉ map fst l ->
    fst (fold_left (ma_fallback_step threshold ceiling cusum_ids) l acc) !! id
    = fst acc !! id
    /\ (id ∈ map dd_id
               (snd (fold_left (ma_fallback_step threshold ceiling cusum_ids)
                       l acc))
        <-> id ∈ map dd_id (snd acc)).
Proof.
  induction l as [|e l IH]; intros acc Hnot; [cbn; tauto|].
  cbn [fold_left]. cbn [map] in Hnot.
  apply not_elem_of_cons in Hnot as [Hne Hnot].
  destruct (IH (ma_fallback_step threshold ceiling cusum_ids acc e) Hnot)
    as [H1 H2].
  destruct (ma_fallback_step_other threshold ceiling cusum_ids acc e id)
    as [H3 H4]; [congruence|].
  rewrite H1, H2, H3, H4. tauto.
Qed.

(** The entry of the dimension itself. *)
Lemma ma_fallback_step_self (threshold : Q) (ceiling cusum_ids : list string)
  (acc : gmap string nat * list drifting_item) (id : string) (d : drift_entry) :
  let acc' := ma_fallback_step threshold ceiling cusum_ids acc (id, d) in
  (id ∈ ceiling \/ id ∈ cusum_ids ->
   fst acc' !! id = Some 0%nat /\ snd acc' = snd acc)
  /\ (id ∉ ceiling -> id ∉ cusum_ids -> ma_above threshold d = true ->
      fst acc' !! id = Some (S (default 0%nat (fst acc !! id)))
      /\ ((2 <= default 0%nat (fst acc !! id))%nat ->
          id ∈ map dd_id (snd acc')))
  /\ (id ∉ ceiling -> id ∉ cusum_ids -> ma_above threshold d = false ->
      fst acc' !! id = Some 0%nat /\ snd acc' = snd acc).
Proof.
  cbv zeta. unfold ma_fallback_step. cbn [fst snd].
  destruct (includes ceiling id) eqn:Ec;
    [apply includes_true in Ec|apply includes_false in Ec];
  (destruct (includes cusum_ids id) eqn:Eu;
    [apply includes_true in Eu|apply includes_false in Eu]);
  cbn [orb fst snd];
  try (split; [intros _; split; [apply lookup_insert_eq|reflexivity]|];
       split; intros; contradiction).
  split; [intros [?|?]; contradiction|].
  destruct (ma_above threshold d).
  - split; [|intros _ _ ?; discriminate]. intros _ _ _.
    destruct (Nat.leb_spec MA_CONSECUTIVE_REQUIRED
                (S (default 0%nat (acc.1 !! id)))) as [Hle|Hlt];
      cbn [fst snd]; (split; [apply lookup_insert_eq|]).
    + intros _. rewrite map_app, elem_of_app. right. cbn. left.
    + unfold MA_CONSECUTIVE_REQUIRED in Hlt. intros ?. lia.
  - split; [intros _ _ ?; discriminate|]. intros _ _ _.
    cbn [Nat.leb MA_CONSECUTIVE_REQUIRED fst snd].
    split; [apply lookup_insert_eq|reflexivity].
Qed.

Lemma cusum_drifting_ids (drift : list (string * drift_entry))
  (ceiling : list string) (id : string) :
  id ∈ map dd_id (cusum_drifting drift ceiling)
  <-> exists d, (id, d) ∈ drift /\ correcting d = true /\ id ∉ ceiling.
Proof.
  unfold cusum_drifting. rewrite map_map. cbn [dd_id].
  rewrite list_elem_of_In, in_map_iff. split.
  - intros ([k d] & <- & Hin). apply filter_In in Hin as [Hin Hf].
    cbn [fst snd] in *. apply andb_true_iff in Hf as [Hc Hn].
    exists d. split; [apply list_elem_of_In, Hin|]. split; [exact Hc|].
    apply includes_false. apply negb_true_iff, Hn.
  - intros (d & Hin & Hc & Hn). exists (id, d). split; [reflexivity|].
    apply filter_In. split; [apply list_elem_of_In, Hin|].
    cbn [fst snd]. rewrite Hc. apply includes_false in Hn. rewrite Hn.
    reflexivity.
Qed.



Lemma keys_split (drift : list (string * drift_entry)) (id : string)
  (d : drift_entry) :
  NoDup (map fst drift) -> (id, d) ∈ drift ->
  exists l1 l2, drift = l1 ++ ((id, d) :: l2)
                /\ (id ∉ map fst l1) /\ (id ∉ map fst l2).
Proof.
  intros Hnd Hin. apply list_elem_of_split in Hin as (l1 & l2 & ->).
  exists l1, l2. split; [reflexivity|].
  rewrite map_app in Hnd. cbn [map fst] in Hnd.
  apply NoDup_app in Hnd as (_ & Hdisj & Hnd2).
  apply NoDup_cons in Hnd2 as [Hn2 _]. split; [|exact Hn2].
  intros Hin1. apply (Hdisj id Hin1). left.
Qed.

Lemma keys_unique (drift : list (string * drift_entry)) (id : string)
  (d d' : drift_entry) :
  NoDup (map fst drift) -> (id, d) ∈ drift -> (id, d') ∈ drift -> d' = d.
Proof.
  intros Hnd Hin Hin'.
  destruct (keys_split drift id d Hnd Hin) as (l1 & l2 & -> & Hn1 & Hn2).
  apply elem_of_app in Hin' as [H|H].
  - exfalso. apply Hn1. apply list_elem_of_fmap. exists (id, d'). auto.
  - apply elem_of_cons in H as [H|H]; [congruence|].
    exfalso. apply Hn2. apply list_elem_of_fmap. exists (id, d'). auto.
Qed.

(** What one run of the fallback loop does to one dimension. *)
Lemma detect_drifting_dimension (s : settings)
  (drift : list (string * drift_entry)) (st : chat_state) (id : string)
  (d : drift_entry) :
  NoDup (map fst drift) -> (id, d) ∈ drift ->
  let det := detect_drifting s drift st in
  let before := default 0%nat (ma_consecutive_above st !! id) in
  (id ∈ ceiling_dimensions st \/ correcting d = true ->
   fst det !! id = Some 0%nat)
  /\ (id ∉ ceiling_dimensions st -> correcting d = false ->
      ma_above (drift_threshold s) d = true ->
      fst det !! id = Some (S before)
      /\ ((2 <= before)%nat -> id ∈ map dd_id (snd det)))
  /\ (id ∉ ceiling_dimensions st -> correcting d = false ->
      ma_above (drift_threshold s) d = false ->
      fst det !! id = Some 0%nat /\ id ∉ map dd_id (snd det)).
Proof.
  intros Hnd Hin. cbv zeta.
  destruct (keys_split drift id d Hnd Hin) as (l1 & l2 & E & Hn1 & Hn2).
  unfold detect_drifting.
  set (ceiling := ceiling_dimensions st).
  set (by_cusum := cusum_drifting drift ceiling).
  set (step := ma_fallback_step (drift_threshold s) ceiling
                 (map dd_id by_cusum)).
  assert (Hcus : id ∈ map dd_id by_cusum
                 <-> correcting d = true /\ id ∉ ceiling).
  { unfold by_cusum. rewrite cusum_drifting_ids. split.
    - intros (d' & Hin' & Hc & Hn).
      rewrite (keys_unique drift id d d' Hnd Hin Hin') in Hc. auto.
    - intros [Hc Hn]. exists d. auto. }
  clearbody by_cusum. rewrite E. rewrite fold_left_app. cbn [fold_left].
  set (acc1 := fold_left step l1 (ma_consecutive_above st, by_cusum)).
  destruct (ma_fallback_fold_other (drift_threshold s) ceiling
              (map dd_id by_cusum) id l1 (ma_consecutive_above st, by_cusum)
              Hn1) as [A1 A2].
  fold step in A1, A2. fold acc1 in A1, A2. cbn [fst snd] in A1, A2.
  destruct (ma_fallback_fold_other (drift_threshold s) ceiling
              (map dd_id by_cusum) id l2 (step acc1 (id, d)) Hn2) as [B1 B2].
  fold step in B1, B2. rewrite B1, B2.
  destruct (ma_fallback_step_self (drift_threshold s) ceiling
              (map dd_id by_cusum) acc1 id d) as (S1 & S2 & S3).
  fold step in S1, S2, S3. cbv zeta in S1, S2, S3. rewrite A1 in S2.
  split; [|split].
  - intros [Hc|Hc].
    + apply S1. left. exact Hc.
    + destruct (decide (id ∈ ceiling)) as [Hin'|Hnin].
      * apply S1. left. exact Hin'.
      * apply S1. right. apply Hcus. auto.
  - intros Hnc Hcor Habove. apply S2; auto.
    rewrite Hcus. intros [Hc _]. congruence.
  - intros Hnc Hcor Hbelow.
    assert (Hnu : id ∉ map dd_id by_cusum)
      by (rewrite Hcus; intros [Hc _]; congruence).
    destruct (S3 Hnc Hnu Hbelow) as [T1 T2]. split; [exact T1|].
    rewrite T2, A2. exact Hnu.
Qed.

Lemma obj_set_keys {A : Type} (k : string) (v : A) (o : list (string * A)) :
  (forall k', k' ∈ map fst (obj_set k v o) <-> k' = k \/ k' ∈ map fst o)
  /\ (NoDup (map fst o) -> NoDup (map fst (obj_set k v o))).
Proof.
  induction o as [|[k0 v0] o [IH1 IH2]]; cbn [obj_set].
  - split.
    + intros k'. cbn. rewrite list_elem_of_singleton, elem_of_nil. tauto.
    + intros _. cbn. apply NoDup_singleton.
  - destruct (bool_decide_reflect (k = k0)) as [->|Hne]; cbn [map fst].
    + split; [|tauto]. intros k'. rewrite !elem_of_cons. tauto.
    + split.
      * intros k'. rewrite !elem_of_cons, IH1. tauto.
      * intros Hnd. apply NoDup_cons in Hnd as [Hn Hnd].
        apply NoDup_cons. split; [|apply IH2, Hnd].
        rewrite IH1. intros [E|Hin]; [congruence|contradiction].
Qed.

Lemma update_drift_state_keys (sqrt_log2 : nat -> Q) (s : settings)
  (dims : list dimension) (history : list score_entry)
  (reset_after : gmap string nat) :
  NoDup (map fst (update_drift_state sqrt_log2 s dims history reset_after)).
Proof.
  unfold update_drift_state.
  generalize (length dims). intros n.
  assert (H : NoDup (map fst ([] : list (string * drift_entry))))
    by apply NoDup_nil_2.
  revert H. generalize ([] : list (string * drift_entry)).
  induction dims as [|dim dims IH]; intros o Ho; cbn [fold_left];
    [exact Ho|].
  apply IH. apply obj_set_keys, Ho.
Qed.

(** ** The fallback counter from one cycle to the next *)

Lemma mark_recovered_counter (id : string) (ids : list string) :
  forall st : chat_state,
    ma_consecutive_above (mark_recovered ids st) !! id
    = ma_consecutive_above st !! id
    \/ ma_consecutive_above (mark_recovered ids st) !! id = Some 0%nat.
Proof.
  unfold mark_recovered.
  induction ids as [|id0 ids IH]; intros st; [left; reflexivity|].
  cbn [fold_left].
  destruct (IH (set_ma_consecutive_above
                  (<[id0:=0%nat]> (ma_consecutive_above st))
                  (set_cusum_reset_after
                     match last_scored_message_id st with
                     | Some m => <[id0:=m]> (cusum_reset_after st)
                     | None => delete id0 (cusum_reset_after st)
                     end st))) as [H|H]; [|right; exact H].
  rewrite H. cbn.
  destruct (decide (id0 = id)) as [->|Hne].
  - right. apply lookup_insert_eq.
  - left. apply lookup_insert_ne, Hne.
Qed.

Lemma confirm_recovery_counter (s : settings)
  (drift : list (string * drift_entry)) (c : correction) (st : chat_state)
  (id : string) :
  ma_consecutive_above (confirm_recovery s drift c st) !! id
  = ma_consecutive_above st !! id
  \/ ma_consecutive_above (confirm_recovery s drift c st) !! id = Some 0%nat.
Proof.
  unfold confirm_recovery.
  destruct (all_within_tolerance s st drift c);
    [destruct (recovery_patience s <=? S (recovery_cycles st))%nat|];
    try (left; reflexivity).
  cbn.
  exact (mark_recovered_counter id (dim_ids c)
           (set_recovery_cycles (S (recovery_cycles st)) st)).
Qed.

Lemma evaluate_correction_counter (s : settings) (inp : cycle_input)
  (drift : list (string * drift_entry)) (dr : list drifting_item)
  (c0 : correction) (st : chat_state) (id : string) :
  ma_consecutive_above (state_of (evaluate_correction s inp drift dr c0 st)) !! id
  = ma_consecutive_above st !! id
  \/ ma_consecutive_above (state_of (evaluate_correction s inp drift dr c0 st))
       !! id
     = Some 0%nat.
Proof.
  destruct (evaluate_correction_outcome s inp drift dr c0 st)
    as [| |w|w Ha|Ha]; try (left; reflexivity).
  - unfold retire_correction.
    destruct (without (dim_ids (count_scored inp c0)) dr); [|branch_end];
      exact (mark_recovered_counter id (dim_ids (count_scored inp c0))
               (set_active_correction (Some (count_scored inp c0)) st)).
  - branch_end; left; reflexivity.
  - unfold reach_ceiling.
    destruct (without (dim_ids (count_scored inp c0)) dr); [|branch_end];
      left; reflexivity.
Qed.

Lemma decide_correction_counter (s : settings) (inp : cycle_input)
  (drift : list (string * drift_entry)) (dr : list drifting_item)
  (st : chat_state) (id : string) :
  ma_consecutive_above (decide_correction s inp drift dr st) !! id
  = ma_consecutive_above st !! id
  \/ ma_consecutive_above (decide_correction s inp drift dr st) !! id
     = Some 0%nat.
Proof.
  unfold decide_correction. destruct dr as [|d dr].
  - destruct (active_correction st) as [c|]; [|left; reflexivity].
    exact (confirm_recovery_counter s drift c st id).
  - destruct (0 <? cooldown_remaining st)%nat; [left; reflexivity|].
    match goal with
    | |- context [finish_cycle s drift ?r] =>
        destruct (finish_cycle_frame s drift r) as (ceiling & -> & _)
    end.
    change (ma_consecutive_above (set_ceiling_dimensions ceiling ?x))
      with (ma_consecutive_above x).
    destruct (active_correction st) as [c|].
    + exact (evaluate_correction_counter s inp drift (d :: dr) c st id).
    + branch_end; left; reflexivity.
Qed.

(** After a cycle the counter of a dimension is the one the fallback loop
    computed, unless a recovery of the dimension cleared it. *)
Lemma cycle_counter (sqrt_log2 : nat -> Q) (s : settings) (inp : cycle_input)
  (st : chat_state) (id : string) :
  reaches_controller s inp st = true ->
  let st1 := controller_state sqrt_log2 s inp st in
  let st' := score_and_process_message sqrt_log2 s inp st in
  ma_consecutive_above st1 = ma_consecutive_above st
  /\ (ma_consecutive_above st' !! id
      = fst (detect_drifting s (drift_state st1) st1) !! id
      \/ ma_consecutive_above st' !! id = Some 0%nat).
Proof.
  intros Hreach. cbv zeta.
  rewrite (cycle_through_controller sqrt_log2 s inp st Hreach).
  destruct (controller_state_keeps sqrt_log2 s inp st)
    as (_ & _ & _ & _ & _ & _ & Hma & _). cbv zeta in Hma.
  split; [exact Hma|]. clear Hma.
  generalize (controller_state sqrt_log2 s inp st). intros st1.
  unfold controller.
  destruct (track_ever_triggered_ma
              (snd (detect_drifting s (drift_state st1) st1))
              (set_ma_consecutive_above
                 (fst (detect_drifting s (drift_state st1) st1)) st1))
    as [Hma _].
  cbn in Hma.
  destruct (decide_correction_counter s inp (drift_state st1)
              (snd (detect_drifting s (drift_state st1) st1))
              (track_ever_triggered
                 (snd (detect_drifting s (drift_state st1) st1))
                 (set_ma_consecutive_above
                    (fst (detect_drifting s (drift_state st1) st1)) st1)) id)
    as [H|H]; [left|right; exact H].
  rewrite H, Hma. reflexivity.
Qed.

(** C9, amended: a dimension that counts in three consecutive runs of the
    fallback loop (not ceilinged, CUSUM not fired, deviation above the
    threshold with a trend other than [no_data] and [insufficient_data]),
    its counter being carried from one run to the next, is classified as
    drifting by the third run; and the counter of a dimension is 0 after a
    run in which it is ceilinged, CUSUM fired for it, or it is not above the
    threshold with such a trend. *)
Theorem fallback_after_three_cycles (s : settings) (id : string) :
  (forall (drift1 drift2 drift3 : list (string * drift_entry))
          (st1 st2 st3 : chat_state) (d1 d2 d3 : drift_entry),
     fallback_counts s id drift1 st1 d1 ->
     fallback_counts s id drift2 st2 d2 ->
     fallback_counts s id drift3 st3 d3 ->
     ma_consecutive_above st2 !! id = fst (detect_drifting s drift1 st1) !! id ->
     ma_consecutive_above st3 !! id = fst (detect_drifting s drift2 st2) !! id ->
     id ∈ map dd_id (snd (detect_drifting s drift3 st3)))
  /\ (forall (drift : list (string * drift_entry)) (st : chat_state)
             (d : drift_entry),
       NoDup (map fst drift) -> (id, d) ∈ drift ->
       id ∈ ceiling_dimensions st \/ correcting d = true
       \/ ma_above (drift_threshold s) d = false ->
       fst (detect_drifting s drift st) !! id = Some 0%nat).
Proof.
  split.
  - intros drift1 drift2 drift3 st1 st2 st3 d1 d2 d3
      (N1 & I1 & C1 & K1 & A1) (N2 & I2 & C2 & K2 & A2)
      (N3 & I3 & C3 & K3 & A3) E2 E3.
    destruct (detect_drifting_dimension s drift1 st1 id d1 N1 I1)
      as (_ & F1 & _).
    destruct (detect_drifting_dimension s drift2 st2 id d2 N2 I2)
      as (_ & F2 & _).
    destruct (detect_drifting_dimension s drift3 st3 id d3 N3 I3)
      as (_ & F3 & _).
    destruct (F1 C1 K1 A1) as [G1 _]. destruct (F2 C2 K2 A2) as [G2 _].
    destruct (F3 C3 K3 A3) as [_ G3].
    apply G3. rewrite E3, G2. simpl. rewrite E2, G1. simpl. lia.
  - intros drift st d Hnd Hin Hcase.
    destruct (detect_drifting_dimension s drift st id d Hnd Hin)
      as (F1 & _ & F3).
    destruct (decide (id ∈ ceiling_dimensions st)) as [Hc|Hnc];
      [apply F1; left; exact Hc|].
    destruct (correcting d) eqn:Ec; [apply F1; right; reflexivity|].
    destruct Hcase as [Hc|[Hc|Hb]]; [contradiction|discriminate|].
    apply F3; auto.
Qed.

Lemma fallback_after_three_cycles_witness :
  let cs k :=
    controller_state unit_factor DEFAULT_SETTINGS (warmth_input k 0.75)
      (warmth_run 0.5 (repeat 0.75 (Nat.pred k))) in
  let counts k :=
    fallback_counts DEFAULT_SETTINGS "warmth" (drift_state (cs k)) (cs k)
      (warmth_drift (cs k)) in
  counts 2%nat /\ counts 3%nat /\ counts 4%nat
  /\ "warmth" ∈ map dd_id
        (snd (detect_drifting DEFAULT_SETTINGS (drift_state (cs 4%nat))
                (cs 4%nat))).
Proof.
  intros cs counts.
  assert (Hc : forall k, (k = 2 \/ k = 3 \/ k = 4)%nat -> counts k).
  { intros k Hk. unfold counts, fallback_counts.
    split; [apply update_drift_state_keys|].
    destruct Hk as [-> | [-> | ->]]; vm_compute;
      (split; [left|]); (split; [|split; reflexivity]);
      intros H; inversion H. }
  assert (H2 : counts 2%nat) by (apply Hc; auto).
  assert (H3 : counts 3%nat) by (apply Hc; auto).
  assert (H4 : counts 4%nat) by (apply Hc; auto).
  split; [exact H2|]. split; [exact H3|]. split; [exact H4|].
  apply (proj1 (fallback_after_three_cycles DEFAULT_SETTINGS "warmth")
           _ _ _ _ _ _ _ _ _ H2 H3 H4); vm_compute; reflexivity.
Defined.

(** ** The ceiling *)

Lemma uniq_from_elem (seen l : list string) (id : string) :
  id ∈ uniq_from seen l <-> id ∈ l /\ id ∉ seen.
Proof.
  revert seen. induction l as [|x l IH]; intros seen; cbn [uniq_from].
  - rewrite !elem_of_nil. tauto.
  - destruct (bool_decide_reflect (x ∈ seen)) as [Hin|Hnin].
    + rewrite IH, elem_of_cons. split; [tauto|].
      intros [[->|H] Hn]; [contradiction|tauto].
    + rewrite !elem_of_cons, IH, elem_of_cons.
      destruct (decide (id = x)) as [->|Hne]; tauto.
Qed.

Lemma uniq_elem (l : list string) (id : string) : id ∈ uniq l <-> id ∈ l.
Proof.
  unfold uniq. rewrite uniq_from_elem, elem_of_nil. tauto.
Qed.

Lemma count_scored_dim_ids (inp : cycle_input) (c0 : correction) :
  dim_ids (count_scored inp c0) = dim_ids c0.
Proof. unfold count_scored. destruct (existsb _ _); reflexivity. Qed.

Lemma without_elem (ids : list string) (dr : list drifting_item)
  (id : string) :
  id ∈ map dd_id (without ids dr) <-> id ∈ map dd_id dr /\ id ∉ ids.
Proof.
  unfold without. split.
  - intros H. apply list_elem_of_In, in_map_iff in H as (x & <- & Hin).
    apply filter_In in Hin as [Hin Hf]. split.
    + apply list_elem_of_In, in_map_iff. exists x. auto.
    + apply includes_false, negb_true_iff, Hf.
  - intros [H Hn]. apply list_elem_of_In, in_map_iff in H as (x & <- & Hin).
    apply list_elem_of_In, in_map_iff. exists x. split; [reflexivity|].
    apply filter_In. split; [exact Hin|].
    apply negb_true_iff, includes_false, Hn.
Qed.

Lemma release_recovered_elem (s : settings)
  (drift : list (string * drift_entry)) (st : chat_state) (id : string) :
  id ∈ ceiling_dimensions (release_recovered_ceiling s drift st)
  <-> id ∈ ceiling_dimensions st /\ naturally_recovered s drift id = false.
Proof.
  unfold release_recovered_ceiling. cbn. split.
  - intros H. apply list_elem_of_In, filter_In in H as [H Hf].
    split; [apply list_elem_of_In, H|apply negb_true_iff, Hf].
  - intros [H Hf]. apply list_elem_of_In, filter_In.
    split; [apply list_elem_of_In, H|apply negb_true_iff, Hf].
Qed.














Lemma clear_ceiling_spec (inp : cycle_input) (st : chat_state) :
  let st' := clear_ceiling_on_model_change (current_model inp) st in
  active_correction st' = active_correction st
  /\ (ceiling_dimensions st' = ceiling_dimensions st
      \/ (ceiling_dimensions st' = [] /\ model_changed inp st)).
Proof.
  cbv zeta. unfold clear_ceiling_on_model_change, model_changed.
  destruct (ceiling_dimensions st) as [|x l] eqn:Ec; [split; auto|].
  destruct (ceiling_model st) as [old|] eqn:Em; [|split; auto].
  destruct (bool_decide_reflect (old = "")) as [E|Hne]; [split; auto|].
  destruct (bool_decide_reflect (current_model inp ≠ old)) as [H1|H1];
    [|split; auto].
  destruct (bool_decide_reflect (current_model inp ≠ "unknown")) as [H2|H2];
    [|split; auto].
  cbn. split; [reflexivity|]. right. split; [reflexivity|].
  exists old. auto.
Qed.






Section CeilingFacts.

Variable sqrt_log2 : nat -> Q.








End CeilingFacts.


Section CeilingClaim.

Variable sqrt_log2 : nat -> Q.


End CeilingClaim.



(** * Further properties *)

(** ** The numeric helpers on arbitrary input *)

(** *** Averages *)

Lemma sum_from (arr : list Q) :
  forall a : Q, fold_left Qplus arr a == a + sum arr.
Proof.
  unfold sum. induction arr as [|x arr IH]; intros a; cbn [fold_left].
  - lra.
  - rewrite (IH (a + x)), (IH (0 + x)). lra.
Qed.

Lemma sum_cons (x : Q) (arr : list Q) : sum (x :: arr) == x + sum arr.
Proof. unfold sum at 1. cbn [fold_left]. rewrite sum_from. lra. Qed.

Lemma Qnat_succ (n : nat) : Qnat (S n) == Qnat n + 1.
Proof.
  unfold Qnat. rewrite Nat2Z.inj_succ. unfold Z.succ.
  rewrite inject_Z_plus. reflexivity.
Qed.

Lemma Qnat_nonneg (n : nat) : 0 <= Qnat n.
Proof.
  unfold Qnat. change 0 with (inject_Z 0). rewrite <- Zle_Qle. lia.
Qed.

Lemma Qnat_pos (n : nat) : 0 < Qnat (S n).
Proof. rewrite Qnat_succ. pose proof (Qnat_nonneg n). lra. Qed.

Lemma sum_bounds (lo hi : Q) (arr : list Q) :
  Forall (fun x => lo <= x <= hi) arr ->
  Qnat (length arr) * lo <= sum arr <= Qnat (length arr) * hi.
Proof.
  induction 1 as [|x arr Hx _ IH].
  - change (Qnat (length (@nil Q))) with 0. change (sum []) with 0. lra.
  - cbn [length]. rewrite sum_cons, Qnat_succ.
    set (n := Qnat (length arr)) in *. clearbody n.
    set (t := sum arr) in *. clearbody t. cbn beta in Hx. nra.
Qed.

Lemma mean_cons (x : Q) (arr : list Q) :
  mean (x :: arr) == sum (x :: arr) / Qnat (S (length arr)).
Proof. reflexivity. Qed.

Lemma mean_bounds (lo hi : Q) (arr : list Q) :
  arr <> [] -> Forall (fun x => lo <= x <= hi) arr ->
  lo <= mean arr <= hi.
Proof.
  intros Hne Hall. destruct arr as [|x arr]; [contradiction|].
  rewrite mean_cons.
  pose proof (sum_bounds lo hi (x :: arr) Hall) as [Hl Hh].
  cbn [length] in Hl, Hh. pose proof (Qnat_pos (length arr)) as Hpos.
  split.
  - apply Qle_shift_div_l; [exact Hpos|]. lra.
  - apply Qle_shift_div_r; [exact Hpos|]. lra.
Qed.

Lemma mean_nonneg (arr : list Q) :
  Forall (fun x => 0 <= x) arr -> 0 <= mean arr.
Proof.
  intros Hall. destruct arr as [|x arr]; [unfold mean; lra|].
  rewrite mean_cons. apply Qle_shift_div_l; [apply Qnat_pos|].
  assert (H : forall l, Forall (fun x => 0 <= x) l -> 0 <= sum l).
  { induction 1 as [|y l Hy _ IH]; [change (sum []) with 0; lra|].
    rewrite sum_cons. lra. }
  specialize (H _ Hall). lra.
Qed.

(** [mean]: 0 on the empty array.  On a non-empty array of scores of the
    rubric scale that lie between the levels [lo] and [hi], a number
    between [lo] and [hi]; and the level itself when all the scores are the
    same level. *)
Theorem mean_between (lo hi : Q) (arr : list Q) :
  mean [] = 0
  /\ (arr <> [] -> rubric_level lo -> rubric_level hi ->
      Forall rubric_level arr -> Forall (fun x => lo <= x <= hi) arr ->
      lo <= mean arr <= hi)
  /\ (arr <> [] -> rubric_level lo -> Forall (fun x => x == lo) arr ->
      mean arr == lo).
Proof.
  split; [reflexivity|]. split.
  - intros Hne _ _ _. apply mean_bounds, Hne.
  - intros Hne _ Hall.
    assert (Hb : Forall (fun x => lo <= x <= lo) arr).
    { eapply Forall_impl; [exact Hall|]. cbn. intros x Hx. lra. }
    pose proof (mean_bounds lo lo arr Hne Hb). lra.
Qed.

Lemma mean_between_witness :
  0.25 <= mean [0.25; 1; 0.5] <= 1 /\ mean [0.75; 0.75; 0.75] == 0.75.
Proof.
  assert (L1 : rubric_level 0.25) by (right; left; reflexivity).
  assert (L2 : rubric_level 0.5) by (right; right; left; reflexivity).
  assert (L3 : rubric_level 0.75)
    by (right; right; right; left; reflexivity).
  assert (L4 : rubric_level 1)
    by (right; right; right; right; left; reflexivity).
  assert (Hne : [0.25; 1; 0.5] <> ([] : list Q)) by discriminate.
  assert (Hlev : Forall rubric_level [0.25; 1; 0.5])
    by (repeat constructor; assumption).
  assert (Hall : Forall (fun x => 0.25 <= x <= 1) [0.25; 1; 0.5])
    by (repeat constructor; vm_compute; discriminate).
  assert (Hne' : [0.75; 0.75; 0.75] <> ([] : list Q)) by discriminate.
  assert (Hsame : Forall (fun x => x == 0.75) [0.75; 0.75; 0.75])
    by (repeat constructor; reflexivity).
  split.
  - exact (proj1 (proj2 (mean_between 0.25 1 [0.25; 1; 0.5]))
             Hne L1 L4 Hlev Hall).
  - exact (proj2 (proj2 (mean_between 0.75 1 [0.75; 0.75; 0.75]))
             Hne' L3 Hsame).
Defined.

(** *** Variance *)

Lemma Qsquare_nonneg (d : Q) : 0 <= d * d.
Proof.
  destruct (Qlt_le_dec d 0) as [H|H].
  - assert (E : d * d == (- d) * (- d)) by ring. rewrite E.
    apply Qmult_le_0_compat; lra.
  - apply Qmult_le_0_compat; exact H.
Qed.

Lemma sq_sum_nonneg (m : Q) (arr : list Q) :
  forall a : Q, 0 <= a ->
    0 <= fold_left (fun s v => s + (v - m) * (v - m)) arr a.
Proof.
  induction arr as [|x arr IH]; intros a Ha; cbn [fold_left]; [exact Ha|].
  apply IH. pose proof (Qsquare_nonneg (x - m)). lra.
Qed.

Lemma sq_sum_constant (m : Q) (arr : list Q) :
  Forall (fun x => x == m) arr ->
  forall a : Q, fold_left (fun s v => s + (v - m) * (v - m)) arr a == a.
Proof.
  induction 1 as [|x arr Hx _ IH]; intros a; cbn [fold_left]; [reflexivity|].
  rewrite IH. rewrite Hx. ring.
Qed.

Lemma compute_variance_unfold (x y : Q) (arr : list Q) :
  compute_variance (x :: y :: arr)
  = Some (fold_left (fun s v => s + (v - mean (x :: y :: arr))
                                 * (v - mean (x :: y :: arr)))
            (x :: y :: arr) 0
          / Qnat (length (x :: y :: arr))).
Proof. reflexivity. Qed.

Lemma compute_variance_nonneg (arr : list Q) (v : Q) :
  compute_variance arr = Some v -> 0 <= v.
Proof.
  destruct arr as [|x [|y arr]]; try discriminate.
  rewrite compute_variance_unfold.
  set (t := fold_left _ _ _). intros H.
  assert (Ht : 0 <= t) by (apply sq_sum_nonneg, Qle_refl). clearbody t.
  assert (E : v = t / Qnat (length (x :: y :: arr))) by congruence.
  rewrite E. apply Qle_shift_div_l.
  - exact (Qnat_pos (S (length arr))).
  - rewrite Qmult_0_l. exact Ht.
Qed.

Lemma mean_constant (c : Q) (arr : list Q) :
  arr <> [] -> Forall (fun x => x == c) arr -> mean arr == c.
Proof.
  intros Hne Hall.
  assert (Hb : Forall (fun x => c <= x <= c) arr).
  { eapply Forall_impl; [exact Hall|]. cbn. intros x Hx. lra. }
  pose proof (mean_bounds c c arr Hne Hb). lra.
Qed.

(** [compute_variance]: [null] below two elements; otherwise a number that
    is never negative, and 0 when all the elements are the same level of
    the rubric scale. *)
Theorem compute_variance_sound (arr : list Q) :
  ((length arr < 2)%nat <-> compute_variance arr = None)
  /\ (forall v, compute_variance arr = Some v -> 0 <= v)
  /\ (forall c, (2 <= length arr)%nat -> rubric_level c ->
        Forall (fun x => x == c) arr ->
        exists v, compute_variance arr = Some v /\ v == 0).
Proof.
  split; [|split].
  - destruct arr as [|x [|y arr]]; cbn; split; intros H;
      try reflexivity; try discriminate; try lia.
  - apply compute_variance_nonneg.
  - intros c Hlen _ Hall.
    destruct arr as [|x [|y arr]]; cbn in Hlen; try lia.
    eexists. split; [apply compute_variance_unfold|].
    assert (Hm : mean (x :: y :: arr) == c)
      by (apply mean_constant; [discriminate|exact Hall]).
    assert (Hall' : Forall (fun z => z == mean (x :: y :: arr)) (x :: y :: arr)).
    { eapply Forall_impl; [exact Hall|]. intros z Hz. cbv beta in *.
      rewrite Hz, Hm. reflexivity. }
    rewrite (sq_sum_constant _ _ Hall' 0).
    unfold Qdiv. ring.
Qed.

Lemma compute_variance_sound_witness :
  exists v, compute_variance [0.5; 0.5; 0.5] = Some v /\ v == 0.
Proof.
  pose (arr := [0.5; 0.5; 0.5]).
  assert (Hlen : (2 <= length arr)%nat) by (simpl; lia).
  assert (Hlev : rubric_level 0.5) by (right; right; left; reflexivity).
  assert (Hall : Forall (fun x => x == 0.5) arr)
    by (repeat constructor; reflexivity).
  exact (proj2 (proj2 (compute_variance_sound arr)) 0.5 Hlen Hlev Hall).
Defined.

(** ** The Kalman filter on bounded observations *)

Lemma kalman_gain_range (R_obs a : Q) :
  0 < R_obs -> 0 <= a -> 0 <= a / (a + R_obs) <= 1.
Proof.
  intros HR Ha. split.
  - apply Qle_shift_div_l; lra.
  - apply Qle_shift_div_r; lra.
Qed.

Lemma convex_between (K x z lo hi : Q) :
  0 <= K <= 1 -> lo <= x <= hi -> lo <= z <= hi ->
  lo <= x + K * (z - x) <= hi.
Proof.
  intros [HK0 HK1] [Hx0 Hx1] [Hz0 Hz1].
  assert (H1 : 0 <= K * (z - lo)) by (apply Qmult_le_0_compat; lra).
  assert (H2 : 0 <= (1 - K) * (x - lo)) by (apply Qmult_le_0_compat; lra).
  assert (H3 : 0 <= K * (hi - z)) by (apply Qmult_le_0_compat; lra).
  assert (H4 : 0 <= (1 - K) * (hi - x)) by (apply Qmult_le_0_compat; lra).
  split.
  - assert (E : x + K * (z - x) - lo == K * (z - lo) + (1 - K) * (x - lo))
      by ring.
    lra.
  - assert (E : hi - (x + K * (z - x)) == K * (hi - z) + (1 - K) * (hi - x))
      by ring.
    lra.
Qed.

Lemma variance_step_range (R_obs Q_proc P : Q) :
  0 < R_obs -> 0 <= Q_proc -> 0 <= P ->
  0 <= variance_step R_obs Q_proc P <= R_obs.
Proof.
  intros HR HQ HP. split; [apply variance_step_nonneg; assumption|].
  rewrite variance_step_closed by assumption.
  apply Qle_shift_div_r; [lra|].
  assert (0 <= R_obs * R_obs) by apply Qsquare_nonneg.
  assert (E : R_obs * (P + Q_proc + R_obs)
              == (P + Q_proc) * R_obs + R_obs * R_obs) by ring.
  lra.
Qed.

Lemma kalman_loop_between (R_obs Q_proc lo hi : Q) :
  0 < R_obs -> 0 <= Q_proc ->
  forall (rest : list Q) (x P : Q),
    0 <= P <= R_obs -> lo <= x <= hi ->
    Forall (fun z => lo <= z <= hi) rest ->
    exists x' P',
      kalman_loop R_obs Q_proc x P rest = Some (x', P')
      /\ lo <= x' <= hi /\ 0 <= P' <= R_obs.
Proof.
  intros HR HQ rest.
  induction rest as [|z rest IH]; intros x P HP Hx Hall.
  - exists x, P. split; [reflexivity|]. split; assumption.
  - inversion Hall as [|? ? Hz Hrest]; subst.
    cbn [kalman_loop]. unfold kalman_step.
    rewrite Qeq_bool_false_pos by lra.
    apply IH.
    + apply (variance_step_range R_obs Q_proc P); lra.
    + rewrite Qred_correct. apply convex_between; try assumption.
      apply kalman_gain_range; lra.
    + exact Hrest.
Qed.

Lemma kalman_filter_with_between (R_obs Q_proc lo hi : Q) (scores : list Q) :
  0 < R_obs -> 0 <= Q_proc ->
  scores <> [] -> Forall (fun z => lo <= z <= hi) scores ->
  exists x P,
    kalman_filter_with R_obs Q_proc scores
    = {| estimate := x; uncertainty := HW_sqrt P |}
    /\ lo <= x <= hi /\ 0 <= P <= R_obs.
Proof.
  intros HR HQ Hne Hall.
  destruct scores as [|z [|z2 rest]]; [contradiction| |].
  - exists z, R_obs. split; [reflexivity|].
    inversion Hall; subst. split; [assumption|lra].
  - inversion Hall as [|? ? Hz Hrest]; subst.
    destruct (kalman_loop_between R_obs Q_proc lo hi HR HQ (z2 :: rest) z R_obs)
      as (x & P & Hloop & Hx & HP); [lra|exact Hz|exact Hrest|].
    exists x, P. split; [|split; assumption].
    unfold kalman_filter_with. rewrite Hloop. reflexivity.
Qed.

Lemma kalman_estimate_between (lo hi : Q) (scores : list Q) :
  scores <> [] -> Forall (fun z => lo <= z <= hi) scores ->
  lo <= estimate (kalman_filter scores) <= hi.
Proof.
  intros Hne Hall.
  assert (HR : 0 < KALMAN_R) by (unfold KALMAN_R; lra).
  assert (HQ : 0 <= KALMAN_Q) by (unfold KALMAN_Q; lra).
  destruct (kalman_filter_with_between KALMAN_R KALMAN_Q lo hi scores
              HR HQ Hne Hall) as (x & P & E & Hx & HP).
  unfold kalman_filter. rewrite E. exact Hx.
Qed.

(** [kalman_filter]: (0, 1) on the empty stream; on a non-empty stream of
    observations between [lo] and [hi] the estimate is between [lo] and
    [hi], the fallback to the mean is not taken, and the uncertainty is
    [sqrt(P) * 1.96] for a variance [P] between 0 and R = 0.04, hence at
    most the uncertainty of a single observation. *)
Theorem kalman_filter_between (lo hi : Q) (scores : list Q) :
  kalman_filter [] = {| estimate := 0; uncertainty := HW_const 1 |}
  /\ (scores <> [] -> Forall (fun z => lo <= z <= hi) scores ->
      lo <= estimate (kalman_filter scores) <= hi
      /\ (exists P, uncertainty (kalman_filter scores) = HW_sqrt P
                    /\ 0 <= P <= KALMAN_R)
      /\ (half_width_value (uncertainty (kalman_filter scores))
          <= half_width_value (uncertainty (kalman_filter [hi])))%R).
Proof.
  split; [reflexivity|]. intros Hne Hall.
  assert (HR : 0 < KALMAN_R) by (unfold KALMAN_R; lra).
  assert (HQ : 0 <= KALMAN_Q) by (unfold KALMAN_Q; lra).
  destruct (kalman_filter_with_between KALMAN_R KALMAN_Q lo hi scores
              HR HQ Hne Hall) as (x & P & E & Hx & HP).
  unfold kalman_filter. rewrite E. cbn [estimate uncertainty].
  split; [exact Hx|]. split.
  - exists P. split; [reflexivity|exact HP].
  - apply half_width_sqrt_mono. apply HP.
Qed.

Lemma kalman_filter_between_witness :
  0 <= estimate (kalman_filter [0.25; 1; 0.5; 0]) <= 1.
Proof.
  pose (scores := [0.25; 1; 0.5; 0]).
  assert (Hne : scores <> []) by discriminate.
  assert (Hall : Forall (fun z => 0 <= z <= 1) scores)
    by (repeat constructor; vm_compute; discriminate).
  exact (proj1 (proj2 (kalman_filter_between 0 1 scores) Hne Hall)).
Defined.

(** ** CUSUM: what accumulates *)

Lemma cusum_acc_nonneg (target allowance S x : Q) :
  0 <= cusum_acc target allowance S x.
Proof. unfold cusum_acc. apply Q.le_max_l. Qed.

Lemma cusum_fold_nonneg (target allowance : Q) (scores : list Q) :
  forall S0 : Q, 0 <= S0 ->
    0 <= fold_left (cusum_acc target allowance) scores S0.
Proof.
  induction scores as [|x scores IH]; intros S0 H0; cbn [fold_left];
    [exact H0|].
  apply IH, cusum_acc_nonneg.
Qed.

Lemma cusum_acc_grows (target allowance S x : Q) :
  allowance <= Qabs (x - target) -> S <= cusum_acc target allowance S x.
Proof.
  intros Hx. unfold cusum_acc.
  apply Qle_trans with (S + (Qabs (x - target) - allowance));
    [lra|apply Q.le_max_r].
Qed.

Lemma cusum_fold_grows (target allowance : Q) (more : list Q) :
  Forall (fun x => allowance <= Qabs (x - target)) more ->
  forall S0 : Q, S0 <= fold_left (cusum_acc target allowance) more S0.
Proof.
  induction 1 as [|x more Hx _ IH]; intros S0; cbn [fold_left]; [lra|].
  apply Qle_trans with (cusum_acc target allowance S0 x);
    [apply cusum_acc_grows, Hx|apply IH].
Qed.

(** [cusum]: the accumulator is never negative; and scores that deviate
    from the target by the allowance or more never make it smaller, so
    that a trigger that has fired stays fired while such scores follow. *)
Theorem cusum_persistent_deviation
  (scores more : list Q) (target allowance decision_threshold : Q) :
  0 <= cusum_S (cusum scores target allowance decision_threshold)
  /\ (Forall (fun x => allowance <= Qabs (x - target)) more ->
      cusum_S (cusum scores target allowance decision_threshold)
      <= cusum_S (cusum (scores ++ more) target allowance decision_threshold)
      /\ (triggered (cusum scores target allowance decision_threshold) = true ->
          triggered (cusum (scores ++ more) target allowance
                       decision_threshold) = true)).
Proof.
  assert (Hnn : forall l,
    0 <= cusum_S (cusum l target allowance decision_threshold)).
  { intros [|x l]; [cbn; lra|].
    unfold cusum. cbn [cusum_S]. apply cusum_fold_nonneg. lra. }
  split; [apply Hnn|]. intros Hall.
  destruct scores as [|x scores].
  - cbn [app]. split; [apply Hnn|]. cbn. discriminate.
  - pose proof (cusum_fold_grows target allowance more Hall
                  (fold_left (cusum_acc target allowance) (x :: scores) 0))
      as Hg.
    change ((x :: scores) ++ more) with (x :: (scores ++ more)).
    unfold cusum. cbn [cusum_S triggered].
    change (x :: (scores ++ more)) with ((x :: scores) ++ more).
    rewrite fold_left_app.
    set (S1 := fold_left _ (x :: scores) 0) in *. clearbody S1.
    set (S2 := fold_left _ more S1) in *. clearbody S2.
    split; [exact Hg|]. intros Ht. apply Qleb_true in Ht.
    apply Qleb_true. lra.
Qed.

Lemma cusum_persistent_deviation_witness :
  triggered (cusum [0.75; 0.75; 0.75; 0.75] 0.25 0.125 1.5) = true
  /\ triggered (cusum ([0.75; 0.75; 0.75; 0.75] ++ [0.5; 0]) 0.25 0.125 1.5)
     = true.
Proof.
  pose (scores := [0.75; 0.75; 0.75; 0.75]).
  pose (more := [0.5; 0]).
  assert (Hall : Forall (fun x => 0.125 <= Qabs (x - 0.25)) more)
    by (repeat constructor; vm_compute; discriminate).
  assert (Ht : triggered (cusum scores 0.25 0.125 1.5) = true)
    by (vm_compute; reflexivity).
  split; [exact Ht|].
  exact (proj2 (proj2 (cusum_persistent_deviation scores more 0.25 0.125 1.5)
                  Hall) Ht).
Defined.

(** ** The discrete scale as a function *)

Lemma clamp01_cases (v : Q) :
  (v <= 0 /\ clamp01 v == 0) \/ (0 <= v <= 1 /\ clamp01 v == v)
  \/ (1 <= v /\ clamp01 v == 1).
Proof.
  unfold clamp01.
  destruct (Q.min_spec 1 v) as [[H1 E1]|[H1 E1]];
    destruct (Q.max_spec 0 (Qmin 1 v)) as [[H2 E2]|[H2 E2]].
  - right; right. split; [lra|]. rewrite E2, E1. reflexivity.
  - exfalso. lra.
  - right; left. split; [lra|]. rewrite E2, E1. reflexivity.
  - left. split; [lra|exact E2].
Qed.

(** The stored score as a function of the parsed one.  On [0, 1], where
    the source applies it, [snap_to_discrete] is monotone and idempotent;
    so [snap_to_discrete(clamp(parsed))] never falls when the parsed score
    rises. *)
Theorem snap_to_discrete_monotone (v w : Q) :
  (0 <= v -> v <= w -> w <= 1 -> snap_to_discrete v <= snap_to_discrete w)
  /\ (0 <= v <= 1 ->
      snap_to_discrete (snap_to_discrete v) = snap_to_discrete v)
  /\ (v <= w ->
      snap_to_discrete (clamp01 v) <= snap_to_discrete (clamp01 w)).
Proof.
  split; [|split].
  - intros H0 Hvw H1.
    destruct (snap_to_discrete_cases v)
      as [[H E]|[[H E]|[[H E]|[[H E]|[H E]]]]]; rewrite E;
    destruct (snap_to_discrete_cases w)
      as [[H' E']|[[H' E']|[[H' E']|[[H' E']|[H' E']]]]]; rewrite E';
    lra.
  - intros _.
    destruct (snap_to_discrete_cases v)
      as [[H E]|[[H E]|[[H E]|[[H E]|[H E]]]]]; rewrite E;
    match goal with |- snap_to_discrete ?c = _ =>
      destruct (snap_to_discrete_cases c)
        as [[H' E']|[[H' E']|[[H' E']|[[H' E']|[H' E']]]]]; rewrite E'
    end; try reflexivity; exfalso; lra.
  - intros Hvw.
    destruct (clamp01_cases v) as [[Hc Ec]|[[Hc Ec]|[Hc Ec]]];
    destruct (clamp01_cases w) as [[Hd Ed]|[[Hd Ed]|[Hd Ed]]];
    destruct (snap_to_discrete_cases (clamp01 v))
      as [[H E]|[[H E]|[[H E]|[[H E]|[H E]]]]]; rewrite E;
    destruct (snap_to_discrete_cases (clamp01 w))
      as [[H' E']|[[H' E']|[[H' E']|[[H' E']|[H' E']]]]]; rewrite E';
    lra.
Qed.

Lemma snap_to_discrete_monotone_witness :
  snap_to_discrete 0.3 <= snap_to_discrete 0.4
  /\ snap_to_discrete (clamp01 (-3)) <= snap_to_discrete (clamp01 7).
Proof.
  assert (H0 : 0 <= 0.3) by (vm_compute; discriminate).
  assert (H : 0.3 <= 0.4) by (vm_compute; discriminate).
  assert (H1 : 0.4 <= 1) by (vm_compute; discriminate).
  assert (H2 : -3 <= 7) by (vm_compute; discriminate).
  split.
  - exact (proj1 (snap_to_discrete_monotone 0.3 0.4) H0 H H1).
  - exact (proj2 (proj2 (snap_to_discrete_monotone (-3) 7)) H2).
Defined.

(** ** The drift state as a function of the history *)

Lemma obj_set_fresh {A : Type} (k : string) (v : A) (o : list (string * A)) :
  k ∉ map fst o -> obj_set k v o = o ++ [(k, v)].
Proof.
  induction o as [|[k0 v0] o IH]; intros Hk; cbn [obj_set]; [reflexivity|].
  cbn [map fst] in Hk. apply not_elem_of_cons in Hk as [Hne Hk].
  rewrite bool_decide_false by exact Hne. rewrite IH by exact Hk. reflexivity.
Qed.

Lemma obj_get_app_fresh {A : Type} (k : string) (o1 o2 : list (string * A)) :
  k ∉ map fst o1 -> obj_get k (o1 ++ o2) = obj_get k o2.
Proof.
  induction o1 as [|[k0 v0] o1 IH]; intros Hk; [reflexivity|].
  cbn [map fst] in Hk. apply not_elem_of_cons in Hk as [Hne Hk].
  cbn [app obj_get]. rewrite bool_decide_false by exact Hne. apply IH, Hk.
Qed.

Lemma obj_get_absent {A : Type} (k : string) (o : list (string * A)) :
  k ∉ map fst o -> obj_get k o = None.
Proof.
  induction o as [|[k0 v0] o IH]; intros Hk; [reflexivity|].
  cbn [map fst] in Hk. apply not_elem_of_cons in Hk as [Hne Hk].
  cbn [obj_get]. rewrite bool_decide_false by exact Hne. apply IH, Hk.
Qed.

Lemma fold_obj_set_fresh {A : Type} (f : dimension -> A)
  (dims : list dimension) :
  forall o : list (string * A),
    NoDup (map fst o ++ map dim_id dims) ->
    fold_left (fun drift dim => obj_set (dim_id dim) (f dim) drift) dims o
    = o ++ map (fun dim => (dim_id dim, f dim)) dims.
Proof.
  induction dims as [|dim dims IH]; intros o Hnd; cbn [fold_left map].
  - rewrite app_nil_r. reflexivity.
  - assert (Hfresh : dim_id dim ∉ map fst o).
    { cbn [map] in Hnd. apply NoDup_app in Hnd as (_ & Hdisj & _).
      intros Hin. apply (Hdisj _ Hin). left. }
    rewrite obj_set_fresh by exact Hfresh.
    rewrite IH.
    + rewrite <- app_assoc. reflexivity.
    + rewrite map_app. cbn [map fst]. rewrite <- app_assoc. exact Hnd.
Qed.

Lemma update_drift_state_closed (sqrt_log2 : nat -> Q) (s : settings)
  (dims : list dimension) (history : list score_entry)
  (reset_after : gmap string nat) :
  NoDup (map dim_id dims) ->
  update_drift_state sqrt_log2 s dims history reset_after
  = map (fun dim =>
           (dim_id dim,
            drift_of_dimension sqrt_log2 s (length dims) history reset_after
              dim)) dims.
Proof.
  intros Hnd. unfold update_drift_state.
  rewrite (fold_obj_set_fresh
             (drift_of_dimension sqrt_log2 s (length dims) history reset_after)
             dims []); [reflexivity|exact Hnd].
Qed.

Lemma obj_get_map_dims {A : Type} (f : dimension -> A)
  (dims : list dimension) (dim : dimension) :
  NoDup (map dim_id dims) -> dim ∈ dims ->
  obj_get (dim_id dim) (map (fun d => (dim_id d, f d)) dims) = Some (f dim).
Proof.
  induction dims as [|d dims IH]; intros Hnd Hin;
    [apply elem_of_nil in Hin; contradiction|].
  cbn [map] in *. apply NoDup_cons in Hnd as [Hd Hnd].
  cbn [obj_get]. apply elem_of_cons in Hin as [->|Hin].
  - rewrite bool_decide_true by reflexivity. reflexivity.
  - rewrite bool_decide_false; [apply IH; assumption|].
    intros E. apply Hd. rewrite <- E. apply list_elem_of_fmap.
    exists dim. auto.
Qed.

(** [update_drift_state] on dimensions with distinct ids: the object has
    one entry per dimension, in the order of the dimensions; looking up a
    dimension gives the entry computed for it, and looking up any other id
    gives nothing. *)
Theorem update_drift_state_lookup (sqrt_log2 : nat -> Q) (s : settings)
  (dims : list dimension) (history : list score_entry)
  (reset_after : gmap string nat) :
  NoDup (map dim_id dims) ->
  let drift := update_drift_state sqrt_log2 s dims history reset_after in
  map fst drift = map dim_id dims
  /\ (forall dim, dim ∈ dims ->
        obj_get (dim_id dim) drift
        = Some (drift_of_dimension sqrt_log2 s (length dims) history
                  reset_after dim))
  /\ (forall id, id ∉ map dim_id dims -> obj_get id drift = None).
Proof.
  intros Hnd. cbv zeta. rewrite update_drift_state_closed by exact Hnd.
  split; [|split].
  - rewrite map_map. reflexivity.
  - intros dim Hin. apply obj_get_map_dims; assumption.
  - intros id Hid. apply obj_get_absent. rewrite map_map. exact Hid.
Qed.

Lemma update_drift_state_lookup_witness :
  let dims := [{| dim_id := "warmth"; dim_target := 0.5 |};
               {| dim_id := "humor"; dim_target := 0.25 |}] in
  let drift := update_drift_state unit_factor DEFAULT_SETTINGS dims
                 [warmth_entry 1 0.75] ∅ in
  map fst drift = ["warmth"; "humor"]
  /\ obj_get "formality" drift = None.
Proof.
  intros dims drift.
  assert (Hnd : NoDup (map dim_id dims)).
  { cbn. apply NoDup_cons. split; [|apply NoDup_singleton].
    intros H. apply list_elem_of_singleton in H. discriminate. }
  pose proof (update_drift_state_lookup unit_factor DEFAULT_SETTINGS dims
                [warmth_entry 1 0.75] ∅ Hnd) as (H1 & _ & H3).
  split; [exact H1|]. apply H3. cbn. intros H.
  repeat (apply elem_of_cons in H as [H|H]; [discriminate|]).
  apply elem_of_nil in H. exact H.
Defined.

Lemma cusum_empty (target allowance decision_threshold : Q) :
  cusum [] target allowance decision_threshold
  = {| cusum_S := 0; triggered := false |}.
Proof. reflexivity. Qed.

Lemma dim_scores_filter_none (id : string) (m : nat)
  (history : list score_entry) :
  Forall (fun entry => (message_id entry <= m)%nat) history ->
  dim_scores id
    (List.filter (fun entry => (m <? message_id entry)%nat) history) = [].
Proof.
  induction 1 as [|e history He _ IH]; [reflexivity|].
  cbn [List.filter]. apply Nat.ltb_ge in He. rewrite He. exact IH.
Qed.

Lemma Forall_slice_last {A : Type} (P : A -> Prop) (n : nat) (l : list A) :
  Forall P l -> Forall P (slice_last n l).
Proof.
  intros H. unfold slice_last. destruct n; [exact H|].
  apply Forall_drop, H.
Qed.

Lemma dim_scores_Forall (P : Q -> Prop) (id : string)
  (history : list score_entry) :
  Forall (fun entry => forall v, scores entry !! id = Some v -> P v) history ->
  Forall P (dim_scores id history).
Proof.
  unfold dim_scores.
  induction 1 as [|e history He _ IH]; cbn [omap list_omap]; [constructor|].
  destruct (scores e !! id) as [v|] eqn:E; [|exact IH].
  constructor; [apply He; reflexivity|exact IH].
Qed.

(** One entry of the drift state.  Without a score in the window it is
    [no_data] with no average; with a single score it is
    [insufficient_data]; in both cases neither trigger is set, so a
    dimension is never flagged from fewer than two scores.  The deviation,
    when there is one, is the distance of the average from the target; and
    with scores between 0 and 1 the average is between 0 and 1.  When every
    stored message is at or before the reset marker of the dimension,
    neither trigger is set and the CUSUM value is 0. *)
Theorem drift_entry_sound (sqrt_log2 : nat -> Q) (s : settings)
  (num_dimensions : nat) (history : list score_entry)
  (reset_after : gmap string nat) (dim : dimension) :
  let d := drift_of_dimension sqrt_log2 s num_dimensions history reset_after
             dim in
  let recent := recent_scores_of s history dim in
  (recent = [] ->
   trend d = T_no_data /\ moving_avg d = None /\ deviation d = None)
  /\ (length recent = 1%nat -> trend d = T_insufficient_data)
  /\ ((length recent < 2)%nat ->
      correcting d = false /\ severe d = false /\ cusum_value d = 0)
  /\ (forall dev, deviation d = Some dev ->
        0 <= dev
        /\ exists avg, moving_avg d = Some avg
                       /\ dev = Qabs (avg - dim_target dim))
  /\ (forall avg,
        Forall (fun entry =>
                  forall v, scores entry !! dim_id dim = Some v -> 0 <= v <= 1)
          history ->
        moving_avg d = Some avg -> 0 <= avg <= 1)
  /\ (forall m,
        reset_after !! dim_id dim = Some m ->
        Forall (fun entry => (message_id entry <= m)%nat) history ->
        correcting d = false /\ severe d = false /\ cusum_value d = 0).
Proof.
  cbv zeta. unfold recent_scores_of, drift_of_dimension.
  set (recent := dim_scores (dim_id dim) (slice_last (drift_window s) history)).
  split; [|split; [|split; [|split; [|split]]]].
  - intros ->. repeat split; reflexivity.
  - intros Hlen. destruct recent as [|x [|y r]]; try discriminate. reflexivity.
  - intros Hlen. destruct recent as [|x [|y r]]; cbn in Hlen; try lia;
      repeat split; reflexivity.
  - intros dev. destruct recent as [|x r] eqn:Er; [discriminate|].
    cbv zeta. set (k := kalman_filter (x :: r)). clearbody k.
    destruct (length (x :: r) <? MIN_SCORES_FOR_CORRECTION)%nat;
      cbn [deviation moving_avg]; intros H;
      assert (E : dev = Qabs (estimate k - dim_target dim)) by congruence;
      rewrite E; (split; [apply Qabs_nonneg|eexists; split; reflexivity]).
  - intros avg Hall Havg.
    assert (Hr : Forall (fun v => 0 <= v <= 1) recent).
    { apply dim_scores_Forall, Forall_slice_last, Hall. }
    destruct recent as [|x r] eqn:Er; [discriminate|].
    assert (Hne : x :: r <> []) by discriminate.
    pose proof (kalman_estimate_between 0 1 (x :: r) Hne Hr) as Hb.
    cbv zeta in Havg. set (k := kalman_filter (x :: r)) in *. clearbody k.
    destruct (length (x :: r) <? MIN_SCORES_FOR_CORRECTION)%nat;
      cbn [moving_avg] in Havg;
      assert (E : avg = estimate k) by congruence; rewrite E; exact Hb.
  - intros m Hm Hall. rewrite Hm.
    rewrite dim_scores_filter_none by (apply Forall_slice_last, Hall).
    rewrite !cusum_empty.
    destruct recent as [|x r]; [repeat split; reflexivity|].
    destruct (length (x :: r) <? MIN_SCORES_FOR_CORRECTION)%nat;
      repeat split; reflexivity.
Qed.

Lemma drift_entry_sound_witness :
  let d := drift_of_dimension unit_factor DEFAULT_SETTINGS 1
             [warmth_entry 1 0.75] ∅
             {| dim_id := "warmth"; dim_target := 0.25 |} in
  trend d = T_insufficient_data /\ correcting d = false.
Proof.
  intros d.
  pose proof (drift_entry_sound unit_factor DEFAULT_SETTINGS 1
                [warmth_entry 1 0.75] ∅
                {| dim_id := "warmth"; dim_target := 0.25 |})
    as (_ & H2 & H3 & _).
  assert (Hlen : length (recent_scores_of DEFAULT_SETTINGS
                           [warmth_entry 1 0.75]
                           {| dim_id := "warmth"; dim_target := 0.25 |})
                 = 1%nat) by (vm_compute; reflexivity).
  split; [exact (H2 Hlen)|].
  apply H3. rewrite Hlen. lia.
Defined.

(** ** Only the end of the history counts *)

Lemma slice_last_length_le {A : Type} (n : nat) (l : list A) :
  (0 < n)%nat -> (length (slice_last n l) <= n)%nat.
Proof.
  intros Hn. unfold slice_last. destruct n; [lia|].
  rewrite length_drop. lia.
Qed.

Lemma slice_last_slice_last {A : Type} (n m : nat) (l : list A) :
  (0 < n <= m)%nat -> slice_last n (slice_last m l) = slice_last n l.
Proof.
  intros [Hn Hnm]. unfold slice_last.
  destruct n as [|n]; [lia|]. destruct m as [|m]; [lia|].
  rewrite length_drop, drop_drop. f_equal. lia.
Qed.

Lemma drift_of_dimension_local (sqrt_log2 : nat -> Q) (s : settings)
  (num_dimensions : nat) (history : list score_entry)
  (reset_after : gmap string nat) (dim : dimension) :
  drift_of_dimension sqrt_log2 s num_dimensions
    (slice_last (drift_window s * 2) history) reset_after dim
  = drift_of_dimension sqrt_log2 s num_dimensions history reset_after dim.
Proof.
  destruct (drift_window s) as [|w] eqn:Ew.
  - reflexivity.
  - unfold drift_of_dimension. rewrite Ew.
    rewrite !slice_last_slice_last by lia. reflexivity.
Qed.

(** The drift state depends on the last [2 * drift_window] entries of the
    history only: older entries change nothing. *)
Theorem update_drift_state_local (sqrt_log2 : nat -> Q) (s : settings)
  (dims : list dimension) (history older : list score_entry)
  (reset_after : gmap string nat) :
  update_drift_state sqrt_log2 s dims
    (slice_last (drift_window s * 2) history) reset_after
  = update_drift_state sqrt_log2 s dims history reset_after
  /\ ((0 < drift_window s)%nat ->
      (drift_window s * 2 <= length history)%nat ->
      update_drift_state sqrt_log2 s dims (older ++ history) reset_after
      = update_drift_state sqrt_log2 s dims history reset_after).
Proof.
  assert (Hloc : forall h,
    update_drift_state sqrt_log2 s dims
      (slice_last (drift_window s * 2) h) reset_after
    = update_drift_state sqrt_log2 s dims h reset_after).
  { intros h. unfold update_drift_state.
    generalize ([] : list (string * drift_entry)).
    generalize (length dims). intros n.
    induction dims as [|dim dims IH]; intros o; cbn [fold_left];
      [reflexivity|].
    rewrite drift_of_dimension_local. apply IH. }
  split; [apply Hloc|].
  intros Hw Hlen. rewrite <- (Hloc (older ++ history)), <- (Hloc history).
  f_equal. unfold slice_last.
  destruct (drift_window s * 2)%nat as [|k] eqn:Ek; [lia|].
  rewrite length_app.
  replace (length older + length history - S k)%nat
    with (length older + (length history - S k))%nat by lia.
  rewrite drop_app_add. reflexivity.
Qed.

Lemma update_drift_state_local_witness :
  update_drift_state unit_factor
    {| drift_window := 1; drift_threshold := 0.20;
       drift_alert_threshold := 0.35; correction_enabled := true;
       correction_max_dimensions := 3; correction_patience := 2;
       correction_max_attempts := 2; correction_cooldown := 2;
       recovery_margin := 0.05; recovery_patience := 2 |}
    [{| dim_id := "warmth"; dim_target := 0.5 |}]
    ([warmth_entry 1 0] ++ [warmth_entry 2 0.75; warmth_entry 3 1]) ∅
  = update_drift_state unit_factor
    {| drift_window := 1; drift_threshold := 0.20;
       drift_alert_threshold := 0.35; correction_enabled := true;
       correction_max_dimensions := 3; correction_patience := 2;
       correction_max_attempts := 2; correction_cooldown := 2;
       recovery_margin := 0.05; recovery_patience := 2 |}
    [{| dim_id := "warmth"; dim_target := 0.5 |}]
    [warmth_entry 2 0.75; warmth_entry 3 1] ∅.
Proof.
  apply update_drift_state_local; simpl; lia.
Defined.

(** ** The shapes a cycle can take *)

Section SessionFacts.

Variable sqrt_log2 : nat -> Q.

(** A call of [score_and_process_message] either returns at once, or stops
    after the model check, or stores the scores and stops (corrections
    disabled), or runs the controller. *)
Lemma cycle_cases (s : settings) (inp : cycle_input) (st : chat_state) :
  (cycle_scores inp st = false
   /\ (score_and_process_message sqrt_log2 s inp st = st
       \/ score_and_process_message sqrt_log2 s inp st
          = clear_ceiling_on_model_change (current_model inp) st))
  \/ (cycle_scores inp st = true /\ correction_enabled s = false
      /\ score_and_process_message sqrt_log2 s inp st
         = controller_state sqrt_log2 s inp st)
  \/ (cycle_scores inp st = true /\ correction_enabled s = true
      /\ score_and_process_message sqrt_log2 s inp st
         = controller s inp
             (drift_state (controller_state sqrt_log2 s inp st))
             (controller_state sqrt_log2 s inp st)).
Proof.
  unfold score_and_process_message, cycle_scores, controller_state.
  destruct (dimensions st) as [|d ds];
    [left; split; [reflexivity|left; reflexivity]|].
  destruct (scorable inp); cbn [negb];
    [|left; split;
        [destruct (map_to_list _); reflexivity|right; reflexivity]].
  destruct (map_to_list (reply_scores inp)) as [|e es];
    [left; split; [reflexivity|right; reflexivity]|].
  destruct (correction_enabled s); cbn [negb]; right; [right|left];
    repeat split; reflexivity.
Qed.

End SessionFacts.

(** ** The attempt counter *)

Lemma open_correction_bounded (s : settings) (dr : list drifting_item)
  (inp : cycle_input) (st : chat_state) :
  dr <> [] -> correction_bounded s st ->
  correction_bounded s (state_of (open_correction dr inp st)).
Proof.
  intros Hdr Hb c. branch_end; [|apply Hb].
  cbn. intros [= <-]. split; cbn; [lia|].
  destruct dr; [contradiction|discriminate].
Qed.

Lemma count_scored_bounded (s : settings) (inp : cycle_input)
  (c0 : correction) :
  bounded_correction s c0 -> bounded_correction s (count_scored inp c0).
Proof.
  unfold count_scored. destruct (existsb _ _); [|auto].
  intros [H1 H2]. split; assumption.
Qed.

Lemma evaluation_outcome_bounded (s : settings) (inp : cycle_input)
  (dr : list drifting_item) (c : correction) (st1 : chat_state)
  (r : step_result) :
  active_correction st1 = Some c -> bounded_correction s c ->
  evaluation_outcome s inp dr c st1 r ->
  correction_bounded s (state_of r).
Proof.
  intros Hact Hbc Hout.
  assert (Hb1 : correction_bounded s st1)
    by (intros c'; rewrite Hact; intros [= <-]; exact Hbc).
  destruct Hbc as [Hatt Hids].
  destruct Hout as [| |w|w Ha|Ha].
  - exact Hb1.
  - unfold retire_correction.
    destruct (without (dim_ids c) dr) as [|d rest] eqn:Ew.
    + intros c'. cbn. discriminate.
    + apply open_correction_bounded; [discriminate|].
      intros c'. pose proof (mark_recovered_control (dim_ids c) st1) as H.
      unfold control_fields in H. injection H as H _ _ _ _ _ _ _ _ _ _.
      change (active_correction (set_correction_prompt "" ?x))
        with (active_correction x).
      rewrite H. apply Hb1.
  - intros c'. cbn. intros [= <-]. split; assumption.
  - intros c'. branch_end; [|apply Hb1].
    cbn. intros [= <-]. split; [|exact Hids]. cbn.
    unfold attempts_left in Ha. apply Nat.ltb_lt in Ha. lia.
  - unfold reach_ceiling.
    destruct (without (dim_ids c) dr) as [|d rest] eqn:Ew.
    + intros c'. cbn. discriminate.
    + apply open_correction_bounded; [discriminate|].
      intros c'. cbn. apply Hb1.
Qed.

Lemma decision_outcome_bounded (s : settings) (inp : cycle_input)
  (drift : list (string * drift_entry)) (dr : list drifting_item)
  (st st' : chat_state) :
  correction_bounded s st ->
  decision_outcome s inp drift dr st st' ->
  correction_bounded s st'.
Proof.
  intros Hb Hout c'.
  destruct Hout as [Hdr Hcd|Hdr Hcd Ha|c Hdr Hcd Ha|c Hdr Ha|Hdr Ha].
  - cbn. apply Hb.
  - destruct (finish_cycle_frame s drift (open_correction dr inp st))
      as (ceiling & -> & _).
    change (active_correction (set_ceiling_dimensions ceiling ?x))
      with (active_correction x).
    apply open_correction_bounded; assumption.
  - destruct (finish_cycle_frame s drift
                (evaluate_correction s inp drift dr c st))
      as (ceiling & -> & _).
    change (active_correction (set_ceiling_dimensions ceiling ?x))
      with (active_correction x).
    eapply evaluation_outcome_bounded;
      [| |apply evaluate_correction_outcome]; [reflexivity|].
    apply count_scored_bounded, Hb, Ha.
  - change (active_correction (release_recovered_ceiling s drift ?x))
      with (active_correction x).
    destruct (confirm_recovery_cases s drift c st) as [(n & ->)|(ma & cr & ->)];
      cbn; [apply Hb|discriminate].
  - cbn. apply Hb.
Qed.

Lemma controller_bounded (s : settings) (inp : cycle_input)
  (drift : list (string * drift_entry)) (st : chat_state) :
  correction_bounded s st -> correction_bounded s (controller s inp drift st).
Proof.
  intros Hb. unfold controller.
  eapply decision_outcome_bounded; [|apply decide_correction_outcome].
  intros c. pose proof (tracked_control s drift st) as Hctl.
  unfold control_fields in Hctl. injection Hctl as Hact _ _ _ _ _ _ _ _ _ _.
  rewrite Hact. apply Hb.
Qed.

Section AttemptFacts.

Variable sqrt_log2 : nat -> Q.

Lemma cycle_bounded (s : settings) (inp : cycle_input) (st : chat_state) :
  correction_bounded s st ->
  correction_bounded s (score_and_process_message sqrt_log2 s inp st).
Proof.
  intros Hb.
  assert (Hcs : correction_bounded s (controller_state sqrt_log2 s inp st)).
  { intros c. destruct (controller_state_keeps sqrt_log2 s inp st) as (H & _).
    cbv zeta in H. rewrite H. apply Hb. }
  destruct (cycle_cases sqrt_log2 s inp st)
    as [(_ & [->| ->])|[(_ & _ & ->)|(_ & _ & ->)]].
  - exact Hb.
  - intros c. destruct (clear_ceiling_keeps (current_model inp) st) as (H & _).
    cbv zeta in H. rewrite H. apply Hb.
  - exact Hcs.
  - apply controller_bounded, Hcs.
Qed.

(** Along every session the attempt counter of the active correction stays
    between 1 and [correction_max_attempts] (1 when that setting is 0), and
    the active correction names at least one dimension. *)
Theorem attempts_bounded_along_run (s : settings)
  (inputs : list cycle_input) (st : chat_state) :
  correction_bounded s st ->
  correction_bounded s (run sqrt_log2 s inputs st).
Proof.
  unfold run. revert st.
  induction inputs as [|inp inputs IH]; intros st Hb; cbn [fold_left];
    [exact Hb|].
  apply IH, cycle_bounded, Hb.
Qed.

End AttemptFacts.

Lemma attempts_bounded_along_run_witness :
  correction_bounded DEFAULT_SETTINGS
    (warmth_run 0 [0.25; 0.25; 0.25; 0.25; 0; 1; 0; 0; 0]).
Proof.
  assert (H0 : correction_bounded DEFAULT_SETTINGS (warmth_state 0))
    by (intros c Hc; discriminate Hc).
  exact (attempts_bounded_along_run unit_factor DEFAULT_SETTINGS
           (warmth_inputs [0.25; 0.25; 0.25; 0.25; 0; 1; 0; 0; 0])
           (warmth_state 0) H0).
Defined.

(** ** Counters *)

Lemma evaluation_outcome_counters (s : settings) (inp : cycle_input)
  (dr : list drifting_item) (c : correction) (st1 : chat_state)
  (r : step_result) :
  evaluation_outcome s inp dr c st1 r ->
  (corrections_injected st1 <= corrections_injected (state_of r)
   <= S (corrections_injected st1))%nat
  /\ (cooldown_remaining (state_of r)
      <= Nat.max (cooldown_remaining st1) (correction_cooldown s))%nat.
Proof.
  intros Hout. destruct Hout as [| |w|w Ha|Ha].
  - cbn. lia.
  - unfold retire_correction.
    destruct (mark_recovered_frame (dim_ids c) st1) as (ma & cr & ->).
    destruct (without (dim_ids c) dr); [|branch_end]; cbn; lia.
  - cbn. lia.
  - branch_end; cbn; lia.
  - unfold reach_ceiling.
    destruct (without (dim_ids c) dr); [|branch_end]; cbn; lia.
Qed.

Lemma decision_outcome_counters (s : settings) (inp : cycle_input)
  (drift : list (string * drift_entry)) (dr : list drifting_item)
  (st st' : chat_state) :
  decision_outcome s inp drift dr st st' ->
  (corrections_injected st <= corrections_injected st'
   <= S (corrections_injected st))%nat
  /\ (cooldown_remaining st'
      <= Nat.max (cooldown_remaining st) (correction_cooldown s))%nat.
Proof.
  intros Hout.
  destruct Hout as [Hdr Hcd|Hdr Hcd Ha|c Hdr Hcd Ha|c Hdr Ha|Hdr Ha].
  - cbn. lia.
  - destruct (finish_cycle_frame s drift (open_correction dr inp st))
      as (ceiling & -> & _).
    change (corrections_injected (set_ceiling_dimensions ceiling ?x))
      with (corrections_injected x).
    change (cooldown_remaining (set_ceiling_dimensions ceiling ?x))
      with (cooldown_remaining x).
    branch_end; cbn; lia.
  - destruct (finish_cycle_frame s drift
                (evaluate_correction s inp drift dr c st))
      as (ceiling & -> & _).
    change (corrections_injected (set_ceiling_dimensions ceiling ?x))
      with (corrections_injected x).
    change (cooldown_remaining (set_ceiling_dimensions ceiling ?x))
      with (cooldown_remaining x).
    exact (evaluation_outcome_counters s inp dr _ _ _
             (evaluate_correction_outcome s inp drift dr c st)).
  - destruct (confirm_recovery_cases s drift c st) as [(n & ->)|(ma & cr & ->)];
      cbn; lia.
  - cbn. lia.
Qed.

Lemma controller_counters (s : settings) (inp : cycle_input)
  (drift : list (string * drift_entry)) (st : chat_state) :
  (corrections_injected st <= corrections_injected (controller s inp drift st)
   <= S (corrections_injected st))%nat
  /\ (cooldown_remaining (controller s inp drift st)
      <= Nat.max (cooldown_remaining st) (correction_cooldown s))%nat.
Proof.
  unfold controller.
  pose proof (tracked_control s drift st) as Hctl.
  unfold control_fields in Hctl. injection Hctl as _ _ _ Hcd _ Hci _ _ _ _ _.
  rewrite <- Hci, <- Hcd.
  apply decision_outcome_counters with (inp := inp) (drift := drift)
    (dr := snd (detect_drifting s drift st)).
  apply decide_correction_outcome.
Qed.

Section CounterFacts.

Variable sqrt_log2 : nat -> Q.

Lemma cycle_counters (s : settings) (inp : cycle_input) (st : chat_state) :
  let st' := score_and_process_message sqrt_log2 s inp st in
  (corrections_injected st <= corrections_injected st'
   <= S (corrections_injected st))%nat
  /\ (cooldown_remaining st'
      <= Nat.max (cooldown_remaining st) (correction_cooldown s))%nat.
Proof.
  cbv zeta.
  destruct (controller_state_keeps sqrt_log2 s inp st)
    as (_ & Hcd & _ & Hci & _).
  destruct (clear_ceiling_keeps (current_model inp) st)
    as (_ & Hcd' & _ & Hci' & _).
  cbv zeta in *.
  destruct (cycle_cases sqrt_log2 s inp st)
    as [(_ & [->| ->])|[(_ & _ & ->)|(_ & _ & ->)]].
  - lia.
  - rewrite Hcd', Hci'. lia.
  - rewrite Hcd, Hci. lia.
  - rewrite <- Hcd, <- Hci. apply controller_counters.
Qed.

(** A cycle injects at most one correction, and the count of injected
    corrections never goes down; the cooldown never exceeds the larger of
    its previous value and the cooldown setting.  Over a session the count
    grows by at most the number of cycles. *)
Theorem corrections_counted (s : settings) (inputs : list cycle_input)
  (inp : cycle_input) (st : chat_state) :
  let st' := score_and_process_message sqrt_log2 s inp st in
  let st_end := run sqrt_log2 s inputs st in
  (corrections_injected st <= corrections_injected st'
   <= S (corrections_injected st))%nat
  /\ (cooldown_remaining st'
      <= Nat.max (cooldown_remaining st) (correction_cooldown s))%nat
  /\ (corrections_injected st <= corrections_injected st_end
      <= corrections_injected st + length inputs)%nat
  /\ (cooldown_remaining st_end
      <= Nat.max (cooldown_remaining st) (correction_cooldown s))%nat.
Proof.
  cbv zeta. destruct (cycle_counters s inp st) as [H1 H2]. cbv zeta in *.
  split; [exact H1|]. split; [exact H2|]. clear H1 H2.
  unfold run. revert st.
  induction inputs as [|i inputs IH]; intros st; cbn [fold_left length].
  - lia.
  - destruct (cycle_counters s i st) as [H1 H2]. cbv zeta in *.
    specialize (IH (score_and_process_message sqrt_log2 s i st)). lia.
Qed.

End CounterFacts.

(** ** Corrections switched off *)

Section DisabledFacts.

Variable sqrt_log2 : nat -> Q.

Lemma cycle_disabled (s : settings) (inp : cycle_input) (st : chat_state) :
  correction_enabled s = false ->
  let st' := score_and_process_message sqrt_log2 s inp st in
  active_correction st' = active_correction st
  /\ cooldown_remaining st' = cooldown_remaining st
  /\ recovery_cycles st' = recovery_cycles st
  /\ corrections_injected st' = corrections_injected st
  /\ correction_prompt st' = correction_prompt st.
Proof.
  intros Hoff. apply cycle_outside_controller.
  unfold reaches_controller. rewrite Hoff.
  destruct (dimensions st), (map_to_list (reply_scores inp));
    try reflexivity. apply andb_false_r.
Qed.

(** With [correction_enabled] off, scoring goes on but no session ever
    injects, changes or clears a correction: the active correction, the
    injected prompt, the count of corrections, the cooldown and the
    recovery counter stay as they were. *)
Theorem corrections_disabled_inert (s : settings)
  (inputs : list cycle_input) (st : chat_state) :
  correction_enabled s = false ->
  let st' := run sqrt_log2 s inputs st in
  active_correction st' = active_correction st
  /\ cooldown_remaining st' = cooldown_remaining st
  /\ recovery_cycles st' = recovery_cycles st
  /\ corrections_injected st' = corrections_injected st
  /\ correction_prompt st' = correction_prompt st.
Proof.
  intros Hoff. cbv zeta. unfold run. revert st.
  induction inputs as [|inp inputs IH]; intros st; cbn [fold_left].
  - repeat split; reflexivity.
  - destruct (cycle_disabled s inp st Hoff) as (H1 & H2 & H3 & H4 & H5).
    cbv zeta in *.
    destruct (IH (score_and_process_message sqrt_log2 s inp st))
      as (G1 & G2 & G3 & G4 & G5).
    rewrite G1, G2, G3, G4, G5. repeat split; assumption.
Qed.

End DisabledFacts.

Lemma corrections_disabled_inert_witness :
  let inputs := warmth_inputs [1; 1; 1; 1; 1; 1] in
  let st' := run unit_factor scoring_only inputs (warmth_state 0) in
  messages_scored st' = 6%nat
  /\ active_correction st' = None /\ corrections_injected st' = 0%nat.
Proof.
  intros inputs st'.
  assert (Hoff : correction_enabled scoring_only = false) by reflexivity.
  destruct (corrections_disabled_inert unit_factor scoring_only inputs
              (warmth_state 0) Hoff) as (H1 & _ & _ & H4 & _).
  split; [vm_compute; reflexivity|]. split; [exact H1|exact H4].
Defined.

(** ** What a cycle stores *)

Lemma evaluation_outcome_scoring (s : settings) (inp : cycle_input)
  (dr : list drifting_item) (c : correction) (st1 : chat_state)
  (r : step_result) :
  evaluation_outcome s inp dr c st1 r ->
  scoring_fields (state_of r) = scoring_fields st1.
Proof.
  intros Hout. destruct Hout as [| |w|w Ha|Ha]; try reflexivity.
  - unfold retire_correction.
    destruct (mark_recovered_frame (dim_ids c) st1) as (ma & cr & ->).
    destruct (without (dim_ids c) dr); [|branch_end]; reflexivity.
  - branch_end; reflexivity.
  - unfold reach_ceiling.
    destruct (without (dim_ids c) dr); [|branch_end]; reflexivity.
Qed.

Lemma decision_outcome_scoring (s : settings) (inp : cycle_input)
  (drift : list (string * drift_entry)) (dr : list drifting_item)
  (st st' : chat_state) :
  decision_outcome s inp drift dr st st' ->
  scoring_fields st' = scoring_fields st.
Proof.
  intros Hout.
  destruct Hout as [Hdr Hcd|Hdr Hcd Ha|c Hdr Hcd Ha|c Hdr Ha|Hdr Ha];
    try reflexivity.
  - destruct (finish_cycle_frame s drift (open_correction dr inp st))
      as (ceiling & -> & _).
    change (scoring_fields (set_ceiling_dimensions ceiling ?x))
      with (scoring_fields x).
    branch_end; reflexivity.
  - destruct (finish_cycle_frame s drift
                (evaluate_correction s inp drift dr c st))
      as (ceiling & -> & _).
    change (scoring_fields (set_ceiling_dimensions ceiling ?x))
      with (scoring_fields x).
    exact (evaluation_outcome_scoring s inp dr _ _ _
             (evaluate_correction_outcome s inp drift dr c st)).
  - destruct (confirm_recovery_cases s drift c st) as [(n & ->)|(ma & cr & ->)];
      reflexivity.
Qed.

Lemma controller_scoring (s : settings) (inp : cycle_input)
  (drift : list (string * drift_entry)) (st : chat_state) :
  scoring_fields (controller s inp drift st) = scoring_fields st.
Proof.
  unfold controller.
  rewrite (decision_outcome_scoring s inp drift _ _ _
             (decide_correction_outcome s inp drift _ _)).
  destruct (snd (detect_drifting s drift st)); reflexivity.
Qed.

Section BookkeepingFacts.

Variable sqrt_log2 : nat -> Q.

Lemma cycle_stores (s : settings) (inp : cycle_input)
  (st : chat_state) :
  let st' := score_and_process_message sqrt_log2 s inp st in
  dimensions st' = dimensions st
  /\ (cycle_scores inp st = false ->
      scoring_fields st' = scoring_fields st
      /\ active_correction st' = active_correction st
      /\ cooldown_remaining st' = cooldown_remaining st
      /\ corrections_injected st' = corrections_injected st
      /\ correction_prompt st' = correction_prompt st)
  /\ (cycle_scores inp st = true ->
      messages_scored st' = S (messages_scored st)
      /\ last_scored_message_id st' = Some (message_index inp)
      /\ last (score_history st')
         = Some (new_entry (message_index inp) (now inp) (message_hash inp)
                   (reply_scores inp))
      /\ (length (score_history st') <= MAX_SCORE_HISTORY)%nat
      /\ (length (score_history st) < MAX_SCORE_HISTORY ->
          score_history st'
          = score_history st
            ++ [new_entry (message_index inp) (now inp) (message_hash inp)
                  (reply_scores inp)])%nat
      /\ drift_state st'
         = update_drift_state sqrt_log2 s (dimensions st)
             (score_history st') (cusum_reset_after st)).
Proof.
  cbv zeta.
  assert (Hclear : forall x,
    scoring_fields (clear_ceiling_on_model_change x st) = scoring_fields st
    /\ cusum_reset_after (clear_ceiling_on_model_change x st)
       = cusum_reset_after st).
  { intros x. unfold clear_ceiling_on_model_change.
    destruct (ceiling_dimensions st), (ceiling_model st);
      repeat case_match; split; reflexivity. }
  destruct (clear_ceiling_keeps (current_model inp) st)
    as (K1 & K2 & _ & K4 & K5 & _). cbv zeta in *.
  destruct (Hclear (current_model inp)) as [Hsf Hcr].
  set (st0 := clear_ceiling_on_model_change (current_model inp) st) in *.
  assert (Hcs :
    let cs := controller_state sqrt_log2 s inp st in
    dimensions cs = dimensions st
    /\ messages_scored cs = S (messages_scored st)
    /\ last_scored_message_id cs = Some (message_index inp)
    /\ last (score_history cs)
       = Some (new_entry (message_index inp) (now inp) (message_hash inp)
                 (reply_scores inp))
    /\ (length (score_history cs) <= MAX_SCORE_HISTORY)%nat
    /\ (length (score_history st) < MAX_SCORE_HISTORY ->
        score_history cs
        = score_history st
          ++ [new_entry (message_index inp) (now inp) (message_hash inp)
                (reply_scores inp)])%nat
    /\ drift_state cs
       = update_drift_state sqrt_log2 s (dimensions st)
           (score_history cs) (cusum_reset_after st)).
  { cbv zeta. unfold controller_state. fold st0.
    unfold scoring_fields in Hsf. injection Hsf as S1 S2 _ S4 _ _.
    change (dimensions (scored_state sqrt_log2 s inp st0))
      with (dimensions st0).
    change (messages_scored (scored_state sqrt_log2 s inp st0))
      with (S (messages_scored st0)).
    change (last_scored_message_id (scored_state sqrt_log2 s inp st0))
      with (Some (message_index inp)).
    change (drift_state (scored_state sqrt_log2 s inp st0))
      with (update_drift_state sqrt_log2 s (dimensions st0)
              (score_history (scored_state sqrt_log2 s inp st0))
              (cusum_reset_after st0)).
    change (score_history (scored_state sqrt_log2 s inp st0))
      with (score_history
              (store_scores (message_index inp) (now inp) (message_hash inp)
                 (reply_scores inp) st0)).
    rewrite store_scores_history. cbv zeta. rewrite S1, S2, S4, Hcr.
    set (e := new_entry _ _ _ _). set (h := score_history st).
    assert (Hlen : length (h ++ [e]) = S (length h))
      by (rewrite length_app; simpl; lia).
    unfold MAX_SCORE_HISTORY.
    split; [reflexivity|]. split; [reflexivity|]. split; [reflexivity|].
    destruct (200 <? length (h ++ [e]))%nat eqn:E.
    - apply Nat.ltb_lt in E.
      split; [apply slice_last_app_last; lia|].
      split; [rewrite slice_last_length; lia|].
      split; [intros; lia|reflexivity].
    - apply Nat.ltb_ge in E.
      split; [apply last_snoc|]. split; [exact E|].
      split; [reflexivity|reflexivity]. }
  cbv zeta in Hcs.
  destruct (cycle_cases sqrt_log2 s inp st)
    as [(E & [->| ->])|[(E & _ & ->)|(E & _ & ->)]]; rewrite E.
  - split; [reflexivity|]. split; [|discriminate].
    intros _. repeat split; reflexivity.
  - pose proof Hsf as Hsf'.
    unfold scoring_fields in Hsf'. injection Hsf' as S1 _ _ _ _ _.
    split; [exact S1|]. split; [|discriminate].
    intros _. repeat split; assumption.
  - destruct Hcs as (C1 & C2 & C3 & C4 & C5 & C6 & C7).
    split; [exact C1|]. split; [discriminate|]. intros _.
    repeat split; assumption.
  - set (cs := controller_state sqrt_log2 s inp st) in *. clearbody cs.
    pose proof (controller_scoring s inp (drift_state cs) cs) as Hfr.
    set (st' := controller s inp (drift_state cs) cs) in *. clearbody st'.
    unfold scoring_fields in Hfr. injection Hfr as F1 F2 F3 F4 F5 _.
    rewrite F1, F2, F3, F4, F5.
    destruct Hcs as (C1 & C2 & C3 & C4 & C5 & C6 & C7).
    split; [exact C1|]. split; [discriminate|]. intros _.
    repeat split; assumption.
Qed.

(** A call that stores no score (no dimension calibrated, message not
    scorable, or no score in the reply) leaves the history, the drift
    state, the counters and the correction as they are.  A call that stores
    scores counts one more scored message, records the message index as the
    last scored one, ends the history (of at most 200 entries) with the new
    entry, and leaves as drift state what [update_drift_state] computes from
    the new history.  The dimensions are never changed. *)
Theorem cycle_bookkeeping (s : settings) (inp : cycle_input)
  (st : chat_state) :
  let st' := score_and_process_message sqrt_log2 s inp st in
  dimensions st' = dimensions st
  /\ (cycle_scores inp st = false ->
      scoring_fields st' = scoring_fields st
      /\ active_correction st' = active_correction st
      /\ cooldown_remaining st' = cooldown_remaining st
      /\ corrections_injected st' = corrections_injected st
      /\ correction_prompt st' = correction_prompt st)
  /\ (cycle_scores inp st = true ->
      messages_scored st' = S (messages_scored st)
      /\ last_scored_message_id st' = Some (message_index inp)
      /\ last (score_history st')
         = Some (new_entry (message_index inp) (now inp) (message_hash inp)
                   (reply_scores inp))
      /\ (length (score_history st') <= MAX_SCORE_HISTORY)%nat
      /\ (length (score_history st) < MAX_SCORE_HISTORY ->
          score_history st'
          = score_history st
            ++ [new_entry (message_index inp) (now inp) (message_hash inp)
                  (reply_scores inp)])%nat
      /\ drift_state st'
         = update_drift_state sqrt_log2 s (dimensions st)
             (score_history st') (cusum_reset_after st)).
Proof. apply cycle_stores. Qed.

End BookkeepingFacts.

Lemma cycle_bookkeeping_witness :
  let inp := warmth_input 1 0.75 in
  let st' :=
    score_and_process_message unit_factor DEFAULT_SETTINGS inp
      (warmth_state 0.5) in
  messages_scored st' = 1%nat
  /\ last_scored_message_id st' = Some 1%nat.
Proof.
  intros inp st'.
  assert (Hs : cycle_scores inp (warmth_state 0.5) = true)
    by (vm_compute; reflexivity).
  destruct (proj2 (proj2 (cycle_bookkeeping unit_factor DEFAULT_SETTINGS inp
                            (warmth_state 0.5))) Hs) as (H1 & H2 & _).
  split; [exact H1|exact H2].
Defined.

(** ** The first correction *)

Section FirstCorrection.

Variable sqrt_log2 : nat -> Q.

(** A cycle that finds drifting dimensions while no correction is active
    and no cooldown runs calls [generate_correction].  When that returns a
    text, a correction is opened: on exactly the drifting dimensions, as
    attempt 1, with an empty patience counter, dated at the scored message
    and holding the text, which is also what is injected; the count of
    corrections grows by one and the dimensions are recorded as corrected.
    When it throws, no correction is opened: nothing is injected and the
    count stays. *)
Theorem first_correction_opened (s : settings) (inp : cycle_input)
  (st : chat_state) :
  reaches_controller s inp st = true ->
  cycle_drifting sqrt_log2 s inp st <> [] ->
  cooldown_remaining st = 0%nat ->
  active_correction st = None ->
  let st' := score_and_process_message sqrt_log2 s inp st in
  (forall text, generated_text inp = Some text ->
     (exists c,
        active_correction st' = Some c
        /\ dim_ids c = cycle_drifting sqrt_log2 s inp st
        /\ attempt c = 1%nat /\ scores_since_correction c = 0%nat
        /\ since_message c = message_index inp
        /\ injection_text c = text)
     /\ correction_prompt st' = text
     /\ corrections_injected st' = S (corrections_injected st)
     /\ (forall id, id ∈ cycle_drifting sqrt_log2 s inp st ->
           id ∈ ever_corrected_dimensions st'))
  /\ (generated_text inp = None ->
      active_correction st' = None
      /\ correction_prompt st' = correction_prompt st
      /\ corrections_injected st' = corrections_injected st
      /\ cooldown_remaining st' = 0%nat).
Proof.
  intros Hreach Hdr Hcd Hact. cbv zeta.
  rewrite (cycle_through_controller sqrt_log2 s inp st Hreach).
  rewrite cycle_drifting_unfold in *.
  destruct (controller_state_keeps sqrt_log2 s inp st)
    as (K1 & K2 & _ & K4 & K5 & _). cbv zeta in *.
  rewrite <- K1 in Hact. rewrite <- K2 in Hcd. rewrite <- K4, <- K5.
  clear K1 K2 K4 K5.
  set (cs := controller_state sqrt_log2 s inp st) in *. clearbody cs.
  unfold controller.
  set (dr := snd (detect_drifting s (drift_state cs) cs)) in *.
  pose proof (tracked_control s (drift_state cs) cs) as Hctl.
  fold dr in Hctl.
  set (st2 := track_ever_triggered dr _) in *. clearbody st2.
  unfold control_fields in Hctl.
  injection Hctl as T1 _ _ T4 _ T6 T7 _ _ _ _.
  unfold decide_correction. destruct dr as [|d rest] eqn:Edr;
    [contradiction|].
  rewrite T4, Hcd, T1, Hact. cbn [Nat.ltb Nat.leb].
  unfold open_correction, generate_then. split.
  - intros text ->. cbn. rewrite T6.
    split; [|split; [reflexivity|split; [reflexivity|]]].
    + eexists. split; [reflexivity|]. cbn. repeat split; reflexivity.
    + intros id Hid. apply uniq_elem, elem_of_app. right. exact Hid.
  - intros ->. cbn [finish_cycle]. rewrite T1, Hact, T7, T6, T4, Hcd.
    repeat split; reflexivity.
Qed.

End FirstCorrection.

Lemma first_correction_opened_witness :
  let st3 := warmth_run 0 [0.25; 0.25; 0.25] in
  let inp := warmth_input 4 0.25 in
  let st4 := score_and_process_message unit_factor DEFAULT_SETTINGS inp st3 in
  let failing :=
    {| message_index := 4; now := 0; message_hash := 0;
       current_model := "model-a"; scorable := true;
       reply_scores := {["warmth" := 0.25]}; generated_text := None |} in
  let st4' :=
    score_and_process_message unit_factor DEFAULT_SETTINGS failing st3 in
  (dim_ids <$> active_correction st4) = Some ["warmth"]
  /\ corrections_injected st4 = 1%nat
  /\ active_correction st4' = None /\ corrections_injected st4' = 0%nat
  /\ messages_scored st4' = 4%nat.
Proof.
  intros st3 inp st4 failing st4'.
  assert (H1 : reaches_controller DEFAULT_SETTINGS inp st3 = true)
    by (vm_compute; reflexivity).
  assert (H2 : cycle_drifting unit_factor DEFAULT_SETTINGS inp st3 <> [])
    by (vm_compute; discriminate).
  assert (H3 : cooldown_remaining st3 = 0%nat) by (vm_compute; reflexivity).
  assert (H4 : active_correction st3 = None) by (vm_compute; reflexivity).
  assert (G1 : reaches_controller DEFAULT_SETTINGS failing st3 = true)
    by (vm_compute; reflexivity).
  assert (G2 : cycle_drifting unit_factor DEFAULT_SETTINGS failing st3 <> [])
    by (vm_compute; discriminate).
  destruct (proj1 (first_correction_opened unit_factor DEFAULT_SETTINGS inp
                     st3 H1 H2 H3 H4) "note" eq_refl)
    as ((c & Hc & Hids & _) & _ & Hn & _).
  destruct (proj2 (first_correction_opened unit_factor DEFAULT_SETTINGS
                     failing st3 G1 G2 H3 H4) eq_refl)
    as (F1 & _ & F3 & _).
  fold st4 in Hc, Hn. fold st4' in F1, F3.
  split; [rewrite Hc; cbn; rewrite Hids; vm_compute; reflexivity|].
  split; [rewrite Hn; vm_compute; reflexivity|].
  split; [exact F1|]. split; [rewrite F3; vm_compute; reflexivity|].
  vm_compute. reflexivity.
Defined.

(** ** The ids the controller handles *)

Lemma uniq_from_NoDup (l : list string) :
  forall seen, NoDup (uniq_from seen l).
Proof.
  induction l as [|x l IH]; intros seen; cbn [uniq_from];
    [apply NoDup_nil_2|].
  destruct (bool_decide (x ∈ seen)); [apply IH|].
  apply NoDup_cons. split; [|apply IH].
  rewrite uniq_from_elem. intros [_ Hn]. apply Hn. left.
Qed.

Lemma uniq_NoDup (l : list string) : NoDup (uniq l).
Proof. apply uniq_from_NoDup. Qed.

Lemma update_drift_state_known (sqrt_log2 : nat -> Q) (s : settings)
  (dims : list dimension) (history : list score_entry)
  (reset_after : gmap string nat) (id : string) :
  id ∈ map fst (update_drift_state sqrt_log2 s dims history reset_after) ->
  id ∈ map dim_id dims.
Proof.
  unfold update_drift_state. generalize (length dims). intros n.
  assert (H : forall o : list (string * drift_entry),
    id ∈ map fst
           (fold_left
              (fun drift dim =>
                 obj_set (dim_id dim)
                   (drift_of_dimension sqrt_log2 s n history reset_after dim)
                   drift) dims o) ->
    id ∈ map fst o \/ id ∈ map dim_id dims).
  { induction dims as [|dim dims IH]; intros o; cbn [fold_left map];
      [auto|].
    intros Hin. apply IH in Hin as [Hin|Hin].
    - apply obj_set_keys in Hin as [->|Hin]; [right; left|left; exact Hin].
    - right. right. exact Hin. }
  intros Hin. apply H in Hin as [Hin|Hin]; [|exact Hin].
  apply elem_of_nil in Hin. contradiction.
Qed.

Lemma ma_fallback_fold_known (threshold : Q)
  (ceiling cusum_ids : list string) (entries : list (string * drift_entry))
  (known : list string) :
  (forall e, e ∈ entries -> fst e ∈ known) ->
  forall acc : gmap string nat * list drifting_item,
    (forall i, i ∈ map dd_id (snd acc) -> i ∈ known) ->
    forall i,
      i ∈ map dd_id
            (snd (fold_left (ma_fallback_step threshold ceiling cusum_ids)
                    entries acc)) ->
      i ∈ known.
Proof.
  induction entries as [|e entries IH]; intros Hk acc Hinit;
    cbn [fold_left]; [exact Hinit|].
  apply IH; [intros e' He'; apply Hk; right; exact He'|].
  intros i. unfold ma_fallback_step.
  destruct (includes ceiling (fst e) || includes cusum_ids (fst e));
    cbn [fst snd]; [apply Hinit|].
  destruct (MA_CONSECUTIVE_REQUIRED <=? _)%nat; cbn [fst snd];
    [|apply Hinit].
  rewrite map_app, elem_of_app. cbn [map dd_id].
  rewrite list_elem_of_singleton.
  intros [Hi| ->]; [apply Hinit, Hi|]. apply Hk. left.
Qed.

Lemma detect_drifting_known (s : settings)
  (drift : list (string * drift_entry)) (st : chat_state) (id : string) :
  id ∈ map dd_id (snd (detect_drifting s drift st)) ->
  id ∈ map fst drift.
Proof.
  unfold detect_drifting. apply ma_fallback_fold_known.
  - intros e He. apply list_elem_of_fmap. exists e. auto.
  - cbn [snd]. intros i Hi.
    apply cusum_drifting_ids in Hi as (d & Hin & _).
    apply list_elem_of_fmap. exists (i, d). auto.
Qed.

Lemma open_correction_ids (dr : list drifting_item) (inp : cycle_input)
  (st : chat_state) :
  let st' := state_of (open_correction dr inp st) in
  ((exists c', active_correction st' = Some c' /\ dim_ids c' = map dd_id dr)
   \/ active_correction st' = active_correction st)
  /\ ceiling_dimensions st' = ceiling_dimensions st
  /\ dimensions st' = dimensions st.
Proof.
  cbv zeta. branch_end.
  - split; [left; eexists; split; reflexivity|]. split; reflexivity.
  - split; [right; reflexivity|]. split; reflexivity.
Qed.

Lemma evaluation_outcome_ids (s : settings) (inp : cycle_input)
  (dr : list drifting_item) (c : correction) (st1 : chat_state)
  (r : step_result) (known : list string) :
  evaluation_outcome s inp dr c st1 r ->
  active_correction st1 = Some c ->
  dimensions st1 = dimensions (state_of r) /\
  (NoDup (ceiling_dimensions st1) ->
   (forall id, id ∈ ceiling_dimensions st1 -> id ∈ known) ->
   (forall id, id ∈ dim_ids c -> id ∈ known) ->
   (forall id, id ∈ map dd_id dr -> id ∈ known) ->
   NoDup (ceiling_dimensions (state_of r))
   /\ (forall id, id ∈ ceiling_dimensions (state_of r) -> id ∈ known)
   /\ (forall c' id, active_correction (state_of r) = Some c' ->
         id ∈ dim_ids c' -> id ∈ known)).
Proof.
  intros Hout Hact.
  assert (Hopen : forall st0 d rest c' id,
    active_correction st0 = Some c ->
    (forall i, i ∈ dim_ids c -> i ∈ known) ->
    (forall i, i ∈ map dd_id dr -> i ∈ known) ->
    without (dim_ids c) dr = d :: rest ->
    active_correction (state_of (open_correction (d :: rest) inp st0))
    = Some c' ->
    id ∈ dim_ids c' -> id ∈ known).
  { intros st0 d rest c' id Hact0 Hd Hdr Ew Hc' Hid.
    destruct (proj1 (open_correction_ids (d :: rest) inp st0))
      as [(c2 & E1 & E2)|E1]; rewrite E1 in Hc'.
    - injection Hc' as <-. rewrite E2, <- Ew in Hid.
      apply without_elem in Hid as [Hid _]. apply Hdr, Hid.
    - rewrite Hact0 in Hc'. injection Hc' as <-. apply Hd, Hid. }
  destruct Hout as [| |w|w Ha|Ha].
  - split; [reflexivity|]. intros Hnd Hc Hd _.
    split; [exact Hnd|]. split; [exact Hc|].
    intros c' id. cbn [state_of]. rewrite Hact. intros [= <-]. apply Hd.
  - unfold retire_correction.
    destruct (mark_recovered_frame (dim_ids c) st1) as (ma & cr & ->).
    destruct (without (dim_ids c) dr) as [|d rest] eqn:Ew.
    + split; [reflexivity|]. intros Hnd Hc _ _. cbn.
      split; [exact Hnd|]. split; [exact Hc|]. discriminate.
    + match goal with
      | |- context [open_correction _ inp ?x] =>
          destruct (open_correction_ids (d :: rest) inp x) as (_ & O2 & O3)
      end.
      cbv zeta in O2, O3. rewrite O2, O3.
      split; [reflexivity|]. intros Hnd Hc Hd Hdr.
      split; [exact Hnd|]. split; [exact Hc|].
      intros c' id. eapply Hopen; eauto.
  - split; [reflexivity|]. intros Hnd Hc Hd _. cbn.
    split; [exact Hnd|]. split; [exact Hc|].
    intros c' id [= <-]. apply Hd.
  - branch_end.
    + split; [reflexivity|]. intros Hnd Hc Hd _. cbn.
      split; [exact Hnd|]. split; [exact Hc|].
      intros c' id [= <-]. apply Hd.
    + split; [reflexivity|]. intros Hnd Hc Hd _.
      split; [exact Hnd|]. split; [exact Hc|].
      intros c' id. rewrite Hact. intros [= <-]. apply Hd.
  - unfold reach_ceiling.
    assert (Hu : forall id, id ∈ uniq (ceiling_dimensions st1 ++ dim_ids c) ->
                 (forall i, i ∈ ceiling_dimensions st1 -> i ∈ known) ->
                 (forall i, i ∈ dim_ids c -> i ∈ known) -> id ∈ known).
    { intros id Hid Hc Hd. apply uniq_elem, elem_of_app in Hid as [H|H];
        auto. }
    destruct (without (dim_ids c) dr) as [|d rest] eqn:Ew.
    + split; [reflexivity|]. intros Hnd Hc Hd _. cbn.
      split; [apply uniq_NoDup|]. split; [|discriminate].
      intros id Hid. apply (Hu id Hid Hc Hd).
    + match goal with
      | |- context [open_correction _ inp ?x] =>
          destruct (open_correction_ids (d :: rest) inp x) as (_ & O2 & O3)
      end.
      cbv zeta in O2, O3. rewrite O2, O3.
      split; [reflexivity|]. intros Hnd Hc Hd Hdr.
      split; [apply uniq_NoDup|]. split.
      * intros id Hid. apply (Hu id Hid Hc Hd).
      * intros c' id. eapply Hopen; eauto.
Qed.

Lemma release_recovered_ids (s : settings)
  (drift : list (string * drift_entry)) (st : chat_state)
  (known : list string) :
  NoDup (ceiling_dimensions st) ->
  (forall id, id ∈ ceiling_dimensions st -> id ∈ known) ->
  NoDup (ceiling_dimensions (release_recovered_ceiling s drift st))
  /\ (forall id,
        id ∈ ceiling_dimensions (release_recovered_ceiling s drift st) ->
        id ∈ known).
Proof.
  intros Hnd Hc. split.
  - cbn. apply NoDup_ListNoDup, List.NoDup_filter, NoDup_ListNoDup, Hnd.
  - intros id Hid. apply release_recovered_elem in Hid as [Hid _].
    apply Hc, Hid.
Qed.

Lemma release_recovered_well_formed (s : settings)
  (drift : list (string * drift_entry)) (st : chat_state) :
  ids_well_formed st -> ids_well_formed (release_recovered_ceiling s drift st).
Proof.
  intros (Hnd & Hc & Ha).
  destruct (release_recovered_ids s drift st _ Hnd Hc) as [R1 R2].
  split; [exact R1|]. split; [exact R2|exact Ha].
Qed.

Lemma confirm_recovery_well_formed (s : settings)
  (drift : list (string * drift_entry)) (c : correction) (st : chat_state) :
  ids_well_formed st -> ids_well_formed (confirm_recovery s drift c st).
Proof.
  intros (Hnd & Hc & Ha).
  destruct (confirm_recovery_cases s drift c st) as [(n & ->)|(ma & cr & ->)].
  - split; [exact Hnd|]. split; [exact Hc|exact Ha].
  - split; [exact Hnd|]. split; [exact Hc|]. cbn. discriminate.
Qed.

Lemma open_correction_well_formed (dr : list drifting_item)
  (inp : cycle_input) (st : chat_state) :
  (forall id, id ∈ map dd_id dr -> id ∈ map dim_id (dimensions st)) ->
  ids_well_formed st -> ids_well_formed (state_of (open_correction dr inp st)).
Proof.
  intros Hdr (Hnd & Hc & Ha). branch_end.
  - split; [exact Hnd|]. split; [exact Hc|].
    intros c' id. cbn. intros [= <-]. cbn [dim_ids]. apply Hdr.
  - split; [exact Hnd|]. split; [exact Hc|exact Ha].
Qed.

Lemma evaluate_correction_well_formed (s : settings) (inp : cycle_input)
  (drift : list (string * drift_entry)) (dr : list drifting_item)
  (c : correction) (st : chat_state) :
  active_correction st = Some c ->
  (forall id, id ∈ map dd_id dr -> id ∈ map dim_id (dimensions st)) ->
  ids_well_formed st ->
  ids_well_formed (state_of (evaluate_correction s inp drift dr c st)).
Proof.
  intros Hact Hdr (Hnd & Hc & Ha).
  pose proof (evaluate_correction_outcome s inp drift dr c st) as Hev.
  destruct (evaluation_outcome_ids s inp dr _ _ _
              (map dim_id (dimensions st)) Hev eq_refl) as [Hdim Hrest].
  set (r := evaluate_correction s inp drift dr c st) in *. clearbody r.
  change (dimensions (set_active_correction _ st)) with (dimensions st)
    in Hdim.
  unfold ids_well_formed. rewrite <- Hdim. apply Hrest.
  - exact Hnd.
  - exact Hc.
  - intros id. rewrite count_scored_dim_ids. apply (Ha c id Hact).
  - exact Hdr.
Qed.

Lemma finish_cycle_well_formed (s : settings)
  (drift : list (string * drift_entry)) (r : step_result) :
  ids_well_formed (state_of r) -> ids_well_formed (finish_cycle s drift r).
Proof.
  destruct r as [st|st]; cbn [finish_cycle state_of]; [|auto].
  apply release_recovered_well_formed.
Qed.

Lemma decision_outcome_ids (s : settings) (inp : cycle_input)
  (drift : list (string * drift_entry)) (dr : list drifting_item)
  (st st' : chat_state) :
  decision_outcome s inp drift dr st st' ->
  (forall id, id ∈ map dd_id dr -> id ∈ map dim_id (dimensions st)) ->
  ids_well_formed st -> ids_well_formed st'.
Proof.
  intros Hout Hdr Hwf.
  destruct Hout as [Hne Hcd|Hne Hcd Hact|c Hne Hcd Hact|c Hne Hact|Hne Hact].
  - exact Hwf.
  - apply finish_cycle_well_formed, open_correction_well_formed;
      assumption.
  - apply finish_cycle_well_formed, evaluate_correction_well_formed;
      assumption.
  - apply release_recovered_well_formed, confirm_recovery_well_formed, Hwf.
  - apply release_recovered_well_formed, Hwf.
Qed.

Section IdFacts.

Variable sqrt_log2 : nat -> Q.

Lemma clear_ceiling_ids (inp : cycle_input) (st : chat_state) :
  ids_well_formed st ->
  ids_well_formed (clear_ceiling_on_model_change (current_model inp) st).
Proof.
  intros (Hnd & Hc & Ha).
  destruct (clear_ceiling_keeps (current_model inp) st)
    as (_ & _ & _ & _ & _ & D0 & _).
  destruct (clear_ceiling_spec inp st) as (A0 & C0). cbv zeta in *.
  unfold ids_well_formed. rewrite D0, A0.
  destruct C0 as [-> |[-> _]].
  - split; [exact Hnd|]. split; [exact Hc|exact Ha].
  - split; [apply NoDup_nil_2|]. split; [|exact Ha].
    intros id Hid. apply elem_of_nil in Hid. contradiction.
Qed.

Lemma controller_state_ids (s : settings) (inp : cycle_input)
  (st : chat_state) :
  ids_well_formed st ->
  let cs := controller_state sqrt_log2 s inp st in
  ids_well_formed cs
  /\ (forall id, id ∈ map fst (drift_state cs) ->
        id ∈ map dim_id (dimensions cs)).
Proof.
  intros Hwf. apply (clear_ceiling_ids inp) in Hwf.
  cbv zeta. unfold controller_state.
  set (st0 := clear_ceiling_on_model_change (current_model inp) st) in *.
  clearbody st0. split; [exact Hwf|].
  intros id.
  change (drift_state (scored_state sqrt_log2 s inp st0))
    with (update_drift_state sqrt_log2 s (dimensions st0)
            (score_history (scored_state sqrt_log2 s inp st0))
            (cusum_reset_after st0)).
  apply update_drift_state_known.
Qed.

Lemma controller_ids (s : settings) (inp : cycle_input)
  (drift : list (string * drift_entry)) (st : chat_state) :
  (forall id, id ∈ map fst drift -> id ∈ map dim_id (dimensions st)) ->
  ids_well_formed st -> ids_well_formed (controller s inp drift st).
Proof.
  intros Hk Hwf. unfold controller.
  set (dr := snd (detect_drifting s drift st)).
  assert (Hdr : forall id, id ∈ map dd_id dr ->
                           id ∈ map dim_id (dimensions st)).
  { intros id Hid. apply Hk. apply (detect_drifting_known s drift st id Hid). }
  pose proof (tracked_control s drift st) as Hctl. fold dr in Hctl.
  set (st2 := track_ever_triggered dr _) in *. clearbody st2.
  unfold control_fields in Hctl.
  injection Hctl as T1 T2 _ _ _ _ _ _ T9 _ _.
  apply (decision_outcome_ids s inp drift dr st2);
    [apply decide_correction_outcome|rewrite T9; exact Hdr|].
  unfold ids_well_formed. rewrite T1, T2, T9. exact Hwf.
Qed.

Lemma cycle_ids (s : settings) (inp : cycle_input) (st : chat_state) :
  ids_well_formed st ->
  ids_well_formed (score_and_process_message sqrt_log2 s inp st).
Proof.
  intros Hwf.
  destruct (controller_state_ids s inp st Hwf) as [Hcs Hk]. cbv zeta in *.
  destruct (cycle_cases sqrt_log2 s inp st)
    as [(_ & [->| ->])|[(_ & _ & ->)|(_ & _ & ->)]].
  - exact Hwf.
  - apply clear_ceiling_ids, Hwf.
  - exact Hcs.
  - apply controller_ids; assumption.
Qed.

Lemma run_ids (s : settings) (inputs : list cycle_input) (st : chat_state) :
  ids_well_formed st -> ids_well_formed (run sqrt_log2 s inputs st).
Proof.
  unfold run. revert st.
  induction inputs as [|inp inputs IH]; intros st Hwf; cbn [fold_left];
    [exact Hwf|].
  apply IH, cycle_ids, Hwf.
Qed.

Lemma ceiling_count (st : chat_state) :
  ids_well_formed st ->
  (length (ceiling_dimensions st) <= length (dimensions st))%nat.
Proof.
  intros (Hnd & Hc & _).
  rewrite <- (length_map dim_id (dimensions _)).
  apply NoDup_incl_length; [apply NoDup_ListNoDup, Hnd|].
  intros id Hid. apply list_elem_of_In, Hc, list_elem_of_In, Hid.
Qed.

(** Along every session the ceiling list holds no id twice, and the
    ceiling list and the active correction name only calibrated
    dimensions; so there are never more ceilinged dimensions than
    dimensions. *)
Theorem ids_well_formed_along_run (s : settings)
  (inputs : list cycle_input) (st : chat_state) :
  ids_well_formed st ->
  ids_well_formed (run sqrt_log2 s inputs st)
  /\ (length (ceiling_dimensions (run sqrt_log2 s inputs st))
      <= length (dimensions (run sqrt_log2 s inputs st)))%nat.
Proof.
  intros Hwf. split; [apply run_ids, Hwf|apply ceiling_count, run_ids, Hwf].
Qed.

End IdFacts.

Lemma ids_well_formed_along_run_witness :
  let st := warmth_run 0 [0.25; 0.25; 0.25; 0.25; 0.5; 0.5; 0.75; 0.75] in
  ceiling_dimensions st = ["warmth"]
  /\ (length (ceiling_dimensions st) <= length (dimensions st))%nat.
Proof.
  intros st.
  assert (H0 : ids_well_formed (warmth_state 0)).
  { split; [apply NoDup_nil_2|]. split.
    - intros id Hid. apply elem_of_nil in Hid. contradiction.
    - intros c id Hc. discriminate Hc. }
  split; [vm_compute; reflexivity|].
  exact (proj2 (ids_well_formed_along_run unit_factor DEFAULT_SETTINGS
                  (warmth_inputs [0.25; 0.25; 0.25; 0.25; 0.5; 0.5; 0.75; 0.75])
                  (warmth_state 0) H0)).
Defined.

(** ** The scores of the session report *)

Lemma Math_round_bounds (x : Q) (lo hi : Z) :
  inject_Z lo - 0.5 <= x -> x <= inject_Z hi ->
  (lo <= Math_round x <= hi)%Z.
Proof.
  intros Hlo Hhi. unfold Math_round. split.
  - rewrite <- (Qfloor_Z lo). apply Qfloor_resp_le. lra.
  - assert (H : inject_Z (Qfloor (x + 0.5)) < inject_Z (hi + 1)).
    { apply Qle_lt_trans with (x + 0.5); [apply Qfloor_le|].
      rewrite inject_Z_plus. change (inject_Z 1) with 1. lra. }
    rewrite <- Zlt_Qlt in H. lia.
Qed.

Lemma Qmax_range (lo x : Q) : x <= 1 -> lo <= 1 -> lo <= Qmax lo x <= 1.
Proof.
  intros Hx Hlo. split; [apply Q.le_max_l|].
  apply Q.max_lub; assumption.
Qed.

Lemma Forall_map_abs_nonneg (target : Q) (l : list Q) :
  Forall (fun x => 0 <= x) (map (fun sc => Qabs (sc - target)) l).
Proof. induction l; constructor; [apply Qabs_nonneg|assumption]. Qed.

Lemma max_of_nonneg (l : list Q) :
  Forall (fun x => 0 <= x) l -> 0 <= max_of l.
Proof.
  destruct 1 as [|x l Hx Hl]; [cbn; lra|].
  cbn [max_of]. revert x Hx.
  induction Hl as [|y l Hy _ IH]; intros x Hx; cbn [fold_left]; [exact Hx|].
  apply IH. apply Qle_trans with x; [exact Hx|apply Q.le_max_l].
Qed.

Lemma ratio_range (k n : nat) : (k <= S n)%nat -> 0 <= Qnat k / Qnat (S n) <= 1.
Proof.
  intros Hk. pose proof (Qnat_pos n) as Hn. pose proof (Qnat_nonneg k) as Hk0.
  assert (Hle : Qnat k <= Qnat (S n)).
  { unfold Qnat. rewrite <- Zle_Qle. lia. }
  split.
  - apply Qle_shift_div_l; [exact Hn|]. lra.
  - apply Qle_shift_div_r; [exact Hn|]. lra.
Qed.

Lemma filter_length_le {A : Type} (f : A -> bool) (l : list A) :
  (length (List.filter f l) <= length l)%nat.
Proof.
  induction l as [|x l IH]; cbn [List.filter length]; [lia|].
  destruct (f x); cbn [length]; lia.
Qed.

(** *** Card resilience *)

Lemma card_resilience_bounds (s : settings) (history : list score_entry)
  (dims : list dimension) (corrections : nat) :
  history <> [] ->
  (9 <= compute_card_resilience s history dims corrections <= 100)%Z
  /\ (corrections = 0%nat ->
      (10 <= compute_card_resilience s history dims corrections)%Z).
Proof.
  intros Hne. destruct history as [|e0 h0]; [contradiction|].
  set (history := e0 :: h0). unfold compute_card_resilience. fold history.
  cbv zeta.
  set (initial_deviations := omap _ dims).
  assert (Hinit : Forall (fun x => 0 <= x) initial_deviations).
  { unfold initial_deviations. clear.
    induction dims as [|d dims IH]; cbn [omap list_omap]; [constructor|].
    destruct (dim_scores (dim_id d) (firstn 3 history)) as [|x l];
      [exact IH|].
    constructor; [|exact IH].
    apply mean_nonneg, Forall_map_abs_nonneg. }
  set (initial := match initial_deviations with
                  | [] => 0.5
                  | _ => Qmax 0 (1 - mean initial_deviations)
                  end).
  assert (Hi : 0 <= initial <= 1).
  { unfold initial. destruct initial_deviations as [|x l] eqn:E; [lra|].
    rewrite <- E in *. apply Qmax_range; [|lra].
    pose proof (mean_nonneg _ Hinit). lra. }
  clearbody initial. clear Hinit. clearbody initial_deviations.
  set (windowed := firstn (Nat.min (length history) 20) history).
  set (scored_dims := List.filter _ dims).
  set (drift_resistance := match scored_dims with [] => [0.5] | _ => _ end).
  assert (Hdr : 0 <= mean drift_resistance <= 1).
  { apply mean_bounds.
    - unfold drift_resistance. destruct scored_dims; discriminate.
    - unfold drift_resistance. destruct scored_dims as [|d l];
        [repeat constructor; lra|].
      apply Forall_forall. intros x Hx. apply list_elem_of_In in Hx.
      apply in_map_iff in Hx as (d' & <- & _).
      destruct (dim_scores (dim_id d') windowed) as [|q l'];
        [lra|apply ratio_range, (filter_length_le _ (q :: l'))]. }
  clearbody drift_resistance.
  set (all_mean_devs := map _ scored_dims).
  assert (Hamd : Forall (fun x => 0 <= x) all_mean_devs).
  { unfold all_mean_devs. clear.
    induction scored_dims as [|d l IH]; cbn [map]; constructor; [|exact IH].
    destruct (dim_scores (dim_id d) windowed); [lra|apply Qabs_nonneg]. }
  set (overall := match all_mean_devs with [] => 0 | _ => mean all_mean_devs end).
  assert (Ho : 0 <= overall).
  { unfold overall. destruct all_mean_devs as [|x l] eqn:E; [lra|].
    rewrite <- E in *. apply mean_nonneg, Hamd. }
  clearbody overall. clear Hamd. clearbody all_mean_devs.
  assert (Hdf : 0.5 <= Qmax 0.5 (1 - overall * 1.5) <= 1)
    by (apply Qmax_range; lra).
  set (df := Qmax 0.5 (1 - overall * 1.5)) in *. clearbody df.
  set (m := mean drift_resistance) in *. clearbody m.
  assert (Hprod : 0 <= m * df <= 1).
  { split; [apply Qmult_le_0_compat; lra|].
    assert (H1 : 0 <= (1 - m) * df) by (apply Qmult_le_0_compat; lra).
    assert (E : m * df == df - (1 - m) * df) by ring. lra. }
  set (p := m * df) in *. clearbody p.
  split.
  - destruct (0 <? corrections)%nat; apply Math_round_bounds;
      change (inject_Z 9) with 9; change (inject_Z 100) with 100; lra.
  - intros ->. cbn [Nat.ltb Nat.leb]. unfold history.
    apply (proj1 (Math_round_bounds (initial * 40 + p * 50 + 1 * 10) 10 100
                    ltac:(change (inject_Z 10) with 10; lra)
                    ltac:(change (inject_Z 100) with 100; lra))).
Qed.

(** [compute_card_resilience] on a non-empty history is between 9 and
    100, and at least 10 when no correction was injected. *)
Theorem card_resilience_range (s : settings) (history : list score_entry)
  (dims : list dimension) (corrections : nat) :
  history <> [] ->
  (9 <= compute_card_resilience s history dims corrections <= 100)%Z
  /\ (corrections = 0%nat ->
      (10 <= compute_card_resilience s history dims corrections)%Z).
Proof. apply card_resilience_bounds. Qed.

Lemma card_resilience_range_witness :
  (9 <= compute_card_resilience DEFAULT_SETTINGS [warmth_entry 1 0.75]
          [{| dim_id := "warmth"; dim_target := 0.25 |}] 2 <= 100)%Z.
Proof.
  assert (Hne : [warmth_entry 1 0.75] <> []) by discriminate.
  exact (proj1 (card_resilience_range DEFAULT_SETTINGS [warmth_entry 1 0.75]
                  [{| dim_id := "warmth"; dim_target := 0.25 |}] 2 Hne)).
Defined.

(** *** Session quality *)

Lemma all_deviations_nonneg (dims : list dimension)
  (history : list score_entry) :
  Forall (fun x => 0 <= x)
    (flat_map (fun entry =>
                 omap (fun dim =>
                         (fun sc => Qabs (sc - dim_target dim))
                           <$> scores entry !! dim_id dim) dims)
       history).
Proof.
  induction history as [|e h IH]; cbn [flat_map]; [constructor|].
  apply Forall_app. split; [|exact IH]. clear.
  induction dims as [|d dims IH]; cbn [omap list_omap]; [constructor|].
  destruct (scores e !! dim_id d) as [sc|]; cbn [fmap option_fmap option_map];
    [|exact IH].
  constructor; [apply Qabs_nonneg|exact IH].
Qed.

Lemma session_quality_bounds (history : list score_entry)
  (dims : list dimension) (drift : list (string * drift_entry)) :
  history <> [] ->
  Forall (fun d => 0 <= d) (dev_values drift) ->
  (9 <= compute_session_quality history dims drift <= 100)%Z.
Proof.
  intros Hne Hdev. destruct history as [|e0 h0]; [contradiction|].
  set (history := e0 :: h0). unfold compute_session_quality. fold history.
  cbv zeta.
  pose proof (all_deviations_nonneg dims history) as Hall.
  set (all_deviations := flat_map _ history) in *.
  set (accuracy := match all_deviations with
                   | [] => 0.5
                   | _ => Qmax 0 (1 - mean all_deviations)
                   end).
  assert (Ha : 0 <= accuracy <= 1).
  { unfold accuracy. destruct all_deviations as [|x l] eqn:E; [lra|].
    rewrite <- E in *. apply Qmax_range; [|lra].
    pose proof (mean_nonneg _ Hall). lra. }
  clearbody accuracy.
  set (consistency := match compute_variance all_deviations with
                      | Some variance => Qmax 0 (1 - variance * 2)
                      | None => 0.5
                      end).
  assert (Hc : 0 <= consistency <= 1).
  { unfold consistency.
    destruct (compute_variance all_deviations) as [v|] eqn:E; [|lra].
    apply compute_variance_nonneg in E. apply Qmax_range; lra. }
  clearbody consistency. clear Hall. clearbody all_deviations.
  match goal with
  | |- context [Qmax 0.5 (1 - ?w)] => set (worst := w)
  end.
  assert (Hw : 0 <= worst).
  { unfold worst. destruct (dev_values drift) as [|x l]; [lra|].
    apply max_of_nonneg, Hdev. }
  assert (Hf : 0.5 <= Qmax 0.5 (1 - worst) <= 1)
    by (apply Qmax_range; lra).
  set (floor_factor := Qmax 0.5 (1 - worst)) in *.
  clearbody floor_factor. clear Hw. 
  set (coverage := match dims with
                   | [] => 1
                   | _ => Qnat (length (List.filter _ dims)) / Qnat (length dims)
                   end).
  assert (Hcov : 0 <= coverage <= 1).
  { unfold coverage. destruct dims as [|d l]; [lra|].
    apply ratio_range. apply (filter_length_le _ (d :: l)). }
  clearbody coverage.
  assert (Hcf : 0.6 <= Qmax 0.6 coverage <= 1)
    by (apply Qmax_range; lra).
  set (cf := Qmax 0.6 coverage) in *. clearbody cf.
  set (raw := accuracy * 40 + consistency * 30 + floor_factor * 30).
  assert (Hraw : 15 <= raw <= 100) by (unfold raw; lra).
  clearbody raw.
  assert (Hprod : 9 <= raw * cf <= 100).
  { assert (H1 : 0 <= (raw - 15) * (cf - 0.6))
      by (apply Qmult_le_0_compat; lra).
    assert (H2 : 0 <= raw * (1 - cf)) by (apply Qmult_le_0_compat; lra).
    assert (E1 : raw * cf == (raw - 15) * (cf - 0.6) + 0.6 * raw + 15 * cf - 9)
      by ring.
    assert (E2 : raw * cf == raw - raw * (1 - cf)) by ring.
    lra. }
  set (p := raw * cf) in *. clearbody p.
  apply Math_round_bounds;
    change (inject_Z 9) with 9; change (inject_Z 100) with 100; lra.
Qed.

(** [compute_session_quality] on a non-empty history, with a drift state
    whose deviations are not negative (as [update_drift_state] makes
    them), is between 9 and 100. *)
Theorem session_quality_range (history : list score_entry)
  (dims : list dimension) (drift : list (string * drift_entry)) :
  history <> [] ->
  Forall (fun d => 0 <= d) (dev_values drift) ->
  (9 <= compute_session_quality history dims drift <= 100)%Z.
Proof. apply session_quality_bounds. Qed.

Lemma session_quality_range_witness :
  (9 <= compute_session_quality [warmth_entry 1 0.75]
          [{| dim_id := "warmth"; dim_target := 0.25 |}] [] <= 100)%Z.
Proof.
  assert (Hne : [warmth_entry 1 0.75] <> []) by discriminate.
  assert (Hdev : Forall (fun d => 0 <= d) (dev_values [])) by constructor.
  exact (session_quality_range [warmth_entry 1 0.75]
           [{| dim_id := "warmth"; dim_target := 0.25 |}] [] Hne Hdev).
Defined.

(** *** Model compatibility *)

Lemma model_compatibility_bounds (s : settings) (dims : list dimension)
  (ceiling : list string) (corrections : nat) (history : list score_entry)
  (drift : list (string * drift_entry)) :
  history <> [] ->
  Forall (fun d => 0 <= d) (dev_values drift) ->
  (length ceiling <= length dims)%nat ->
  (0 <= compute_model_compatibility s dims ceiling corrections history drift
   <= 100)%Z.
Proof.
  intros Hne Hdev Hceil. destruct history as [|e0 h0]; [contradiction|].
  set (history := e0 :: h0). unfold compute_model_compatibility.
  fold history. cbv zeta.
  set (ceiling_ratio := match dims with
                        | [] => 1
                        | _ => 1 - Qnat (length ceiling) / Qnat (length dims)
                        end).
  assert (Hcr : 0 <= ceiling_ratio <= 1).
  { unfold ceiling_ratio. destruct dims as [|d l]; [lra|].
    pose proof (ratio_range (length ceiling) (length l) Hceil) as H.
    cbn [length]. lra. }
  clearbody ceiling_ratio.
  set (half := Qnat (length history) * 0.5).
  assert (Hhalf : 0 < half).
  { unfold half, history. cbn [length].
    pose proof (Qnat_pos (length h0)). lra. }
  set (denom := if Qeq_bool half 0 then 1 else half).
  assert (Hden : 0 < denom) by (unfold denom; destruct (Qeq_bool half 0); lra).
  clearbody denom.
  set (load0 := Qmax 0 (1 - Qnat corrections / denom)).
  assert (Hl0 : 0 <= load0 <= 1).
  { apply Qmax_range; [|lra].
    assert (0 <= Qnat corrections / denom).
    { apply Qle_shift_div_l; [exact Hden|].
      pose proof (Qnat_nonneg corrections). lra. }
    lra. }
  clearbody load0.
  match goal with
  | |- context [ceiling_ratio * 35 + ?L * 25] => set (load := L)
  end.
  assert (Hl : 0 <= load <= 1).
  { unfold load.
    match goal with
    | |- context [if ?b then _ else _] => destruct b eqn:Eb
    end; [|exact Hl0].
    apply andb_true_iff in Eb as [_ Ed]. apply Nat.ltb_lt in Ed.
    apply Qmax_range; [|lra].
    match goal with
    | |- context [Qnat ?a / Qnat (length dims)] =>
        pose proof (Qnat_nonneg a) as Ha;
        assert (0 <= Qnat a / Qnat (length dims));
        [|set (r := Qnat a / Qnat (length dims)) in *; clearbody r; lra];
        set (k := Qnat a) in *; clearbody k
    end.
    destruct (length dims) as [|n]; [lia|].
    apply Qle_shift_div_l; [apply Qnat_pos|]. lra. }
  clearbody load.
  match goal with
  | |- context [_ + load * 25 + ?E * 40] => set (end_health := E)
  end.
  assert (He : 0 <= end_health <= 1).
  { unfold end_health. destruct (dev_values drift) as [|x l]; [lra|].
    apply Qmax_range; [|lra].
    pose proof (mean_nonneg _ Hdev). lra. }
  clearbody end_health.
  apply Math_round_bounds;
    change (inject_Z 0) with 0; change (inject_Z 100) with 100; lra.
Qed.

(** [compute_model_compatibility] on a non-empty history is at most 100
    when the deviations of the drift state are not negative, and at least
    0 when there are no more ceilinged dimensions than dimensions. *)
Theorem model_compatibility_range (s : settings) (dims : list dimension)
  (ceiling : list string) (corrections : nat) (history : list score_entry)
  (drift : list (string * drift_entry)) :
  history <> [] ->
  Forall (fun d => 0 <= d) (dev_values drift) ->
  (length ceiling <= length dims)%nat ->
  (0 <= compute_model_compatibility s dims ceiling corrections history drift
   <= 100)%Z.
Proof. apply model_compatibility_bounds. Qed.

Lemma model_compatibility_range_witness :
  (0 <= compute_model_compatibility DEFAULT_SETTINGS
          [{| dim_id := "warmth"; dim_target := 0.25 |}] ["warmth"] 3
          [warmth_entry 1 0.75] [] <= 100)%Z.
Proof.
  pose (dims := [{| dim_id := "warmth"; dim_target := 0.25 |}]).
  pose (ceiling := ["warmth"]).
  assert (Hne : [warmth_entry 1 0.75] <> []) by discriminate.
  assert (Hdev : Forall (fun d => 0 <= d) (dev_values [])) by constructor.
  assert (Hceil : (length ceiling <= length dims)%nat) by (simpl; lia).
  exact (model_compatibility_range DEFAULT_SETTINGS dims ceiling 3
           [warmth_entry 1 0.75] [] Hne Hdev Hceil).
Defined.

(** ** The report of a session *)

Lemma obj_set_Forall {A : Type} (P : A -> Prop) (k : string) (v : A)
  (o : list (string * A)) :
  P v -> Forall (fun e => P (snd e)) o ->
  Forall (fun e => P (snd e)) (obj_set k v o).
Proof.
  intros Hv. induction 1 as [|[k0 v0] o H0 Ho IH]; cbn [obj_set].
  - repeat constructor. exact Hv.
  - destruct (bool_decide (k = k0)); constructor;
      [exact Hv|exact Ho|exact H0|exact IH].
Qed.

Lemma drift_of_dimension_deviation (sqrt_log2 : nat -> Q) (s : settings)
  (n : nat) (history : list score_entry) (reset_after : gmap string nat)
  (dim : dimension) :
  0 <= default 0 (deviation (drift_of_dimension sqrt_log2 s n history
                               reset_after dim)).
Proof.
  unfold drift_of_dimension.
  destruct (dim_scores (dim_id dim) (slice_last (drift_window s) history))
    as [|x r]; [cbn; lra|].
  cbv zeta. set (k := kalman_filter (x :: r)). clearbody k.
  destruct (length (x :: r) <? MIN_SCORES_FOR_CORRECTION)%nat;
    cbn [deviation default]; apply Qabs_nonneg.
Qed.

Lemma update_drift_state_deviations (sqrt_log2 : nat -> Q) (s : settings)
  (dims : list dimension) (history : list score_entry)
  (reset_after : gmap string nat) :
  Forall (fun d => 0 <= d)
    (dev_values (update_drift_state sqrt_log2 s dims history reset_after)).
Proof.
  unfold dev_values. apply Forall_map.
  unfold update_drift_state. generalize (length dims). intros n.
  assert (H : Forall (fun e : string * drift_entry =>
                        0 <= default 0 (deviation (snd e))) [])
    by constructor.
  revert H. generalize ([] : list (string * drift_entry)).
  induction dims as [|dim dims IH]; intros o Ho; cbn [fold_left];
    [exact Ho|].
  apply IH.
  apply (obj_set_Forall (fun d => 0 <= default 0 (deviation d)));
    [apply drift_of_dimension_deviation|exact Ho].
Qed.

Section ReportFacts.

Variable sqrt_log2 : nat -> Q.

Lemma cycle_report_ready (s : settings) (inp : cycle_input)
  (st : chat_state) :
  report_ready st ->
  report_ready (score_and_process_message sqrt_log2 s inp st).
Proof.
  intros [Hwf Hdev]. split; [apply cycle_ids, Hwf|].
  destruct (cycle_stores sqrt_log2 s inp st) as (_ & Hno & Hyes).
  cbv zeta in *.
  destruct (cycle_scores inp st).
  - destruct (Hyes eq_refl) as (_ & _ & _ & _ & _ & ->).
    apply update_drift_state_deviations.
  - destruct (Hno eq_refl) as (Hsf & _).
    unfold scoring_fields in Hsf. injection Hsf as _ _ -> _ _ _.
    exact Hdev.
Qed.

Lemma run_report_ready (s : settings) (inputs : list cycle_input)
  (st : chat_state) :
  report_ready st -> report_ready (run sqrt_log2 s inputs st).
Proof.
  unfold run. revert st.
  induction inputs as [|inp inputs IH]; intros st H; cbn [fold_left];
    [exact H|].
  apply IH, cycle_report_ready, H.
Qed.

(** A report generated at any point of a session has its three scores
    within range: card resilience and session quality between 9 and 100,
    model compatibility between 0 and 100; and the report is stored in the
    state. *)
Theorem report_scores_in_range (s : settings) (inputs : list cycle_input)
  (insights_text : string) (st : chat_state) :
  report_ready st ->
  let st' := run sqrt_log2 s inputs st in
  score_history st' <> [] ->
  exists r,
    generate_report s insights_text st' = (set_report (Some r) st', Some r)
    /\ (9 <= card_resilience r <= 100)%Z
    /\ (9 <= session_quality r <= 100)%Z
    /\ (0 <= model_compatibility r <= 100)%Z.
Proof.
  intros Hready. cbv zeta. intros Hne.
  destruct (run_report_ready s inputs st Hready) as [Hwf Hdev].
  set (st' := run sqrt_log2 s inputs st) in *. clearbody st'.
  unfold generate_report.
  destruct (score_history st') as [|e h] eqn:Eh; [contradiction|].
  rewrite <- Eh in *. eexists. split; [reflexivity|].
  cbn [card_resilience session_quality model_compatibility].
  split; [apply card_resilience_bounds, Hne|].
  split; [apply session_quality_bounds; assumption|].
  apply model_compatibility_bounds; [exact Hne|exact Hdev|].
  apply ceiling_count, Hwf.
Qed.

End ReportFacts.

Lemma report_scores_in_range_witness :
  let inputs :=
    warmth_inputs [0.25; 0.25; 0.25; 0.25; 0.5; 0.5; 0.75; 0.75] in
  let st' := run unit_factor DEFAULT_SETTINGS inputs (warmth_state 0) in
  exists r,
    generate_report DEFAULT_SETTINGS "insights" st'
    = (set_report (Some r) st', Some r)
    /\ (9 <= card_resilience r <= 100)%Z
    /\ (9 <= session_quality r <= 100)%Z
    /\ (0 <= model_compatibility r <= 100)%Z.
Proof.
  intros inputs st'.
  assert (H0 : report_ready (warmth_state 0)).
  { split; [|constructor].
    split; [apply NoDup_nil_2|]. split.
    - intros id Hid. apply elem_of_nil in Hid. contradiction.
    - intros c id Hc. discriminate Hc. }
  apply (report_scores_in_range unit_factor DEFAULT_SETTINGS inputs
           "insights" (warmth_state 0) H0).
  vm_compute. discriminate.
Defined.

(** ** Chunks *)

Lemma chunk_count_step (n size : nat) :
  (1 <= size)%nat -> (1 <= n)%nat ->
  ((n + size - 1) / size = S ((n - size + size - 1) / size))%nat.
Proof.
  intros Hs Hn. destruct (Nat.le_gt_cases size n) as [Hle|Hgt].
  - replace (n + size - 1)%nat with ((n - size + size - 1) + 1 * size)%nat
      by lia.
    rewrite Nat.div_add by lia. lia.
  - replace (n - size)%nat with 0%nat by lia.
    rewrite (Nat.div_small (0 + size - 1)) by lia.
    replace ((n + size - 1) / size)%nat with 1%nat; [reflexivity|].
    apply (Nat.div_unique _ _ 1 (n - 1)); lia.
Qed.

Lemma chunk_array_from_spec {A : Type} (size : nat) :
  (1 <= size)%nat ->
  forall (fuel : nat) (rest : list A),
    (length rest <= fuel)%nat ->
    exists chunks,
      chunk_array_from fuel rest size = Some chunks
      /\ concat chunks = rest
      /\ Forall (fun c => (1 <= length c <= size)%nat) chunks
      /\ length chunks = ((length rest + size - 1) / size)%nat.
Proof.
  intros Hs. induction fuel as [|fuel IH]; intros rest Hlen.
  - destruct rest; [|cbn in Hlen; lia].
    exists []. cbn. repeat split; [constructor|].
    symmetry. apply Nat.div_small. lia.
  - destruct rest as [|x rest'].
    + exists []. cbn. repeat split; [constructor|].
      symmetry. apply Nat.div_small. lia.
    + set (rest := x :: rest') in *.
      destruct (IH (drop size rest)) as (chunks & E & Hc & Hall & Hn).
      { rewrite length_drop. cbn [length] in *. lia. }
      exists (take size rest :: chunks).
      split; [unfold rest at 1; cbn [chunk_array_from]; fold rest;
              rewrite E; reflexivity|].
      split; [cbn [concat]; rewrite Hc; apply take_drop|].
      split.
      * constructor; [|exact Hall].
        rewrite length_take. unfold rest. cbn [length]. lia.
      * cbn [length]. rewrite Hn, length_drop.
        symmetry. apply chunk_count_step; [exact Hs|].
        unfold rest. cbn [length]. lia.
Qed.

(** [chunk_array] with a chunk size of at least 1 returns chunks that,
    put end to end, give back the array; each chunk has between 1 and
    [size] elements and there are [ceil(length / size)] of them.  With a
    chunk size of 0 the loop never ends on a non-empty array. *)
Theorem chunk_array_partition {A : Type} (arr : list A) (size : nat) :
  ((1 <= size)%nat ->
   exists chunks,
     chunk_array arr size = Some chunks
     /\ concat chunks = arr
     /\ Forall (fun c => (1 <= length c <= size)%nat) chunks
     /\ length chunks = ((length arr + size - 1) / size)%nat)
  /\ (arr <> [] -> forall fuel, chunk_array_from fuel arr 0 = None).
Proof.
  split.
  - intros Hs. apply chunk_array_from_spec; [exact Hs|lia].
  - intros Hne fuel. induction fuel as [|fuel IH];
      destruct arr as [|x arr']; try contradiction; [reflexivity|].
    cbn [chunk_array_from drop]. cbn [chunk_array_from] in IH.
    rewrite IH. reflexivity.
Qed.

Lemma chunk_array_partition_witness :
  chunk_array [1; 2; 3; 4; 5; 6; 7; 8; 9]%nat CHUNK_SIZE
  = Some [[1; 2; 3; 4]; [5; 6; 7; 8]; [9]]%nat
  /\ chunk_array_from 100 [1; 2]%nat 0 = None.
Proof.
  assert (Hs : (1 <= CHUNK_SIZE)%nat) by (unfold CHUNK_SIZE; lia).
  assert (Hne : [1; 2]%nat <> []) by discriminate.
  destruct (proj1 (chunk_array_partition [1; 2; 3; 4; 5; 6; 7; 8; 9]%nat
                     CHUNK_SIZE) Hs) as (chunks & E & _).
  split.
  - rewrite E. vm_compute in E. injection E as <-. reflexivity.
  - exact (proj2 (chunk_array_partition [1; 2]%nat 0) Hne 100%nat).
Defined.

(** ** The text sent for scoring *)

Lemma keep_ends_spec {A : Type} (max_length head tail : nat)
  (marker text : list A) :
  (head <= max_length)%nat -> (tail <= max_length)%nat ->
  ((length text <= max_length)%nat ->
   keep_ends max_length head tail marker text = text)
  /\ ((max_length < length text)%nat ->
      length (keep_ends max_length head tail marker text)
      = (head + length marker + tail)%nat
      /\ take head (keep_ends max_length head tail marker text)
         = take head text
      /\ drop (head + length marker)
           (keep_ends max_length head tail marker text)
         = drop (length text - tail) text).
Proof.
  intros Hh Ht. unfold keep_ends. split; intros Hlen.
  - apply Nat.ltb_ge in Hlen. rewrite Hlen. reflexivity.
  - pose proof Hlen as Hlt. apply Nat.ltb_lt in Hlen. rewrite Hlen.
    split; [|split].
    + rewrite !length_app, length_take, length_drop. lia.
    + rewrite take_app_le by (rewrite length_take; lia).
      rewrite take_take. f_equal. lia.
    + rewrite app_assoc. rewrite drop_app_length'; [reflexivity|].
      rewrite length_app, length_take. lia.
Qed.

(** The reply sent for scoring: a reply of at most 1500 code units is sent
    as it is; a longer one is replaced by its first 800 code units, the
    marker, and its last 700 code units, 1519 code units in all (so a reply
    of 1501 to 1518 code units grows); no text sent is longer than 1519
    code units.  An earlier message is quoted whole up to 500 code units,
    and in 507 code units beyond. *)
Theorem scoring_text_bounded {A : Type} (unit_of : Ascii.ascii -> A)
  (response_text message_text : list A) :
  ((length response_text <= 1500)%nat ->
   scoring_text unit_of response_text = response_text)
  /\ ((1500 < length response_text)%nat ->
      length (scoring_text unit_of response_text) = 1519%nat
      /\ take 800 (scoring_text unit_of response_text)
         = take 800 response_text
      /\ drop 819 (scoring_text unit_of response_text)
         = drop (length response_text - 700) response_text)
  /\ (length (scoring_text unit_of response_text) <= 1519)%nat
  /\ ((length message_text <= 500)%nat ->
      truncated unit_of message_text = message_text)
  /\ ((500 < length message_text)%nat ->
      length (truncated unit_of message_text) = 507%nat).
Proof.
  pose proof (keep_ends_spec 1500 800 700
                (NEWLINE unit_of :: js_string unit_of "[...truncated...]"
                 ++ [NEWLINE unit_of]) response_text
                ltac:(lia) ltac:(lia)) as [Hshort Hlong].
  fold (scoring_text unit_of response_text) in Hshort, Hlong.
  assert (Hm : length (NEWLINE unit_of
                       :: js_string unit_of "[...truncated...]"
                       ++ [NEWLINE unit_of]) = 19%nat) by reflexivity.
  rewrite Hm in Hlong.
  pose proof (keep_ends_spec 500 300 200
                (NEWLINE unit_of :: js_string unit_of "[...]"
                 ++ [NEWLINE unit_of]) message_text
                ltac:(lia) ltac:(lia)) as [Mshort Mlong].
  fold (truncated unit_of message_text) in Mshort, Mlong.
  split; [exact Hshort|]. split; [exact Hlong|]. split; [|split].
  - destruct (Nat.le_gt_cases (length response_text) 1500) as [H|H].
    + rewrite (Hshort H). lia.
    + destruct (Hlong H) as [-> _]. lia.
  - exact Mshort.
  - intros H. destruct (Mlong H) as [-> _]. reflexivity.
Qed.

Lemma scoring_text_bounded_witness :
  length (scoring_text (fun c => c) (repeat (Ascii.ascii_of_nat 97) 1501)) = 1519%nat.
Proof.
  assert (H : (1500 < length (repeat (Ascii.ascii_of_nat 97) 1501))%nat)
    by (rewrite repeat_length; lia).
  exact (proj1 (proj1 (proj2 (scoring_text_bounded (fun c => c)
                                (repeat (Ascii.ascii_of_nat 97) 1501) []))
                  H)).
Defined.

(** ** Calibration *)

Lemma resolve_dimension_id {A : Type}
  (raw : gmap string (calibration_entry A)) (id : string)
  (d : dimension) (ctx : list A) :
  resolve_dimension raw id = Some (d, ctx) ->
  dim_id d = id /\ 0 <= dim_target d <= 1 /\ (length ctx <= 500)%nat
  /\ exists target context,
       raw !! id = Some (Cal_object target context)
       /\ target <> Target_missing.
Proof.
  unfold resolve_dimension.
  destruct (raw !! id) as [[| |target context]|]; try discriminate.
  destruct target as [|t|]; try discriminate; intros [= <- <-]; cbn.
  - split; [reflexivity|]. split; [apply clamp01_range|].
    split; [destruct context; [rewrite length_take|cbn]; lia|].
    eexists _, _. split; [reflexivity|discriminate].
  - split; [reflexivity|]. split; [lra|].
    split; [destruct context; [rewrite length_take|cbn]; lia|].
    eexists _, _. split; [reflexivity|discriminate].
Qed.

Lemma omap_ids_sublist {A : Type}
  (raw : gmap string (calibration_entry A)) (ids : list string) :
  map (fun r => dim_id (fst r)) (omap (resolve_dimension raw) ids)
  `sublist_of` ids.
Proof.
  induction ids as [|id ids IH]; cbn [omap list_omap]; [constructor|].
  destruct (resolve_dimension raw id) as [[d ctx]|] eqn:E.
  - apply resolve_dimension_id in E as (<- & _). cbn [map fst].
    apply sublist_skip, IH.
  - apply sublist_cons, IH.
Qed.

Lemma DIMENSION_IDS_NoDup : NoDup DIMENSION_IDS.
Proof. apply (bool_decide_unpack _). vm_compute. reflexivity. Qed.

(** [resolve_dimensions]: every resolved dimension has a target in
    [0, 1] and a context of at most 500 code units; the resolved ids
    follow the order of the catalog, so no id comes twice and none is
    unknown; and a catalog dimension is resolved exactly when its entry in
    the calibration is an object whose target is not missing. *)
Theorem resolve_dimensions_sound {A : Type}
  (raw : gmap string (calibration_entry A)) :
  let resolved := resolve_dimensions raw in
  Forall (fun r => 0 <= dim_target (fst r) <= 1
                   /\ (length (snd r) <= 500)%nat) resolved
  /\ map (fun r => dim_id (fst r)) resolved `sublist_of` DIMENSION_IDS
  /\ NoDup (map (fun r => dim_id (fst r)) resolved)
  /\ (forall id,
        id ∈ map (fun r => dim_id (fst r)) resolved
        <-> id ∈ DIMENSION_IDS
            /\ exists target context,
                 raw !! id = Some (Cal_object target context)
                 /\ target <> Target_missing).
Proof.
  cbv zeta. unfold resolve_dimensions.
  split; [|split; [|split]].
  - apply Forall_forall. intros [d ctx] Hin.
    apply list_elem_of_omap in Hin as (id & _ & E).
    apply resolve_dimension_id in E as (_ & Ht & Hc & _). cbn. auto.
  - apply omap_ids_sublist.
  - eapply sublist_NoDup;
      first [apply omap_ids_sublist|apply DIMENSION_IDS_NoDup].
  - intros id. rewrite list_elem_of_fmap. split.
    + intros ([d ctx] & -> & Hin).
      apply list_elem_of_omap in Hin as (id' & Hid & E).
      apply resolve_dimension_id in E as (<- & _ & _ & Hex).
      cbn [fst]. split; assumption.
    + intros (Hid & target & context & E & Hne).
      destruct (resolve_dimension raw id) as [[d ctx]|] eqn:Er.
      * exists (d, ctx). split.
        -- apply resolve_dimension_id in Er as (<- & _). reflexivity.
        -- apply list_elem_of_omap. exists id. auto.
      * exfalso. unfold resolve_dimension in Er. rewrite E in Er.
        destruct target; [contradiction|discriminate|discriminate].
Qed.

(** ** Which message is due for scoring *)

Lemma count_ai_from_none (chat : list chat_message) (i : nat) :
  (i <= length chat)%nat ->
  count_ai_from chat None i = length (List.filter is_ai_message (take i chat)).
Proof.
  induction i as [|i IH]; intros Hi; [rewrite take_0; reflexivity|].
  cbn [count_ai_from].
  destruct (lookup_lt_is_Some_2 chat i ltac:(lia)) as [m Hm].
  rewrite Hm, IH by lia.
  rewrite (take_S_r _ _ _ Hm), List.filter_app, length_app.
  cbn [List.filter]. destruct (is_ai_message m); cbn [length]; lia.
Qed.

Lemma count_ai_from_some (chat : list chat_message) (last i : nat) :
  (i <= length chat)%nat ->
  count_ai_from chat (Some last) i
  = length (List.filter is_ai_message (drop (S last) (take i chat))).
Proof.
  induction i as [|i IH]; intros Hi; [rewrite take_0, drop_nil; reflexivity|].
  cbn [count_ai_from].
  destruct (lookup_lt_is_Some_2 chat i ltac:(lia)) as [m Hm].
  rewrite (take_S_r _ _ _ Hm).
  destruct (Nat.leb_spec i last) as [Hle|Hgt].
  - rewrite drop_ge; [reflexivity|].
    rewrite length_app, length_take. cbn [length]. lia.
  - rewrite Hm, IH by lia.
    rewrite drop_app_le by (rewrite length_take; lia).
    rewrite List.filter_app, length_app.
    cbn [List.filter]. destruct (is_ai_message m); cbn [length]; lia.
Qed.

Lemma count_ai_closed (chat : list chat_message)
  (last_scored_id : option nat) :
  count_ai_messages_since_last_score chat last_scored_id
  = length (List.filter is_ai_message (messages_since chat last_scored_id)).
Proof.
  unfold count_ai_messages_since_last_score, messages_since.
  destruct last_scored_id as [last|].
  - rewrite count_ai_from_some by lia. rewrite firstn_all. reflexivity.
  - rewrite count_ai_from_none by lia. rewrite firstn_all. reflexivity.
Qed.

(** [count_ai_messages_since_last_score] counts the replies of the
    character after the last scored message (all of them when none was
    scored).  So [should_score_message] answers yes for the first reply
    when [score_on_first] is set, and otherwise exactly when at least
    [score_frequency] replies came after the last scored message; right
    after the last message of the chat was scored, with a frequency of at
    least 1, it answers no. *)
Theorem scoring_gate (score_frequency : nat) (score_on_first : bool)
  (chat : list chat_message) (st : chat_state) :
  count_ai_messages_since_last_score chat (last_scored_message_id st)
  = length (List.filter is_ai_message
              (messages_since chat (last_scored_message_id st)))
  /\ (messages_scored st = 0%nat -> score_on_first = true ->
      should_score_message score_frequency score_on_first chat st = true)
  /\ ((0 < messages_scored st)%nat \/ score_on_first = false ->
      (should_score_message score_frequency score_on_first chat st = true
       <-> (score_frequency
            <= length (List.filter is_ai_message
                         (messages_since chat (last_scored_message_id st))))%nat))
  /\ (forall last,
        last_scored_message_id st = Some last ->
        (length chat <= S last)%nat ->
        (0 < messages_scored st)%nat -> (1 <= score_frequency)%nat ->
        should_score_message score_frequency score_on_first chat st = false).
Proof.
  split; [apply count_ai_closed|].
  unfold should_score_message. rewrite count_ai_closed.
  split; [|split].
  - intros -> ->. reflexivity.
  - intros Hcase.
    assert (E : (messages_scored st =? 0)%nat && score_on_first = false).
    { destruct Hcase as [H| ->]; [|apply andb_false_r].
      destruct (Nat.eqb_spec (messages_scored st) 0); [lia|reflexivity]. }
    rewrite E. apply Nat.leb_le.
  - intros last Hlast Hlen Hms Hf. rewrite Hlast.
    destruct (Nat.eqb_spec (messages_scored st) 0) as [|_]; [lia|].
    cbn [andb messages_since]. rewrite drop_ge by lia.
    cbn [List.filter length]. apply Nat.leb_gt. lia.
Qed.

Lemma scoring_gate_witness :
  let chat := [{| is_user := false; is_system := false |};
               {| is_user := true; is_system := false |};
               {| is_user := false; is_system := false |}] in
  let st := set_messages_scored 1
              (set_last_scored_message_id (Some 2%nat)
                 create_empty_chat_state) in
  should_score_message 1 true chat st = false.
Proof.
  intros chat st.
  assert (H1 : last_scored_message_id st = Some 2%nat) by reflexivity.
  assert (H2 : (length chat <= 3)%nat) by (simpl; lia).
  assert (H3 : (0 < messages_scored st)%nat) by (simpl; lia).
  assert (H4 : (1 <= 1)%nat) by lia.
  exact (proj2 (proj2 (proj2 (scoring_gate 1 true chat st))) 2%nat
           H1 H2 H3 H4).
Defined.

(** ** A swiped message *)

Section Swipe.

Variable sqrt_log2 : nat -> Q.

Lemma filter_length_eq {A : Type} (f : A -> bool) (l : list A) :
  length (List.filter f l) = length l -> List.filter f l = l.
Proof.
  induction l as [|x l IH]; cbn [List.filter]; [reflexivity|].
  destruct (f x); cbn [length]; intros H.
  - f_equal. apply IH. lia.
  - pose proof (List.filter_length_le f l). lia.
Qed.

Lemma history_eta (st : chat_state) :
  set_score_history (score_history st) st = st.
Proof. destruct st; reflexivity. Qed.

Lemma on_message_swiped_spec (s : settings) (swiped_id : nat)
  (st : chat_state) :
  let st' := fst (on_message_swiped sqrt_log2 s swiped_id st) in
  let flagged := snd (on_message_swiped sqrt_log2 s swiped_id st) in
  score_history st'
  = List.filter (fun e => negb (message_id e =? swiped_id)%nat)
      (score_history st)
  /\ Forall (fun e => message_id e <> swiped_id) (score_history st')
  /\ (flagged = true
      <-> exists e, e ∈ score_history st /\ message_id e = swiped_id)
  /\ (flagged = false -> st' = st)
  /\ messages_scored st' = messages_scored st
  /\ last_scored_message_id st' = last_scored_message_id st
  /\ active_correction st' = active_correction st
  /\ ceiling_dimensions st' = ceiling_dimensions st
  /\ cooldown_remaining st' = cooldown_remaining st
  /\ (flagged = true -> dimensions st <> [] ->
      drift_state st'
      = update_drift_state sqrt_log2 s (dimensions st) (score_history st')
          (cusum_reset_after st)).
Proof.
  cbv zeta. unfold on_message_swiped.
  set (f := fun e => negb (message_id e =? swiped_id)%nat).
  assert (Hall : Forall (fun e => message_id e <> swiped_id)
                   (List.filter f (score_history st))).
  { apply Forall_forall. intros e He.
    apply list_elem_of_In, filter_In in He as [_ He].
    unfold f in He. apply negb_true_iff, Nat.eqb_neq in He. exact He. }
  assert (Hex : (length (List.filter f (score_history st))
                 <? length (score_history st))%nat = true
                <-> exists e, e ∈ score_history st /\ message_id e = swiped_id).
  { rewrite Nat.ltb_lt. split.
    - intros Hlt.
      destruct (decide (Exists (fun e => message_id e = swiped_id)
                          (score_history st))) as [Hx|Hn].
      + apply Exists_exists in Hx as (e & He & Heq). exists e.
        split; [exact He|exact Heq].
      + exfalso.
        assert (E : List.filter f (score_history st) = score_history st).
        { apply forallb_filter_id. apply forallb_forall. intros e He.
          unfold f. apply negb_true_iff, Nat.eqb_neq. intros Heq.
          apply Hn, Exists_exists. exists e.
          split; [apply list_elem_of_In, He|exact Heq]. }
        rewrite E in Hlt. lia.
    - intros (e & He & Heq).
      pose proof (List.filter_length_le f (score_history st)) as Hle.
      destruct (Nat.eq_dec (length (List.filter f (score_history st)))
                  (length (score_history st))) as [E|]; [|lia].
      apply filter_length_eq in E.
      assert (Hin : e ∈ List.filter f (score_history st))
        by (rewrite E; exact He).
      apply list_elem_of_In, filter_In in Hin as [_ Hf].
      unfold f in Hf. apply negb_true_iff, Nat.eqb_neq in Hf. contradiction. }
  destruct (score_history st) as [|e0 h0] eqn:Eh.
  - cbn [fst snd List.filter]. rewrite Eh.
    split; [reflexivity|]. split; [constructor|].
    split; [split; [discriminate|]|].
    { intros (e & He & _). apply elem_of_nil in He. contradiction. }
    repeat split; try reflexivity; discriminate.
  - rewrite <- Eh in *. clear Eh e0 h0.
    change (dimensions (set_score_history ?h st)) with (dimensions st).
    change (cusum_reset_after (set_score_history ?h st))
      with (cusum_reset_after st).
    change (score_history (set_score_history ?h st)) with h.
    destruct (length (List.filter f (score_history st))
              <? length (score_history st))%nat eqn:Ew; cbn [fst snd].
    + destruct (dimensions st) as [|d ds] eqn:Ed; cbn;
        (split; [reflexivity|]); (split; [exact Hall|]);
        (split; [split; [intros _; apply Hex; reflexivity|reflexivity]|]);
        repeat split; try reflexivity; try discriminate; try contradiction.
    + assert (E : List.filter f (score_history st) = score_history st).
      { apply filter_length_eq. apply Nat.ltb_ge in Ew.
        pose proof (List.filter_length_le f (score_history st)). lia. }
      cbn. split; [reflexivity|]. split; [exact Hall|].
      split; [split; [discriminate|]|].
      { intros H. apply Hex in H. discriminate H. }
      split; [intros _; rewrite E; apply history_eta|].
      repeat split; try reflexivity; discriminate.
Qed.

Lemma on_message_swiped_facts (s : settings) (swiped_id : nat)
  (st : chat_state) :
  let st' := fst (on_message_swiped sqrt_log2 s swiped_id st) in
  score_history st'
  = List.filter (fun e => negb (message_id e =? swiped_id)%nat)
      (score_history st)
  /\ messages_scored st' = messages_scored st
  /\ dimensions st' = dimensions st
  /\ ((exists e, e ∈ score_history st /\ message_id e = swiped_id) ->
      (length (score_history st') < length (score_history st))%nat).
Proof.
  cbv zeta.
  destruct (on_message_swiped_spec s swiped_id st)
    as (H1 & _ & H3 & _ & H5 & _). cbv zeta in *.
  split; [exact H1|]. split; [exact H5|]. split.
  - unfold on_message_swiped.
    destruct (score_history st); [reflexivity|].
    destruct (_ <? _)%nat; cbn [fst]; [|reflexivity].
    destruct (dimensions (set_score_history _ st)) eqn:E; reflexivity.
  - intros Hex. apply H3 in Hex. unfold on_message_swiped in Hex.
    rewrite H1.
    destruct (score_history st) as [|e0 h0] eqn:Eh; [discriminate|].
    rewrite <- Eh in *.
    destruct (_ <? _)%nat eqn:Ew; [|discriminate].
    apply Nat.ltb_lt in Ew. exact Ew.
Qed.

(** After a swipe no score of the swiped message is left in the history;
    the scores of the other messages stay, in their order; the message is
    flagged for a new scoring exactly when it had a score, and otherwise
    the state is unchanged.  The count of scored messages, the last scored
    id and the correction are not touched, and with calibrated dimensions
    the drift state is recomputed from what is left. *)
Theorem swipe_discards_score (s : settings) (swiped_id : nat)
  (st : chat_state) :
  let st' := fst (on_message_swiped sqrt_log2 s swiped_id st) in
  let flagged := snd (on_message_swiped sqrt_log2 s swiped_id st) in
  score_history st'
  = List.filter (fun e => negb (message_id e =? swiped_id)%nat)
      (score_history st)
  /\ Forall (fun e => message_id e <> swiped_id) (score_history st')
  /\ (flagged = true
      <-> exists e, e ∈ score_history st /\ message_id e = swiped_id)
  /\ (flagged = false -> st' = st)
  /\ messages_scored st' = messages_scored st
  /\ last_scored_message_id st' = last_scored_message_id st
  /\ active_correction st' = active_correction st
  /\ ceiling_dimensions st' = ceiling_dimensions st
  /\ cooldown_remaining st' = cooldown_remaining st
  /\ (flagged = true -> dimensions st <> [] ->
      drift_state st'
      = update_drift_state sqrt_log2 s (dimensions st) (score_history st')
          (cusum_reset_after st)).
Proof. apply on_message_swiped_spec. Qed.

(** A swiped message that is scored again: its new score is the last
    entry of the history and its only one, and the messages behind it have
    moved up; the message is counted a second time in [messages_scored]. *)
Theorem swipe_then_rescore (s : settings) (inp : cycle_input)
  (st : chat_state) :
  let swiped := fst (on_message_swiped sqrt_log2 s (message_index inp) st) in
  let st' := score_and_process_message sqrt_log2 s inp swiped in
  cycle_scores inp st = true ->
  (length (score_history st) <= MAX_SCORE_HISTORY)%nat ->
  (exists e, e ∈ score_history st /\ message_id e = message_index inp) ->
  score_history st'
  = List.filter (fun e => negb (message_id e =? message_index inp)%nat)
      (score_history st)
    ++ [new_entry (message_index inp) (now inp) (message_hash inp)
          (reply_scores inp)]
  /\ messages_scored st' = S (messages_scored st).
Proof.
  cbv zeta. intros Hsc Hlen Hex.
  destruct (on_message_swiped_facts s (message_index inp) st)
    as (Hh & Hms & Hd & Hlt).
  set (swiped := fst (on_message_swiped sqrt_log2 s (message_index inp) st)) in *.
  assert (Hsc' : cycle_scores inp swiped = true).
  { unfold cycle_scores in *. rewrite Hd. exact Hsc. }
  destruct (cycle_stores sqrt_log2 s inp swiped) as (_ & _ & Hyes).
  destruct (Hyes Hsc') as (Y1 & _ & _ & _ & Y5 & _).
  rewrite Y1, Hms. split; [|reflexivity].
  rewrite Y5, Hh; [reflexivity|].
  specialize (Hlt Hex). lia.
Qed.

End Swipe.

Lemma swipe_discards_score_witness :
  let st := warmth_run 0 [0.25; 0.5; 0.75] in
  let st' := fst (on_message_swiped unit_factor DEFAULT_SETTINGS 2 st) in
  map message_id (score_history st) = [1; 2; 3]%nat
  /\ map message_id (score_history st') = [1; 3]%nat
  /\ drift_state st'
     = update_drift_state unit_factor DEFAULT_SETTINGS (dimensions st)
         (score_history st') (cusum_reset_after st).
Proof.
  intros st st'.
  pose proof (swipe_discards_score unit_factor DEFAULT_SETTINGS 2 st)
    as (H1 & _ & H3 & _ & _ & _ & _ & _ & _ & H10).
  cbv zeta in *. fold st' in H1, H10.
  assert (Hf : snd (on_message_swiped unit_factor DEFAULT_SETTINGS 2 st)
               = true) by (vm_compute; reflexivity).
  assert (Hd : dimensions st <> []) by (vm_compute; discriminate).
  split; [vm_compute; reflexivity|].
  split; [rewrite H1; vm_compute; reflexivity|].
  exact (H10 Hf Hd).
Defined.

Lemma swipe_then_rescore_witness :
  let st := warmth_run 0 [0.25; 0.5; 0.75] in
  let inp := warmth_input 2 1 in
  let st' :=
    score_and_process_message unit_factor DEFAULT_SETTINGS inp
      (fst (on_message_swiped unit_factor DEFAULT_SETTINGS 2 st)) in
  map message_id (score_history st') = [1; 3; 2]%nat
  /\ messages_scored st' = 4%nat.
Proof.
  intros st inp st'.
  assert (H1 : cycle_scores inp st = true) by (vm_compute; reflexivity).
  assert (H2 : (length (score_history st) <= MAX_SCORE_HISTORY)%nat)
    by (vm_compute; lia).
  assert (H3 : exists e, e ∈ score_history st
                         /\ message_id e = message_index inp).
  { exists (warmth_entry 2 0.5). split; [|reflexivity].
    vm_compute. right. left. }
  destruct (swipe_then_rescore unit_factor DEFAULT_SETTINGS inp st H1 H2 H3)
    as [E1 E2].
  split.
  - etransitivity; [exact (f_equal (map message_id) E1)|].
    vm_compute. reflexivity.
  - etransitivity; [exact E2|]. vm_compute. reflexivity.
Defined.

(** ** Shuffling *)

Lemma swap_Permutation {A : Type} (i j : nat) (a : list A) :
  swap i j a ≡ₚ a.
Proof.
  unfold swap. destruct (a !! i) as [x|] eqn:Ei; [|reflexivity].
  destruct (a !! j) as [y|] eqn:Ej; [|reflexivity].
  apply Permutation_insert_swap; assumption.
Qed.

Lemma shuffle_from_Permutation {A : Type} (draw : nat -> nat) (i : nat) :
  forall a : list A, shuffle_from draw i a ≡ₚ a.
Proof.
  induction i as [|i IH]; intros a; cbn [shuffle_from]; [reflexivity|].
  rewrite IH. apply swap_Permutation.
Qed.

(** Whatever indices are drawn, [shuffle_array] returns a rearrangement of
    its argument: nothing is lost, added or repeated.  Chunked by
    [CHUNK_SIZE], the shuffled dimensions fall into chunks of 1 to 4 that
    together hold each dimension exactly as often as the argument does. *)
Theorem shuffled_chunks_cover {A : Type} (draw : nat -> nat)
  (dims : list A) :
  shuffle_array draw dims ≡ₚ dims
  /\ length (shuffle_array draw dims) = length dims
  /\ exists chunks,
       chunk_array (shuffle_array draw dims) CHUNK_SIZE = Some chunks
       /\ concat chunks ≡ₚ dims
       /\ Forall (fun c => (1 <= length c <= CHUNK_SIZE)%nat) chunks.
Proof.
  assert (Hp : shuffle_array draw dims ≡ₚ dims)
    by apply shuffle_from_Permutation.
  split; [exact Hp|]. split; [apply Permutation_length, Hp|].
  destruct (chunk_array_from_spec (A := A) CHUNK_SIZE
              ltac:(unfold CHUNK_SIZE; lia)
              (length (shuffle_array draw dims)) (shuffle_array draw dims)
              ltac:(lia)) as (chunks & E & Hc & Hall & _).
  exists chunks. split; [exact E|]. split; [rewrite Hc; exact Hp|exact Hall].
Qed.

(** ** The intensity of a correction *)

Lemma insert_by_deviation_elem (x d : correction_target)
  (l : list correction_target) :
  d ∈ insert_by_deviation x l <-> d = x \/ d ∈ l.
Proof.
  induction l as [|y l IH]; cbn [insert_by_deviation].
  - rewrite list_elem_of_singleton, elem_of_nil. tauto.
  - destruct (Qltb _ _); rewrite !elem_of_cons; [rewrite IH|]; tauto.
Qed.

Lemma sort_by_deviation_elem (d : correction_target)
  (l : list correction_target) :
  d ∈ sort_by_deviation l <-> d ∈ l.
Proof.
  unfold sort_by_deviation. induction l as [|x l IH]; cbn [fold_right].
  - reflexivity.
  - rewrite insert_by_deviation_elem, elem_of_cons, IH. reflexivity.
Qed.

Lemma max_of_elem (l : list Q) : l <> [] -> exists x, x ∈ l /\ max_of l == x.
Proof.
  destruct l as [|x l]; [contradiction|]. intros _. cbn [max_of].
  revert x. induction l as [|y l IH]; intros x; cbn [fold_left].
  - exists x. split; [left|reflexivity].
  - destruct (IH (Qmax x y)) as (m & Hm & E).
    apply elem_of_cons in Hm as [->|Hm].
    + destruct (Q.max_spec x y) as [[_ Ey]|[_ Ex]].
      * exists y. split; [right; left|]. rewrite E. exact Ey.
      * exists x. split; [left|]. rewrite E. exact Ex.
    + exists m. split; [right; right; exact Hm|exact E].
Qed.

(** The intensity of a correction.  An escalated correction is never
    SUBTLE.  A first correction whose worst dimensions mostly trend
    [correcting] is never STRONG.  STRONG is asked for only when the
    threshold is positive and some drifting dimension deviates by at least
    1.8 times the threshold; with no dimension to describe, or with a
    threshold that is not positive, the intensity is SUBTLE for a first
    correction and MODERATE for an escalated one. *)
Theorem correction_intensity_sound (s : settings)
  (drifting_dims : list correction_target) (escalation : bool) :
  let worst := take (correction_max_dimensions s)
                 (sort_by_deviation drifting_dims) in
  (escalation = true ->
   correction_intensity s drifting_dims escalation <> SUBTLE)
  /\ (escalation = false ->
      (length worst < 2 * length (List.filter is_correcting worst))%nat ->
      correction_intensity s drifting_dims escalation <> STRONG)
  /\ (correction_intensity s drifting_dims escalation = STRONG ->
      0 < drift_threshold s
      /\ exists d dev,
           d ∈ drifting_dims /\ ct_deviation d = Some dev
           /\ 1.8 * drift_threshold s <= dev)
  /\ (worst = [] \/ drift_threshold s <= 0 ->
      correction_intensity s drifting_dims escalation
      = if escalation then MODERATE else SUBTLE).
Proof.
  cbv zeta. unfold correction_intensity.
  set (worst := take (correction_max_dimensions s)
                  (sort_by_deviation drifting_dims)).
  set (worst_deviation := match worst with
                          | [] => 0
                          | _ => max_of (map deviation_number worst)
                          end).
  set (ratio := if Qltb 0 (drift_threshold s)
                then worst_deviation / drift_threshold s else 1).
  set (majority := Qltb (Qnat (length worst) / 2)
                     (Qnat (length (List.filter is_correcting worst)))).
  split; [|split; [|split]].
  - intros ->. rewrite andb_false_r.
    destruct (Qltb ratio 1.3); [discriminate|].
    destruct (Qltb ratio 1.8); discriminate.
  - intros -> Hmaj.
    assert (Em : majority = true).
    { unfold majority. apply Qltb_true.
      apply Qlt_shift_div_r; [lra|].
      unfold Qnat. change 2 with (inject_Z 2).
      rewrite <- inject_Z_mult, <- Zlt_Qlt. lia. }
    rewrite Em. cbn [andb negb].
    destruct (Qltb ratio 1.3); [discriminate|].
    destruct (Qltb ratio 1.8); discriminate.
  - intros Hs.
    assert (Hr : 1.8 <= ratio).
    { destruct (Qltb ratio 1.8) eqn:E18; [|apply Qltb_false, E18].
      exfalso. destruct (Qltb ratio 1.3), escalation, majority;
        cbn in Hs; discriminate. }
    unfold ratio in Hr.
    destruct (Qltb 0 (drift_threshold s)) eqn:Et; [|lra].
    apply Qltb_true in Et. split; [exact Et|].
    assert (Hw : 1.8 * drift_threshold s <= worst_deviation).
    { apply (Qmult_le_compat_r _ _ (drift_threshold s)) in Hr; [|lra].
      assert (E : worst_deviation / drift_threshold s * drift_threshold s
                  == worst_deviation) by (field; lra).
      rewrite E in Hr. exact Hr. }
    unfold worst_deviation in Hw.
    destruct worst as [|w0 ws] eqn:Ew; [nra|].
    destruct (max_of_elem (map deviation_number (w0 :: ws)))
      as (x & Hx & Ex); [discriminate|].
    apply list_elem_of_fmap in Hx as (d & -> & Hd).
    rewrite Ex in Hw.
    assert (Hin : d ∈ drifting_dims).
    { apply sort_by_deviation_elem.
      apply (subseteq_take (correction_max_dimensions s)).
      fold worst. rewrite Ew. exact Hd. }
    unfold deviation_number in Hw.
    destruct (ct_deviation d) as [dev|] eqn:Ed; cbn [default] in Hw.
    + exists d, dev. auto.
    + exfalso. nra.
  - intros Hcase.
    assert (Er : ratio < 1.3).
    { unfold ratio. destruct Hcase as [Hw|Ht].
      - unfold worst_deviation. rewrite Hw.
        destruct (Qltb 0 (drift_threshold s)) eqn:Et; [|lra].
        apply Qltb_true in Et. unfold Qdiv. rewrite Qmult_0_l. lra.
      - assert (E : Qltb 0 (drift_threshold s) = false)
          by (apply Qltb_false, Ht).
        rewrite E. lra. }
    apply Qltb_true in Er. rewrite Er.
    destruct escalation; [rewrite andb_false_r; reflexivity|].
    destruct (majority && negb false); reflexivity.
Qed.

Lemma correction_intensity_sound_witness :
  correction_intensity DEFAULT_SETTINGS
    [{| ct_deviation := Some 0.1; ct_trend := Some T_drifting |}] true
  <> SUBTLE.
Proof.
  exact (proj1 (correction_intensity_sound DEFAULT_SETTINGS
                  [{| ct_deviation := Some 0.1; ct_trend := Some T_drifting |}]
                  true) eq_refl).
Defined.

(** ** The brace matcher finds the first balanced block *)

Section ExtractJsonFacts.

Context {code_unit : Type}.

#[local] Abbreviation text := (list (json_char code_unit)).

Ltac finish_scan :=
  match goal with
  | |- context [scan_balanced ?p ?r ?d ?i ?e] =>
      destruct (scan_balanced p r d i e); cbn; rewrite <- ?app_assoc;
      reflexivity
  end.

Lemma opener_plain (pass : bracket_pass) (ch : json_char code_unit) :
  is_opener pass ch = true -> plain ch = true /\ is_closer pass ch = false.
Proof. destruct pass, ch; cbn; intros H; try discriminate; auto. Qed.

Lemma closer_plain (pass : bracket_pass) (ch : json_char code_unit) :
  is_closer pass ch = true -> plain ch = true /\ is_opener pass ch = false.
Proof. destruct pass, ch; cbn; intros H; try discriminate; auto. Qed.

Lemma scan_plain (pass : bracket_pass) (ch : json_char code_unit)
  (rest : text) (depth : Z) (in_string : bool) :
  plain ch = true ->
  scan_balanced pass (ch :: rest) depth in_string false
  = if in_string
    then cons ch <$> scan_balanced pass rest depth in_string false
    else if is_opener pass ch
    then cons ch <$> scan_balanced pass rest (depth + 1) false false
    else if is_closer pass ch
    then if (depth - 1 =? 0)%Z then Some [ch]
         else cons ch <$> scan_balanced pass rest (depth - 1) false false
    else cons ch <$> scan_balanced pass rest depth false false.
Proof. destruct ch; cbn; intros H; try discriminate; reflexivity. Qed.

Lemma scan_string_body (pass : bracket_pass) (s : text) :
  string_body s ->
  forall (rest : text) (depth : Z),
    scan_balanced pass (s ++ rest) depth true false
    = app s <$> scan_balanced pass rest depth true false.
Proof.
  induction 1 as [|ch t Hp _ IH|ch t _ IH]; intros rest depth.
  - cbn [app]. finish_scan.
  - cbn [app]. rewrite scan_plain by exact Hp. rewrite IH.
    finish_scan.
  - cbn [app scan_balanced]. rewrite IH.
    finish_scan.
Qed.

Lemma scan_block_body (pass : bracket_pass) (b : text) :
  block_body pass b ->
  forall (rest : text) (depth : Z),
    (0 < depth)%Z ->
    scan_balanced pass (b ++ rest) depth false false
    = app b <$> scan_balanced pass rest depth false false.
Proof.
  induction 1 as [|ch t Hp Ho Hc _ IH|ch t _ IH|s t Hs _ IH
                  |o b c t Ho _ IHb Hc _ IHt]; intros rest depth Hd.
  - cbn [app]. finish_scan.
  - cbn [app]. rewrite scan_plain by exact Hp. rewrite Ho, Hc, IH by exact Hd.
    finish_scan.
  - cbn [app scan_balanced]. rewrite IH by exact Hd.
    finish_scan.
  - cbn [app scan_balanced negb]. rewrite <- app_assoc.
    rewrite scan_string_body by exact Hs.
    cbn [app scan_balanced negb]. rewrite IH by exact Hd.
    finish_scan.
  - destruct (opener_plain pass o Ho) as [Hpo Hco].
    destruct (closer_plain pass c Hc) as [Hpc Hoc].
    cbn [app]. rewrite scan_plain by exact Hpo. rewrite Ho.
    rewrite <- app_assoc. rewrite IHb by lia.
    cbn [app]. rewrite scan_plain by exact Hpc. rewrite Hoc, Hc.
    destruct (Z.eqb_spec (depth + 1 - 1) 0) as [E|_]; [lia|].
    replace (depth + 1 - 1)%Z with depth by lia.
    rewrite IHt by exact Hd.
    finish_scan.
Qed.

Lemma scan_balanced_block (pass : bracket_pass) (block rest : text) :
  balanced_block pass block ->
  scan_balanced pass (block ++ rest) 0 false false = Some block.
Proof.
  intros [o b c Ho Hb Hc].
  destruct (opener_plain pass o Ho) as [Hpo Hco].
  destruct (closer_plain pass c Hc) as [Hpc Hoc].
  cbn [app]. rewrite scan_plain by exact Hpo. rewrite Ho.
  rewrite <- app_assoc. rewrite scan_block_body by (exact Hb || lia).
  cbn [app]. rewrite scan_plain by exact Hpc. rewrite Hoc, Hc.
  reflexivity.
Qed.

Lemma from_first_opener_skip (pass : bracket_pass) (pre t : text) :
  Forall (fun ch => is_opener pass ch = false) pre ->
  from_first_opener pass (pre ++ t) = from_first_opener pass t.
Proof.
  induction 1 as [|ch pre Hch _ IH]; [reflexivity|].
  cbn [app from_first_opener]. rewrite Hch. exact IH.
Qed.

Lemma candidate_block (pass : bracket_pass) (pre block post : text) :
  Forall (fun ch => is_opener pass ch = false) pre ->
  balanced_block pass block ->
  candidate pass (pre ++ block ++ post) = Some block.
Proof.
  intros Hpre Hb. unfold candidate.
  rewrite from_first_opener_skip by exact Hpre.
  pose proof Hb as Hb'. destruct Hb' as [o b c Ho _ _].
  cbn [app from_first_opener]. rewrite Ho.
  apply (scan_balanced_block pass (o :: b ++ [c]) post Hb).
Qed.

(** [extract_json].  A text that parses as it is gives its own value.
    Otherwise, when no fenced block parses, the text before the first [{]
    is skipped and the first balanced block, in which brackets inside
    string literals and escaped code units do not count, is the candidate:
    its value is returned when it parses, and only when it does not is
    the first balanced [[ ]] block tried in the same way. *)
Theorem extract_json_finds_block {J : Type}
  (parse : text -> option J) (code_block : text -> option text)
  (t : text) :
  (forall v, parse t = Some v -> extract_json parse code_block t = Some v)
  /\ (forall pre block post,
        t = pre ++ block ++ post ->
        Forall (fun ch => is_opener Braces ch = false) pre ->
        balanced_block Braces block ->
        parse t = None -> code_block t ≫= parse = None ->
        candidate Braces t = Some block
        /\ (forall v, parse block = Some v ->
              extract_json parse code_block t = Some v)
        /\ (parse block = None ->
            extract_json parse code_block t = candidate Brackets t ≫= parse))
  /\ (forall pre block post,
        t = pre ++ block ++ post ->
        Forall (fun ch => is_opener Brackets ch = false) pre ->
        balanced_block Brackets block ->
        parse t = None -> code_block t ≫= parse = None ->
        candidate Braces t ≫= parse = None ->
        extract_json parse code_block t = parse block).
Proof.
  unfold extract_json. split; [|split].
  - intros v ->. reflexivity.
  - intros pre block post -> Hpre Hb Hp Hcb.
    rewrite Hp, Hcb, (candidate_block Braces pre block post Hpre Hb).
    split; [reflexivity|]. cbn. split.
    + intros v ->. reflexivity.
    + intros ->. reflexivity.
  - intros pre block post -> Hpre Hb Hp Hcb Hbr.
    rewrite Hp, Hcb, Hbr, (candidate_block Brackets pre block post Hpre Hb).
    reflexivity.
Qed.

End ExtractJsonFacts.

Lemma extract_json_finds_block_witness :
  let block : list (json_char nat) :=
    [Open_brace; Quote; Close_brace; Quote; Close_brace] in
  let t := [Other 1%nat] ++ block ++ [Other 2%nat] in
  let parse := fun c : list (json_char nat) =>
    if (length c =? 5)%nat then Some 7%nat else None in
  let code_block := fun _ : list (json_char nat) =>
    @None (list (json_char nat)) in
  candidate Braces t = Some block
  /\ extract_json parse code_block t = Some 7%nat.
Proof.
  intros block t parse code_block.
  assert (Hpre : Forall (fun ch : json_char nat => is_opener Braces ch = false)
                   [Other 1%nat])
    by (repeat constructor).
  assert (Hb : balanced_block Braces block).
  { apply (Block Braces Open_brace [Quote; Close_brace; Quote] Close_brace);
      [reflexivity| |reflexivity].
    apply (Inner_string Braces [Close_brace] []).
    - apply Body_plain; [reflexivity|apply Body_nil].
    - apply Inner_nil. }
  destruct (proj1 (proj2 (extract_json_finds_block parse code_block t))
              [Other 1%nat] block [Other 2%nat]
              eq_refl Hpre Hb eq_refl eq_refl) as (Hc & Hv & _).
  split; [exact Hc|]. apply Hv. reflexivity.
Defined.
